(** * Hint runner of the Cairo zero VM: dictionaries and zero hints

    A shallow embedding of [pkg/hintrunner/hinter/dict.go] and of the parts
    of [pkg/hintrunner/zero/zerohint.go] that bind hint operands and build
    the comparison hints, followed by the properties proved about them.

    Conventions of the embedding:
    - Go integers are [Z]; arithmetic that can wrap is written with
      [wrap_uint64] / [wrap_int64].
    - A field element ([fp.Element]) is the canonical representative in
      [0, PRIME) of its residue class, a [Z].
    - A Go map is an [option (gmap K V)]: [None] is the nil map, which
      reads as empty and panics when written.
    - A Go function that mutates its receiver takes the old state and
      returns the new one; a returned [error] is an [Err], a runtime
      panic is [Panic]. *)

From stdpp Require Import base option list gmap strings fin_maps sorting.
From Stdlib Require Import ZArith Lia.

Local Open Scope Z_scope.

(* ===================================================================== *)
(** * Machine integers and field elements *)
(* ===================================================================== *)

(** [uint64] arithmetic wraps modulo 2^64. *)
Definition wrap_uint64 (x : Z) : Z := x mod 2 ^ 64.

(** [int] (64 bit, two's complement) arithmetic wraps into [-2^63, 2^63). *)
Definition wrap_int64 (x : Z) : Z := (x + 2 ^ 63) mod 2 ^ 64 - 2 ^ 63.

(** The prime of the field the VM computes in
    ([ecc/stark-curve/fp]): 2^251 + 17 * 2^192 + 1. *)
Definition PRIME : Z := 2 ^ 251 + 17 * 2 ^ 192 + 1.

(** Field elements by their canonical representative. *)
Abbreviation Felt := Z.

(** [z.Sub(x, y)] of [fp.Element]. *)
Definition Felt_Sub (x y : Felt) : Felt := (x - y) mod PRIME.

(** Modelled from the spec: [utils.FeltZero] of the absent package
    [pkg/utils], the field element 0 that the hints write. *)
Definition FeltZero : Felt := 0.

(** Modelled from the spec: [utils.FeltOne] of the absent package
    [pkg/utils], the field element 1 that the hints write. *)
Definition FeltOne : Felt := 1.

(** Modelled from the spec: [utils.FeltMax128] of the absent package
    [pkg/utils], the range-check bound [2^128] ("[range_check_builtin.bound]
    is [utils.FeltMax128] (1 << 128)"). *)
Definition FeltMax128 : Felt := 2 ^ 128.

(** Modelled from the spec: [utils.FeltLt] of the absent package
    [pkg/utils], the "field-element ordering comparisons on the canonical
    (reduced) representatives", strict. *)
Definition FeltLt (a b : Felt) : bool := a <? b.

(** Modelled from the spec: [utils.FeltLe] of the absent package
    [pkg/utils], the same comparison, non-strict. *)
Definition FeltLe (a b : Felt) : bool := a <=? b.

(* ===================================================================== *)
(** * Memory values and addresses *)
(* ===================================================================== *)

(** [mem.MemoryAddress]: a segment index ([int], negative for temporary
    segments) and an offset ([uint64]). *)
Record MemoryAddress : Type := MkAddress {
  SegmentIndex : Z;
  Offset : Z
}.

#[global] Instance MemoryAddress_eq_dec : EqDecision MemoryAddress.
Proof. solve_decision. Defined.

(** Modelled from the spec: [mem.MemoryValue] of the absent package
    [pkg/vm/memory], a cell content that is either a field element or an
    address. *)
Inductive MemoryValue : Type :=
| FeltValue (felt : Felt)
| AddressValue (addr : MemoryAddress).

#[global] Instance MemoryValue_eq_dec : EqDecision MemoryValue.
Proof. solve_decision. Defined.

(* ===================================================================== *)
(** * Errors, panics and the result monad *)
(* ===================================================================== *)

(** The errors the two files build with [fmt.Errorf], one constructor per
    message, carrying the values the message prints. [ExternalError]
    stands for an error returned by a collaborator outside the excerpt. *)
Inductive Error : Type :=
| MissingIdentifier (referenceName : string)
| NoReferences (referenceName : string)
| NoApplicableReference (referenceName : string) (hintPC : Z)
| DuplicateReference (referenceName : string)
| NoDictionaryAtAddress (dictAddr : MemoryAddress)
| NoValueForKey (key : Felt)
| AlreadyInitialized
| NoKeysLeft
| NoIndicesForKey (key : Felt)
| MissingReference (name : string)
| TypeMismatch (name : string)
| ExternalError (msg : string).

Inductive Outcome (A : Type) : Type :=
| Ok (a : A)
| Err (e : Error)
| Panic.

Arguments Ok {A} a.
Arguments Err {A} e.
Arguments Panic {A}.

#[global] Instance Outcome_ret : MRet Outcome := λ A a, Ok a.
#[global] Instance Outcome_bind : MBind Outcome := λ A B f c,
  match c with
  | Ok a => f a
  | Err e => Err e
  | Panic => Panic
  end.

(** Modelled from the spec: [FieldElement()] of the absent package
    [pkg/vm/memory], which reads a memory value as a field element and
    fails on an address. *)
Definition FieldElement (v : MemoryValue) : Outcome Felt :=
  match v with
  | FeltValue felt => Ok felt
  | AddressValue _ => Err (ExternalError "memory value is not a field element")
  end.

(** Modelled from the spec: [MemoryValueFromFieldElement] of the absent
    package [pkg/vm/memory], the memory value that holds a field
    element. *)
Definition MemoryValueFromFieldElement (felt : Felt) : MemoryValue :=
  FeltValue felt.

(* ===================================================================== *)
(** * Go maps and slices *)
(* ===================================================================== *)

Section GoMap.
Context {K : Type} `{Countable K} {V : Type}.

(** [v, ok := m[k]]: reading the nil map finds nothing. *)
Definition go_lookup (m : option (gmap K V)) (k : K) : option V :=
  match m with
  | Some g => g !! k
  | None => None
  end.

(** [m[k] = v]: "assignment to entry in nil map" panics. *)
Definition go_store (m : option (gmap K V)) (k : K) (v : V)
  : Outcome (option (gmap K V)) :=
  match m with
  | Some g => Ok (Some (<[k := v]> g))
  | None => Panic
  end.

(** [len(m)]. *)
Definition go_len (m : option (gmap K V)) : Z :=
  match m with
  | Some g => Z.of_nat (size g)
  | None => 0
  end.

(** The entries a [range] over the map visits, each exactly once; the
    order of the visit is not fixed by the language, so a loop over a
    map is modelled for every list [order] with [go_range m order]. *)
Definition go_entries (m : option (gmap K V)) : list (K * V) :=
  match m with
  | Some g => map_to_list g
  | None => []
  end.

Definition go_range (m : option (gmap K V)) (order : list (K * V)) : Prop :=
  order ≡ₚ go_entries m.
End GoMap.

(** A slice by its elements; [None] is the nil slice, of length 0. *)
Definition slice_elems {A : Type} (s : option (list A)) : list A :=
  match s with
  | Some l => l
  | None => []
  end.

(* ===================================================================== *)
(** * The virtual machine, as the hint runner consumes it *)
(* ===================================================================== *)

(** Modelled from the spec: the operations of the absent packages
    [pkg/vm] and [pkg/vm/memory] that the two files call, "[write(address,
    value)], [allocate_segment() -> address], [allocate_temporary_segment()
    -> address], [add_relocation_rule(from_segment, to_address)], current
    allocation-pointer address accessor". The machine state is any type
    with these operations; an operation that mutates the machine returns
    the new machine, and one that returns an error halts the run with
    it. A segment is allocated empty and the address returned
    is its base, offset 0. *)
Class VMInterface (VirtualMachine : Type) : Type := {
  (* vm.Context.AddressAp() *)
  AddressAp : VirtualMachine → MemoryAddress;
  (* vm.Memory.WriteToAddress(&addr, &value) *)
  WriteToAddress :
    VirtualMachine → MemoryAddress → MemoryValue → Outcome VirtualMachine;
  (* vm.Memory.AllocateEmptySegment() *)
  AllocateEmptySegment : VirtualMachine → MemoryAddress * VirtualMachine;
  (* vm.Memory.AllocateEmptyTemporarySegment() *)
  AllocateEmptyTemporarySegment :
    VirtualMachine → MemoryAddress * VirtualMachine;
  (* vm.Memory.AddRelocationRule(segmentIndex, addr) *)
  AddRelocationRule : VirtualMachine → Z → MemoryAddress → VirtualMachine;
  AllocateEmptySegment_base :
    ∀ vm, Offset (AllocateEmptySegment vm).1 = 0;
  AllocateEmptyTemporarySegment_base :
    ∀ vm, Offset (AllocateEmptyTemporarySegment vm).1 = 0
}.

(** Modelled from the spec: a machine with "growable real segments,
    growable temporary segments (negative indices)" that records what is
    asked of it, the memory writes and the relocation rules in the order
    they arrive and the number of real and of temporary segments
    allocated. Real segments are numbered 0, 1, ... and temporary ones
    -1, -2, ...; every write is accepted. *)
Record RecordingVM : Type := MkRecordingVM {
  rvm_ap : MemoryAddress;
  rvm_segments : Z;
  rvm_temporary_segments : Z;
  rvm_writes : list (MemoryAddress * MemoryValue);
  rvm_rules : list (Z * MemoryAddress)
}.

#[global, refine] Instance RecordingVM_interface : VMInterface RecordingVM := {|
  AddressAp vm := rvm_ap vm;
  WriteToAddress vm addr value :=
    Ok (MkRecordingVM (rvm_ap vm) (rvm_segments vm)
          (rvm_temporary_segments vm)
          (rvm_writes vm ++ [(addr, value)]) (rvm_rules vm));
  AllocateEmptySegment vm :=
    (MkAddress (rvm_segments vm) 0,
     MkRecordingVM (rvm_ap vm) (rvm_segments vm + 1)
       (rvm_temporary_segments vm) (rvm_writes vm) (rvm_rules vm));
  AllocateEmptyTemporarySegment vm :=
    (MkAddress (- (rvm_temporary_segments vm + 1)) 0,
     MkRecordingVM (rvm_ap vm) (rvm_segments vm)
       (rvm_temporary_segments vm + 1) (rvm_writes vm) (rvm_rules vm));
  AddRelocationRule vm segmentIndex addr :=
    MkRecordingVM (rvm_ap vm) (rvm_segments vm) (rvm_temporary_segments vm)
      (rvm_writes vm) (rvm_rules vm ++ [(segmentIndex, addr)])
|}.
Proof. all: reflexivity. Defined.

(* ===================================================================== *)
(** * package hinter: dict.go *)
(* ===================================================================== *)

(** ** Dictionary *)

(** [data] is a Go map from [fp.Element] to [*mem.MemoryValue]; the
    stored pointers are modelled by the values they point to. Every
    dictionary the manager tracks is built by [NewDictionary] with a map
    of its own, so no two tracked dictionaries share their [data], and
    writing the updated map back into the entry is what the in-place
    update of the Go map amounts to. *)
Record Dictionary : Type := MkDictionary {
  (* The data contained on a dictionary *)
  data : option (gmap Z MemoryValue);
  (* Unique id assigned at the moment of creation *)
  idx : Z;
  end_ : MemoryAddress
}.

(** [func (d *Dictionary) At(key)] *)
Definition Dictionary_At (d : Dictionary) (key : Felt) : Outcome MemoryValue :=
  match go_lookup (data d) key with
  | Some value => Ok value
  | None => Err (NoValueForKey key)
  end.

(** [func (d *Dictionary) Set(key, value)] *)
Definition Dictionary_Set (d : Dictionary) (key : Felt) (value : MemoryValue)
  : Outcome Dictionary :=
  data' ← go_store (data d) key value;
  Ok (MkDictionary data' (idx d) (end_ d)).

(** [func (d *Dictionary) SetEnd(end)] *)
Definition Dictionary_SetEnd (d : Dictionary) (end' : MemoryAddress)
  : Dictionary :=
  MkDictionary (data d) (idx d) end'.

(** [func (d *Dictionary) InitNumber()] *)
Definition Dictionary_InitNumber (d : Dictionary) : Z := idx d.

(** ** DictionaryManager *)

Record DictionaryManager : Type := MkDictionaryManager {
  (* a map that links a segment index to a dictionary *)
  dictionaries : option (gmap Z Dictionary);
  useTemporarySegments : bool
}.

(** ** SquashedDictionaryManager *)

Record SquashedDictionaryManager : Type := MkSquashedDictionaryManager {
  (* A map from each key to a list of indices where the key is present *)
  KeyToIndices : option (gmap Z (list Z));
  (* A descending list of keys *)
  Keys : option (list Z)
}.

(** The fields of [HintRunnerContext] (declared outside the excerpt) that
    the two files use. *)
Record HintRunnerContext : Type := MkHintRunnerContext {
  ctx_DictionaryManager : DictionaryManager;
  ctx_SquashedDictionaryManager : SquashedDictionaryManager;
  ExcludedArc : Z
}.

(** [func InitializeDictionaryManager(ctx, useTemporarySegments)] *)
Definition InitializeDictionaryManager
    (ctx : HintRunnerContext) (useTemporarySegments' : bool)
  : HintRunnerContext :=
  let dicts :=
    match dictionaries (ctx_DictionaryManager ctx) with
    | None => Some ∅
    | Some g => Some g
    end in
  MkHintRunnerContext
    (MkDictionaryManager dicts useTemporarySegments')
    (ctx_SquashedDictionaryManager ctx) (ExcludedArc ctx).

Section DictionaryManager.
Context {VirtualMachine : Type} `{VMInterface VirtualMachine}.

(** [func (dm *DictionaryManager) NewDictionary(vm)]: the segment is
    allocated before the map is written, and [len(dm.dictionaries)] is
    read before the new entry is stored. *)
Definition NewDictionary (dm : DictionaryManager) (vm : VirtualMachine)
  : Outcome (MemoryAddress * DictionaryManager * VirtualMachine) :=
  let '(newDictAddr, vm) :=
    if useTemporarySegments dm
    then AllocateEmptyTemporarySegment vm
    else AllocateEmptySegment vm in
  dicts ← go_store (dictionaries dm) (SegmentIndex newDictAddr)
             (MkDictionary (Some ∅)
                (wrap_uint64 (go_len (dictionaries dm)))
                (MkAddress 0 0));
  Ok (newDictAddr, MkDictionaryManager dicts (useTemporarySegments dm), vm).

(** The loop of [RelocateAllDictionaries], for one order of visiting the
    map: each iteration installs the rule for [-key] at the current
    [segmentAddr] and then advances [segmentAddr.Offset]. *)
Fixpoint relocate_loop (order : list (Z * Dictionary))
    (segmentAddr : MemoryAddress) (vm : VirtualMachine) : VirtualMachine :=
  match order with
  | [] => vm
  | (key, dict) :: rest =>
      let vm := AddRelocationRule vm (wrap_int64 (- key)) segmentAddr in
      let segmentAddr :=
        MkAddress (SegmentIndex segmentAddr)
          (wrap_uint64
             (Offset segmentAddr + wrap_uint64 (Offset (end_ dict) + 1))) in
      relocate_loop rest segmentAddr vm
  end.

(** The body of [RelocateAllDictionaries] for a run that visits the map
    in the order [order]. *)
Definition RelocateAllDictionaries_in (order : list (Z * Dictionary))
    (vm : VirtualMachine) : VirtualMachine :=
  let '(segmentAddr, vm) := AllocateEmptySegment vm in
  relocate_loop order segmentAddr vm.

(** [func (dm *DictionaryManager) RelocateAllDictionaries(vm)]: a run
    visits the entries of [dm.dictionaries] in some order. *)
Definition RelocateAllDictionaries (dm : DictionaryManager)
    (vm vm' : VirtualMachine) : Prop :=
  ∃ order, go_range (dictionaries dm) order
           ∧ vm' = RelocateAllDictionaries_in order vm.
End DictionaryManager.

(** [func (dm *DictionaryManager) GetDictionary(dictAddr)] *)
Definition GetDictionary (dm : DictionaryManager) (dictAddr : MemoryAddress)
  : Outcome Dictionary :=
  match go_lookup (dictionaries dm) (SegmentIndex dictAddr) with
  | Some dict => Ok dict
  | None => Err (NoDictionaryAtAddress dictAddr)
  end.

(** [func (dm *DictionaryManager) At(dictAddr, key)] *)
Definition DictionaryManager_At (dm : DictionaryManager)
    (dictAddr : MemoryAddress) (key : Felt) : Outcome MemoryValue :=
  match go_lookup (dictionaries dm) (SegmentIndex dictAddr) with
  | Some dict => Dictionary_At dict key
  | None => Err (NoDictionaryAtAddress dictAddr)
  end.

(** [func (dm *DictionaryManager) Set(dictAddr, key, value)]: [dict] is a
    copy of the map entry whose [data] is the same Go map; the copy, with
    its new [end], is stored back under the segment index. *)
Definition DictionaryManager_Set (dm : DictionaryManager)
    (dictAddr : MemoryAddress) (key : Felt) (value : MemoryValue)
  : Outcome DictionaryManager :=
  match go_lookup (dictionaries dm) (SegmentIndex dictAddr) with
  | Some dict =>
      dict ← Dictionary_Set dict key value;
      let dict := Dictionary_SetEnd dict dictAddr in
      dicts ← go_store (dictionaries dm) (SegmentIndex dictAddr) dict;
      Ok (MkDictionaryManager dicts (useTemporarySegments dm))
  | None => Err (NoDictionaryAtAddress dictAddr)
  end.

(** ** SquashedDictionaryManager operations *)

(** [func InitializeSquashedDictionaryManager(ctx)]: [make] returns a
    non-nil empty map and a non-nil empty slice. *)
Definition InitializeSquashedDictionaryManager (ctx : HintRunnerContext)
  : Outcome HintRunnerContext :=
  match KeyToIndices (ctx_SquashedDictionaryManager ctx),
        Keys (ctx_SquashedDictionaryManager ctx) with
  | None, None =>
      Ok (MkHintRunnerContext (ctx_DictionaryManager ctx)
            (MkSquashedDictionaryManager (Some ∅) (Some []))
            (ExcludedArc ctx))
  | _, _ => Err AlreadyInitialized
  end.

(** [func (sdm *SquashedDictionaryManager) Insert(key, index)] *)
Definition Insert (sdm : SquashedDictionaryManager) (key : Felt) (index : Z)
  : Outcome SquashedDictionaryManager :=
  let keyIndex := key in
  match go_lookup (KeyToIndices sdm) keyIndex with
  | Some indices =>
      m ← go_store (KeyToIndices sdm) keyIndex (indices ++ [index]);
      Ok (MkSquashedDictionaryManager m (Keys sdm))
  | None =>
      m ← go_store (KeyToIndices sdm) keyIndex [index];
      Ok (MkSquashedDictionaryManager m (Keys sdm))
  end.

(** [func (sdm *SquashedDictionaryManager) LastKey()] *)
Definition LastKey (sdm : SquashedDictionaryManager) : Outcome Felt :=
  let keys := slice_elems (Keys sdm) in
  if (length keys =? 0)%nat then Err NoKeysLeft
  else match keys !! (length keys - 1)%nat with
       | Some key => Ok key
       | None => Panic
       end.

(** [func (sdm *SquashedDictionaryManager) PopKey()] *)
Definition PopKey (sdm : SquashedDictionaryManager)
  : Outcome (Felt * SquashedDictionaryManager) :=
  key ← LastKey sdm;
  let keys := slice_elems (Keys sdm) in
  Ok (key, MkSquashedDictionaryManager (KeyToIndices sdm)
             (Some (take (length keys - 1)%nat keys))).

(** [sdm.KeyToIndices[key]]: a missing key reads as the nil slice. *)
Definition indices_of (sdm : SquashedDictionaryManager) (key : Felt)
  : list Z :=
  default [] (go_lookup (KeyToIndices sdm) key).

(** [func (sdm *SquashedDictionaryManager) LastIndices()] *)
Definition LastIndices (sdm : SquashedDictionaryManager)
  : Outcome (list Z) :=
  key ← LastKey sdm;
  Ok (indices_of sdm key).

(** [func (sdm *SquashedDictionaryManager) LastIndex()] *)
Definition LastIndex (sdm : SquashedDictionaryManager) : Outcome Z :=
  key ← LastKey sdm;
  let indices := indices_of sdm key in
  if (length indices =? 0)%nat then Err (NoIndicesForKey key)
  else match indices !! (length indices - 1)%nat with
       | Some index => Ok index
       | None => Panic
       end.

(** [func (sdm *SquashedDictionaryManager) PopIndex()] *)
Definition PopIndex (sdm : SquashedDictionaryManager)
  : Outcome (Z * SquashedDictionaryManager) :=
  key ← LastKey sdm;
  let indices := indices_of sdm key in
  if (length indices =? 0)%nat then Err (NoIndicesForKey key)
  else match indices !! (length indices - 1)%nat with
       | Some index =>
           m ← go_store (KeyToIndices sdm) key
                 (take (length indices - 1)%nat indices);
           Ok (index, MkSquashedDictionaryManager m (Keys sdm))
       | None => Panic
       end.

(** ** Runs of the squashed dictionary manager

    The calls that change the manager held by a run context, in the order
    a run makes them. Modelled from the spec: [SetKeys] is the assignment
    to the exported field [Keys] made by "the algorithm populating
    [keys]", which "is external to this excerpt". *)
Inductive SquashCall : Type :=
| CallInitialize
| CallInsert (key : Felt) (index : Z)
| CallPopKey
| CallPopIndex
| SetKeys (keys : option (list Z)).

Definition with_sdm (ctx : HintRunnerContext)
    (sdm : SquashedDictionaryManager) : HintRunnerContext :=
  MkHintRunnerContext (ctx_DictionaryManager ctx) sdm (ExcludedArc ctx).

(** The context after one call: a call that returns an error leaves the
    context as it was, a call that panics ends the run ([None]). *)
Definition squash_call (ctx : HintRunnerContext) (c : SquashCall)
  : option HintRunnerContext :=
  let sdm := ctx_SquashedDictionaryManager ctx in
  match c with
  | CallInitialize =>
      match InitializeSquashedDictionaryManager ctx with
      | Ok ctx' => Some ctx'
      | Err _ => Some ctx
      | Panic => None
      end
  | CallInsert key index =>
      match Insert sdm key index with
      | Ok sdm' => Some (with_sdm ctx sdm')
      | Err _ => Some ctx
      | Panic => None
      end
  | CallPopKey =>
      match PopKey sdm with
      | Ok (_, sdm') => Some (with_sdm ctx sdm')
      | Err _ => Some ctx
      | Panic => None
      end
  | CallPopIndex =>
      match PopIndex sdm with
      | Ok (_, sdm') => Some (with_sdm ctx sdm')
      | Err _ => Some ctx
      | Panic => None
      end
  | SetKeys keys =>
      Some (with_sdm ctx (MkSquashedDictionaryManager (KeyToIndices sdm) keys))
  end.

Fixpoint squash_run (ctx : HintRunnerContext) (calls : list SquashCall)
  : option HintRunnerContext :=
  match calls with
  | [] => Some ctx
  | c :: rest =>
      match squash_call ctx c with
      | Some ctx' => squash_run ctx' rest
      | None => None
      end
  end.

(* ===================================================================== *)
(** * package zero: zerohint.go *)
(* ===================================================================== *)

(** ** The parsed program, as [getParameters] reads it

    The records of the parser package (outside the excerpt), with the
    fields the file uses. *)

Record ApTracking : Type := MkApTracking {
  Group : Z;
  ApOffset : Z
}.

(** [zero.Reference]: one definition point of an identifier. *)
Record Reference : Type := MkReference {
  ApTrackingData : ApTracking;
  Pc : Z;
  Value : string
}.

Record Identifier : Type := MkIdentifier {
  References : list Reference
}.

Record FlowTrackingData : Type := MkFlowTrackingData {
  ApTracking_ : ApTracking;
  ReferenceIds : gmap string Z
}.

Record Hint : Type := MkHint {
  Code : string;
  FlowTrackingData_ : FlowTrackingData
}.

Record ZeroProgram : Type := MkZeroProgram {
  Identifiers : gmap string Identifier;
  Hints : gmap string (list Hint)
}.

(** The loop [for i := len(references) - 1; i >= 0; i--] of
    [getParameters]: [n] is [i + 1], the number of references not yet
    looked at; the first reference met with [Pc <= hintPC] ends the loop. *)
Fixpoint references_scan (references : list Reference) (hintPC : Z)
    (n : nat) : option Reference :=
  match n with
  | O => None
  | S i =>
      match references !! i with
      | Some reference =>
          if Pc reference <=? hintPC then Some reference
          else references_scan references hintPC i
      | None => None
      end
  end.

(** The body of the loop over the reference names, up to the choice of
    the reference (lines 321 to 343). *)
Definition applicable_reference (zeroProgram : ZeroProgram)
    (referenceName : string) (hintPC : Z) : Outcome Reference :=
  match Identifiers zeroProgram !! referenceName with
  | None => Err (MissingIdentifier referenceName)
  | Some rawIdentifier =>
      if (length (References rawIdentifier) =? 0)%nat
      then Err (NoReferences referenceName)
      else
        let references := References rawIdentifier in
        match references_scan references hintPC (length references) with
        | Some reference => Ok reference
        | None => Err (NoApplicableReference referenceName hintPC)
        end
  end.

(** ** Operands and hinters *)

(** [hinter.ResOperander]: an operand that resolves to a memory value
    against the live machine. *)
Record ResOperander (VirtualMachine : Type) : Type := MkResOperander {
  Resolve : VirtualMachine → Outcome MemoryValue
}.
Arguments MkResOperander {VirtualMachine} _.
Arguments Resolve {VirtualMachine} _ _.

(** [GenericZeroHinter]; the hints of this development do not change the
    run context, so [Op] returns the machine only. *)
Record GenericZeroHinter (VirtualMachine : Type) : Type :=
  MkGenericZeroHinter {
    Name : string;
    Op : VirtualMachine → HintRunnerContext → Outcome VirtualMachine
  }.
Arguments MkGenericZeroHinter {VirtualMachine} _ _.
Arguments Name {VirtualMachine} _.
Arguments Op {VirtualMachine} _ _ _.

Definition Execute {VirtualMachine : Type}
    (hint : GenericZeroHinter VirtualMachine)
    (vm : VirtualMachine) (ctx : HintRunnerContext) : Outcome VirtualMachine :=
  Op hint vm ctx.

Section Zero.
Context {VirtualMachine : Type} `{VMInterface VirtualMachine}.

(** [hinter.Reference], the operand descriptor a reference parses to,
    with the three operations on it that live outside the excerpt:
    the parser of value expressions, the ap-tracking adjustment and
    the type assertion [arg.(hinter.ResOperander)]. *)
Context {hinter_Reference : Type}.
Variable ParseIdentifier : string → Outcome hinter_Reference.
Variable ApplyApTracking :
  hinter_Reference → ApTracking → ApTracking → hinter_Reference.
Variable AsResOperander :
  hinter_Reference → option (ResOperander VirtualMachine).

(** Modelled from the spec: [hintReferenceResolver], declared in a file
    outside the excerpt, a "mapping from operand name (string) to
    [OperandDescriptor] ... unique keys"; adding a bound name fails with
    [DuplicateReference], reading a "missing name is a
    [MissingReference] error; wrong descriptor kind for the requested
    access mode is a [TypeMismatch] error". *)
Definition NewReferenceResolver : gmap string hinter_Reference := ∅.

Definition AddReference (resolver : gmap string hinter_Reference)
    (name : string) (param : hinter_Reference)
  : Outcome (gmap string hinter_Reference) :=
  match resolver !! name with
  | Some _ => Err (DuplicateReference name)
  | None => Ok (<[name := param]> resolver)
  end.

Definition GetReference (resolver : gmap string hinter_Reference)
    (name : string) : Outcome hinter_Reference :=
  match resolver !! name with
  | Some param => Ok param
  | None => Err (MissingReference name)
  end.

Definition GetResOperander (resolver : gmap string hinter_Reference)
    (name : string) : Outcome (ResOperander VirtualMachine) :=
  param ← GetReference resolver name;
  match AsResOperander param with
  | Some op => Ok op
  | None => Err (TypeMismatch name)
  end.

(** [getParameters], for one order of visiting
    [hint.FlowTrackingData.ReferenceIds]. *)
Fixpoint getParameters_loop (zeroProgram : ZeroProgram) (hint : Hint)
    (hintPC : Z) (names : list string)
    (resolver : gmap string hinter_Reference)
  : Outcome (gmap string hinter_Reference) :=
  match names with
  | [] => Ok resolver
  | referenceName :: rest =>
      reference ← applicable_reference zeroProgram referenceName hintPC;
      param ← ParseIdentifier (Value reference);
      let param :=
        ApplyApTracking param (ApTracking_ (FlowTrackingData_ hint))
          (ApTrackingData reference) in
      resolver ← AddReference resolver referenceName param;
      getParameters_loop zeroProgram hint hintPC rest resolver
  end.

Definition getParameters (zeroProgram : ZeroProgram) (hint : Hint)
    (hintPC : Z) (result : Outcome (gmap string hinter_Reference)) : Prop :=
  ∃ names,
    names ≡ₚ (map_to_list (ReferenceIds (FlowTrackingData_ hint))).*1
    ∧ result
      = getParameters_loop zeroProgram hint hintPC names NewReferenceResolver.

(** [Op] of the hinter [createIsLeFeltHinter] builds. *)
Definition IsLeFelt_Op (argA argB : ResOperander VirtualMachine)
    (vm : VirtualMachine) (_ : HintRunnerContext)
  : Outcome VirtualMachine :=
  (*> memory[ap] = 0 if (ids.a % PRIME) <= (ids.b % PRIME) else 1 *)
  let apAddr := AddressAp vm in
  a ← Resolve argA vm;
  aFelt ← FieldElement a;
  b ← Resolve argB vm;
  bFelt ← FieldElement b;
  let v :=
    if FeltLe aFelt bFelt
    then MemoryValueFromFieldElement FeltZero
    else MemoryValueFromFieldElement FeltOne in
  WriteToAddress vm apAddr v.

Definition createIsLeFeltHinter (resolver : gmap string hinter_Reference)
  : Outcome (GenericZeroHinter VirtualMachine) :=
  argA ← GetResOperander resolver "a";
  argB ← GetResOperander resolver "b";
  Ok (MkGenericZeroHinter "IsLeFelt" (IsLeFelt_Op argA argB)).

(** [Op] of the hinter [createIsNNHinter] builds. *)
Definition IsNN_Op (argA : ResOperander VirtualMachine)
    (vm : VirtualMachine) (_ : HintRunnerContext)
  : Outcome VirtualMachine :=
  let apAddr := AddressAp vm in
  (*> memory[ap] = 0 if 0 <= (ids.a % PRIME) < range_check_builtin.bound else 1 *)
  a ← Resolve argA vm;
  aFelt ← FieldElement a;
  let v :=
    if FeltLt aFelt FeltMax128
    then MemoryValueFromFieldElement FeltZero
    else MemoryValueFromFieldElement FeltOne in
  WriteToAddress vm apAddr v.

Definition createIsNNHinter (resolver : gmap string hinter_Reference)
  : Outcome (GenericZeroHinter VirtualMachine) :=
  argA ← GetResOperander resolver "a";
  Ok (MkGenericZeroHinter "IsNN" (IsNN_Op argA)).

(** [Op] of the hinter [createIsNNOutOfRangeHinter] builds: [lhs] is
    computed and then not read. *)
Definition IsNNOutOfRange_Op (argA : ResOperander VirtualMachine)
    (vm : VirtualMachine) (_ : HintRunnerContext)
  : Outcome VirtualMachine :=
  let apAddr := AddressAp vm in
  (*> memory[ap] = 0 if 0 <= ((-ids.a - 1) % PRIME) < range_check_builtin.bound else 1 *)
  a ← Resolve argA vm;
  aFelt ← FieldElement a;
  let lhs := Felt_Sub FeltZero aFelt in
  let lhs := Felt_Sub lhs FeltOne in
  let v :=
    if FeltLt aFelt FeltMax128
    then MemoryValueFromFieldElement FeltZero
    else MemoryValueFromFieldElement FeltOne in
  WriteToAddress vm apAddr v.

Definition createIsNNOutOfRangeHinter
    (resolver : gmap string hinter_Reference)
  : Outcome (GenericZeroHinter VirtualMachine) :=
  argA ← GetResOperander resolver "a";
  Ok (MkGenericZeroHinter "IsNNOutOfRange" (IsNNOutOfRange_Op argA)).
End Zero.

(* ===================================================================== *)
(** * Notions the properties are stated with *)
(* ===================================================================== *)

(** Whether a list is in non-decreasing order of the measure [f]. *)
Fixpoint ascending_by {A : Type} (f : A → Z) (l : list A) : bool :=
  match l with
  | [] => true
  | x :: rest => forallb (λ y, f x <=? f y) rest && ascending_by f rest
  end.

(** Whether the references of an identifier are listed by non-decreasing
    program counter, as a compiler that emits them in code order lists
    them. *)
Definition pcs_ascending (references : list Reference) : bool :=
  ascending_by Pc references.

(** A sequence of [Set] calls on a dictionary manager, each one made on
    the manager the previous one left; the first error or panic ends
    it. *)
Fixpoint DictionaryManager_SetAll (dm : DictionaryManager)
    (writes : list (MemoryAddress * Z * MemoryValue))
  : Outcome DictionaryManager :=
  match writes with
  | [] => Ok dm
  | (dictAddr, key, value) :: rest =>
      dm ← DictionaryManager_Set dm dictAddr key value;
      DictionaryManager_SetAll dm rest
  end.

(** The addresses, in call order, of the [Set] calls made on the
    dictionary of segment [segment], and the keys those calls set. *)
Definition addresses_at (segment : Z)
    (writes : list (MemoryAddress * Z * MemoryValue)) : list MemoryAddress :=
  filter (λ a, SegmentIndex a = segment) (writes.*1.*1).

Definition keys_at (segment : Z)
    (writes : list (MemoryAddress * Z * MemoryValue)) : list Z :=
  (filter (λ w, SegmentIndex w.1.1 = segment) writes).*1.*2.

(** The offset in the fresh segment after the dictionaries [visited] have
    been given their place, starting from [offset]: each takes
    [end.Offset + 1] cells, in [uint64] arithmetic. *)
Definition advance_offset (offset : Z) (dict : Dictionary) : Z :=
  wrap_uint64 (offset + wrap_uint64 (Offset (end_ dict) + 1)).

Definition offset_after (offset : Z) (visited : list (Z * Dictionary)) : Z :=
  foldl (λ offset entry, advance_offset offset entry.2) offset visited.

(** The relocation rules of a run that visits the dictionaries in the
    order [order], with [segmentAddr] the base of the fresh segment: the
    dictionary visited at position [i] gets the rule from the negation of
    its segment index to the offset reached after the [i] dictionaries
    visited before it. *)
Definition relocation_rules (segmentAddr : MemoryAddress)
    (order : list (Z * Dictionary)) : list (Z * MemoryAddress) :=
  imap (λ i entry,
          (wrap_int64 (- entry.1),
           MkAddress (SegmentIndex segmentAddr)
             (offset_after (Offset segmentAddr) (take i order))))
       order.

Section Relocation.
Context {VirtualMachine : Type} `{VMInterface VirtualMachine}.

(** The machine after the relocation rules [rules] have been installed,
    first to last. *)
Definition install_rules (vm : VirtualMachine)
    (rules : list (Z * MemoryAddress)) : VirtualMachine :=
  foldl (λ vm rule, AddRelocationRule vm rule.1 rule.2) vm rules.
End Relocation.

(* ===================================================================== *)
(** * Example data *)
(* ===================================================================== *)

Definition no_tracking : ApTracking := MkApTracking 0 0.

Definition ref_at (pc : Z) (value : string) : Reference :=
  MkReference no_tracking pc value.

(** An identifier [x] defined at pc 0, 5 and 10. *)
Definition program_0_5_10 : ZeroProgram :=
  MkZeroProgram
    {[ "x" := MkIdentifier
         [ref_at 0 "[cast(fp, felt*)]"; ref_at 5 "[cast(ap, felt*)]";
          ref_at 10 "[cast(ap + 1, felt*)]"] ]}
    ∅.

(** An identifier [x] whose references are listed pc 5 first, pc 0 last. *)
Definition program_5_0 : ZeroProgram :=
  MkZeroProgram
    {[ "x" := MkIdentifier
         [ref_at 5 "[cast(ap, felt*)]"; ref_at 0 "[cast(fp, felt*)]"] ]}
    ∅.

(** An operand that resolves to the field element [a] on every machine
    (an immediate), and the resolver that binds the given names to such
    operands; on the recording machine a descriptor is its operand. *)
Definition felt_operand (a : Felt) : ResOperander RecordingVM :=
  MkResOperander (λ _, Ok (FeltValue a)).

Definition resolver_of (operands : list (string * Felt))
  : gmap string (ResOperander RecordingVM) :=
  list_to_map (prod_map id felt_operand <$> operands).

(** A machine at rest: [ap] at offset 10 of the execution segment, two
    real segments, nothing written and no relocation rule yet. *)
Definition machine0 : RecordingVM :=
  MkRecordingVM (MkAddress 1 10) 2 0 [] [].

Definition context0 : HintRunnerContext :=
  MkHintRunnerContext
    (MkDictionaryManager None false)
    (MkSquashedDictionaryManager None None)
    0.

(** A manager set up for temporary segments, and the one it becomes after
    two dictionaries are created on [machine0] and written: the first,
    in segment -1, last at offset 2; the second, in segment -2, at
    offset 0. *)
Definition manager0 : DictionaryManager :=
  ctx_DictionaryManager (InitializeDictionaryManager context0 true).

Definition created_dictionaries : DictionaryManager :=
  MkDictionaryManager
    (Some (list_to_map
             [(-1, MkDictionary (Some ∅) 0 (MkAddress 0 0));
              (-2, MkDictionary (Some ∅) 1 (MkAddress 0 0))])) true.

Definition dict_first : Dictionary :=
  MkDictionary (Some {[ 7 := FeltValue 70 ]}) 0 (MkAddress (-1) 2).

Definition dict_second : Dictionary :=
  MkDictionary (Some {[ 9 := FeltValue 90 ]}) 1 (MkAddress (-2) 0).

Definition two_dictionaries : DictionaryManager :=
  MkDictionaryManager
    (Some (list_to_map [(-1, dict_first); (-2, dict_second)])) true.

(** The machine once the two dictionaries have their segments. *)
Definition machine2 : RecordingVM :=
  MkRecordingVM (MkAddress 1 10) 2 2 [] [].

(** The two orders in which a run can visit [two_dictionaries]. *)
Definition first_then_second : list (Z * Dictionary) :=
  [(-1, dict_first); (-2, dict_second)].

Definition second_then_first : list (Z * Dictionary) :=
  [(-2, dict_second); (-1, dict_first)].

(** A squashed dictionary manager that has been initialized and whose key
    list ends with the key 7, for which nothing is recorded yet. *)
Definition squashed_7 : SquashedDictionaryManager :=
  MkSquashedDictionaryManager (Some ∅) (Some [9; 7]).

(* ===================================================================== *)
(** * package zero: the assertion and copy hinters *)
(* ===================================================================== *)

Section ZeroAssertions.
Context {VirtualMachine : Type} `{VMInterface VirtualMachine}.
Context {hinter_Reference : Type}.
Variable AsResOperander :
  hinter_Reference → option (ResOperander VirtualMachine).

(** [fmt.Errorf(format, args...)] for the messages of these hinters: the
    error built from a format string and the field elements it prints. *)
Variable Errorf : string → list Z → Error.

(** [Op] of the hinter [createAssertLtFeltHinter] builds: it reads the two
    operands and returns, without touching the machine. *)
Definition AssertLtFelt_Op (argA argB : ResOperander VirtualMachine)
    (vm : VirtualMachine) (_ : HintRunnerContext)
  : Outcome VirtualMachine :=
  (*> assert (ids.a % PRIME) < (ids.b % PRIME) *)
  a ← Resolve argA vm;
  aFelt ← FieldElement a;
  b ← Resolve argB vm;
  bFelt ← FieldElement b;
  if negb (FeltLt aFelt bFelt)
  then Err (Errorf "a = %v is not less than b = %v" [aFelt; bFelt])
  else Ok vm.

Definition createAssertLtFeltHinter (resolver : gmap string hinter_Reference)
  : Outcome (GenericZeroHinter VirtualMachine) :=
  argA ← GetResOperander AsResOperander resolver "a";
  argB ← GetResOperander AsResOperander resolver "b";
  Ok (MkGenericZeroHinter "AssertLtFelt" (AssertLtFelt_Op argA argB)).

(** [Op] of the hinter [createTestAssignHinter] builds. *)
Definition TestAssign_Op (a : ResOperander VirtualMachine)
    (vm : VirtualMachine) (_ : HintRunnerContext)
  : Outcome VirtualMachine :=
  let apAddr := AddressAp vm in
  v ← Resolve a vm;
  WriteToAddress vm apAddr v.

(** [createTestAssignHinter]: the reference is fetched as it is and then
    asserted to be a [ResOperander]. *)
Definition createTestAssignHinter (resolver : gmap string hinter_Reference)
  : Outcome (GenericZeroHinter VirtualMachine) :=
  arg ← GetReference resolver "a";
  match AsResOperander arg with
  | Some a => Ok (MkGenericZeroHinter "TestAssign" (TestAssign_Op a))
  | None => Err (Errorf "expected a ResOperander reference" [])
  end.
End ZeroAssertions.

(* ===================================================================== *)
(** * package zero: the dispatch on the hint code and the hint table *)
(* ===================================================================== *)

(** [hinter.Hinter], by the kinds of hinter this file builds: the four of
    package [core] (outside the excerpt), as the struct literals the file
    writes, and the generic one. [CellRefer] is the type of the cell
    references [hinter.ApCellRef] returns. *)
Inductive Hinter (VirtualMachine CellRefer : Type) : Type :=
| AllocSegment (Dst : CellRefer)
| AssertLeFindSmallArc (A B RangeCheckPtr : ResOperander VirtualMachine)
| AssertLeIsFirstArcExcluded (SkipExcludeAFlag : CellRefer)
| AssertLeIsSecondArcExcluded (SkipExcludeBMinusA : CellRefer)
| Generic (hint : GenericZeroHinter VirtualMachine).

Arguments AllocSegment {VirtualMachine CellRefer} Dst.
Arguments AssertLeFindSmallArc {VirtualMachine CellRefer} A B RangeCheckPtr.
Arguments AssertLeIsFirstArcExcluded {VirtualMachine CellRefer} _.
Arguments AssertLeIsSecondArcExcluded {VirtualMachine CellRefer} _.
Arguments Generic {VirtualMachine CellRefer} hint.

Section Dispatch.
Context {VirtualMachine : Type} `{VMInterface VirtualMachine}.
Context {hinter_Reference CellRefer : Type}.
Variable ParseIdentifier : string → Outcome hinter_Reference.
Variable ApplyApTracking :
  hinter_Reference → ApTracking → ApTracking → hinter_Reference.
Variable AsResOperander :
  hinter_Reference → option (ResOperander VirtualMachine).
Variable Errorf : string → list Z → Error.

(** [hinter.ApCellRef], outside the excerpt. *)
Variable ApCellRef : Z → CellRefer.

(** The hint codes, string constants declared in a file of the package
    outside the excerpt. *)
Variables allocSegmentCode isLeFeltCode assertLtFeltCode testAssignCode
  assertLeFeltCode assertLeFeltExcluded0Code assertLeFeltExcluded1Code
  assertLeFeltExcluded2Code isNNCode isNNOutOfRangeCode : string.

Definition CreateAllocSegmentHinter (resolver : gmap string hinter_Reference)
  : Outcome (Hinter VirtualMachine CellRefer) :=
  Ok (AllocSegment (ApCellRef 0)).

Definition createAssertLeFeltHinter (resolver : gmap string hinter_Reference)
  : Outcome (Hinter VirtualMachine CellRefer) :=
  a ← GetResOperander AsResOperander resolver "a";
  b ← GetResOperander AsResOperander resolver "b";
  rangeCheckPtr ← GetResOperander AsResOperander resolver "range_check_ptr";
  Ok (AssertLeFindSmallArc a b rangeCheckPtr).

Definition createAssertLeFeltExcluded0Hinter
    (resolver : gmap string hinter_Reference)
  : Outcome (Hinter VirtualMachine CellRefer) :=
  Ok (AssertLeIsFirstArcExcluded (ApCellRef 0)).

Definition createAssertLeFeltExcluded1Hinter
    (resolver : gmap string hinter_Reference)
  : Outcome (Hinter VirtualMachine CellRefer) :=
  Ok (AssertLeIsSecondArcExcluded (ApCellRef 0)).

(** [Op] of the hinter [createAssertLeFeltExcluded2Hinter] builds. *)
Definition AssertLeFeltExcluded2_Op (vm : VirtualMachine)
    (ctx : HintRunnerContext) : Outcome VirtualMachine :=
  if negb (ExcludedArc ctx =? 2)
  then Err (Errorf "assertion `excluded == 2` failed" [])
  else Ok vm.

Definition createAssertLeFeltExcluded2Hinter
    (resolver : gmap string hinter_Reference)
  : Outcome (GenericZeroHinter VirtualMachine) :=
  Ok (MkGenericZeroHinter "AssertLeFeltExcluded2" AssertLeFeltExcluded2_Op).

(** A generic hinter as a [hinter.Hinter]. *)
Definition as_Hinter (built : Outcome (GenericZeroHinter VirtualMachine))
  : Outcome (Hinter VirtualMachine CellRefer) :=
  hint ← built; Ok (Generic hint).

(** The [switch rawHint.Code] of [GetHintFromCode]: the cases are tried
    from the first to the last. *)
Definition hint_of_code (code : string)
    (resolver : gmap string hinter_Reference)
  : Outcome (Hinter VirtualMachine CellRefer) :=
  if String.eqb code allocSegmentCode then
    CreateAllocSegmentHinter resolver
  else if String.eqb code isLeFeltCode then
    as_Hinter (createIsLeFeltHinter AsResOperander resolver)
  else if String.eqb code assertLtFeltCode then
    as_Hinter (createAssertLtFeltHinter AsResOperander Errorf resolver)
  else if String.eqb code testAssignCode then
    as_Hinter (createTestAssignHinter AsResOperander Errorf resolver)
  else if String.eqb code assertLeFeltCode then
    createAssertLeFeltHinter resolver
  else if String.eqb code assertLeFeltExcluded0Code then
    createAssertLeFeltExcluded0Hinter resolver
  else if String.eqb code assertLeFeltExcluded1Code then
    createAssertLeFeltExcluded1Hinter resolver
  else if String.eqb code assertLeFeltExcluded2Code then
    as_Hinter (createAssertLeFeltExcluded2Hinter resolver)
  else if String.eqb code isNNCode then
    as_Hinter (createIsNNHinter AsResOperander resolver)
  else if String.eqb code isNNOutOfRangeCode then
    as_Hinter (createIsNNOutOfRangeHinter AsResOperander resolver)
  else Err (Errorf "Not identified hint" []).

(** [GetHintFromCode], for one order of visiting the names the hint
    refers to. *)
Definition GetHintFromCode_in (names : list string)
    (program : ZeroProgram) (rawHint : Hint) (hintPC : Z)
  : Outcome (Hinter VirtualMachine CellRefer) :=
  resolver ← getParameters_loop ParseIdentifier ApplyApTracking
               program rawHint hintPC names NewReferenceResolver;
  hint_of_code (Code rawHint) resolver.

(** [func GetHintFromCode(program, rawHint, hintPC)] *)
Definition GetHintFromCode (program : ZeroProgram) (rawHint : Hint)
    (hintPC : Z) (result : Outcome (Hinter VirtualMachine CellRefer))
  : Prop :=
  ∃ names,
    names ≡ₚ (map_to_list (ReferenceIds (FlowTrackingData_ rawHint))).*1
    ∧ result = GetHintFromCode_in names program rawHint hintPC.

(** [strconv.ParseUint(counter, 10, 64)], of the Go library. *)
Variable ParseUint : string → Outcome Z.

(** The inner loop of [GetZeroHints] over the raw hints of one counter,
    from the table [hints] on: each hinter built is appended to the list
    of [pc], and the first failure is returned. *)
Inductive hints_of_counter (cairoZeroJson : ZeroProgram) (pc : Z)
  : list Hint → gmap Z (list (Hinter VirtualMachine CellRefer)) →
    Outcome (gmap Z (list (Hinter VirtualMachine CellRefer))) → Prop :=
| hints_of_counter_done hints :
    hints_of_counter cairoZeroJson pc [] hints (Ok hints)
| hints_of_counter_next rawHint rest hints hint result :
    GetHintFromCode cairoZeroJson rawHint pc (Ok hint) →
    hints_of_counter cairoZeroJson pc rest
      (<[pc := default [] (hints !! pc) ++ [hint]]> hints) result →
    hints_of_counter cairoZeroJson pc (rawHint :: rest) hints result
| hints_of_counter_error rawHint rest hints e :
    GetHintFromCode cairoZeroJson rawHint pc (Err e) →
    hints_of_counter cairoZeroJson pc (rawHint :: rest) hints (Err e)
| hints_of_counter_panic rawHint rest hints :
    GetHintFromCode cairoZeroJson rawHint pc Panic →
    hints_of_counter cairoZeroJson pc (rawHint :: rest) hints Panic.

(** The outer loop of [GetZeroHints] over the entries of
    [cairoZeroJson.Hints] in the order [entries]. *)
Inductive hints_of_entries (cairoZeroJson : ZeroProgram)
  : list (string * list Hint) →
    gmap Z (list (Hinter VirtualMachine CellRefer)) →
    Outcome (gmap Z (list (Hinter VirtualMachine CellRefer))) → Prop :=
| hints_of_entries_done hints :
    hints_of_entries cairoZeroJson [] hints (Ok hints)
| hints_of_entries_next counter rawHints rest hints pc hints' result :
    ParseUint counter = Ok pc →
    hints_of_counter cairoZeroJson pc rawHints hints (Ok hints') →
    hints_of_entries cairoZeroJson rest hints' result →
    hints_of_entries cairoZeroJson ((counter, rawHints) :: rest) hints result
| hints_of_entries_parse_error counter rawHints rest hints e :
    ParseUint counter = Err e →
    hints_of_entries cairoZeroJson ((counter, rawHints) :: rest) hints (Err e)
| hints_of_entries_parse_panic counter rawHints rest hints :
    ParseUint counter = Panic →
    hints_of_entries cairoZeroJson ((counter, rawHints) :: rest) hints Panic
| hints_of_entries_error counter rawHints rest hints pc e :
    ParseUint counter = Ok pc →
    hints_of_counter cairoZeroJson pc rawHints hints (Err e) →
    hints_of_entries cairoZeroJson ((counter, rawHints) :: rest) hints (Err e)
| hints_of_entries_panic counter rawHints rest hints pc :
    ParseUint counter = Ok pc →
    hints_of_counter cairoZeroJson pc rawHints hints Panic →
    hints_of_entries cairoZeroJson ((counter, rawHints) :: rest) hints Panic.

(** [func GetZeroHints(cairoZeroJson)]: a run visits the entries of the
    map [cairoZeroJson.Hints] in some order, from the empty table on. *)
Definition GetZeroHints (cairoZeroJson : ZeroProgram)
    (result : Outcome (gmap Z (list (Hinter VirtualMachine CellRefer))))
  : Prop :=
  ∃ entries,
    entries ≡ₚ map_to_list (Hints cairoZeroJson)
    ∧ hints_of_entries cairoZeroJson entries ∅ result.
End Dispatch.

(* ===================================================================== *)
(** * Further notions the properties are stated with *)
(* ===================================================================== *)

Section Binding.
Context {hinter_Reference : Type}.
Variable ParseIdentifier : string → Outcome hinter_Reference.
Variable ApplyApTracking :
  hinter_Reference → ApTracking → ApTracking → hinter_Reference.

(** What one iteration of [getParameters] computes for a name before it
    adds it to the resolver: the applicable reference, parsed and
    adjusted to the ap tracking of the hint. *)
Definition bind_reference (zeroProgram : ZeroProgram) (hint : Hint)
    (hintPC : Z) (referenceName : string) : Outcome hinter_Reference :=
  reference ← applicable_reference zeroProgram referenceName hintPC;
  param ← ParseIdentifier (Value reference);
  Ok (ApplyApTracking param (ApTracking_ (FlowTrackingData_ hint))
        (ApTrackingData reference)).
End Binding.

(** Every tracked dictionary has a data map: what [NewDictionary] builds
    and [Set] keeps. *)
Definition dictionaries_made (dm : DictionaryManager) : Prop :=
  ∃ dicts, dictionaries dm = Some dicts
           ∧ ∀ segment dict, dicts !! segment = Some dict →
                             is_Some (data dict).

(** The creation numbers of the tracked dictionaries are below the number
    of dictionaries and pairwise distinct. *)
Definition creation_numbers_unique (dm : DictionaryManager) : Prop :=
  (∀ segment dict,
     go_lookup (dictionaries dm) segment = Some dict →
     0 <= Dictionary_InitNumber dict < go_len (dictionaries dm))
  ∧ (∀ segment1 segment2 dict1 dict2,
       go_lookup (dictionaries dm) segment1 = Some dict1 →
       go_lookup (dictionaries dm) segment2 = Some dict2 →
       Dictionary_InitNumber dict1 = Dictionary_InitNumber dict2 →
       segment1 = segment2).

(** The cells the dictionaries [visited] take in the fresh segment,
    [end.Offset + 1] each, as a plain sum. *)
Definition span_total (visited : list (Z * Dictionary)) : Z :=
  foldr (λ entry total, Offset (end_ entry.2) + 1 + total) 0 visited.

(** [n] calls of [PopKey], each on the manager the previous one left, with
    the keys they return in call order. *)
Fixpoint PopKey_times (n : nat) (sdm : SquashedDictionaryManager)
  : Outcome (list Z * SquashedDictionaryManager) :=
  match n with
  | O => Ok ([], sdm)
  | S n' =>
      '(key, sdm) ← PopKey sdm;
      '(keys, sdm) ← PopKey_times n' sdm;
      Ok (key :: keys, sdm)
  end.

(** [n] calls of [PopIndex], with the indices they return in call order. *)
Fixpoint PopIndex_times (n : nat) (sdm : SquashedDictionaryManager)
  : Outcome (list Z * SquashedDictionaryManager) :=
  match n with
  | O => Ok ([], sdm)
  | S n' =>
      '(index, sdm) ← PopIndex sdm;
      '(indices, sdm) ← PopIndex_times n' sdm;
      Ok (index :: indices, sdm)
  end.

(** A squashed dictionary manager whose tail key 7 has three indices. *)
Definition squashed_7_indexed : SquashedDictionaryManager :=
  MkSquashedDictionaryManager (Some {[ 7 := [3; 9; 11] ]}) (Some [9; 7]).

(** Example data for the hinters and the binding of references: on the
    recording machine a descriptor is its operand, a value expression
    parses to the operand that resolves to its length, and the ap
    tracking leaves it as it is. *)
Definition errorf_message (format : string) (_ : list Z) : Error :=
  ExternalError format.

Definition parse_length (value : string)
  : Outcome (ResOperander RecordingVM) :=
  Ok (felt_operand (Z.of_nat (String.length value))).

Definition keep_tracking (param : ResOperander RecordingVM)
    (_ _ : ApTracking) : ResOperander RecordingVM := param.

(** An operand that resolves to the address of the allocation pointer
    itself, bound to the name [a]. *)
Definition resolver_of_ap : gmap string (ResOperander RecordingVM) :=
  {[ "a" := MkResOperander (λ vm, Ok (AddressValue (rvm_ap vm))) ]}.

Definition hint_x : Hint :=
  MkHint "memory[ap] = 0 if 0 <= (ids.x % PRIME) < range_check_builtin.bound else 1"
    (MkFlowTrackingData no_tracking {[ "x" := 0 ]}).

Definition hint_x_y : Hint :=
  MkHint "memory[ap] = 0 if (ids.x % PRIME) <= (ids.y % PRIME) else 1"
    (MkFlowTrackingData no_tracking {[ "x" := 0; "y" := 1 ]}).

(** Example data for the dispatch and the hint table: a reader of
    decimal numerals in the place of [strconv.ParseUint], which like it
    goes through the characters from the first on and stops at the first
    one that is not a digit (a syntax error) or that takes the value past
    2^64 - 1 (a range error); cell references as their offsets, ten
    distinct hint codes, and a program with one hint, at counter 7, that
    tests its operand [a]. *)
Fixpoint digits_value (digits : string) (value : Z) : Outcome Z :=
  match digits with
  | EmptyString => Ok value
  | String c rest =>
      let digit := Z.of_N (Ascii.N_of_ascii c) - 48 in
      if negb ((0 <=? digit) && (digit <=? 9))
      then Err (ExternalError "invalid syntax")
      else if (2 ^ 64 - 1) / 10 + 1 <=? value
      then Err (ExternalError "value out of range")
      else
        let value' := 10 * value + digit in
        if 2 ^ 64 - 1 <? value'
        then Err (ExternalError "value out of range")
        else digits_value rest value'
  end.

Definition parse_decimal (counter : string) : Outcome Z :=
  match counter with
  | EmptyString => Err (ExternalError "invalid syntax")
  | _ => digits_value counter 0
  end.

Definition code_isNN : string :=
  "memory[ap] = 0 if 0 <= (ids.a % PRIME) < range_check_builtin.bound else 1".

Definition example_hint_of_code
  : string → gmap string (ResOperander RecordingVM) →
    Outcome (Hinter RecordingVM Z) :=
  hint_of_code Some errorf_message id
    "alloc" "is_le_felt" "assert_lt_felt" "test_assign" "assert_le_felt"
    "excluded_0" "excluded_1" "excluded_2" code_isNN "is_nn_out_of_range".

Definition example_GetHintFromCode
  : ZeroProgram → Hint → Z → Outcome (Hinter RecordingVM Z) → Prop :=
  GetHintFromCode parse_length keep_tracking Some errorf_message id
    "alloc" "is_le_felt" "assert_lt_felt" "test_assign" "assert_le_felt"
    "excluded_0" "excluded_1" "excluded_2" code_isNN "is_nn_out_of_range".

Definition example_GetZeroHints
  : ZeroProgram → Outcome (gmap Z (list (Hinter RecordingVM Z))) → Prop :=
  GetZeroHints parse_length keep_tracking Some errorf_message id
    "alloc" "is_le_felt" "assert_lt_felt" "test_assign" "assert_le_felt"
    "excluded_0" "excluded_1" "excluded_2" code_isNN "is_nn_out_of_range"
    parse_decimal.

Definition hint_a : Hint :=
  MkHint code_isNN (MkFlowTrackingData no_tracking {[ "a" := 0 ]}).

Definition hint_unknown : Hint :=
  MkHint "print(ids.a)" (MkFlowTrackingData no_tracking {[ "a" := 0 ]}).

Definition program_a : ZeroProgram :=
  MkZeroProgram
    {[ "a" := MkIdentifier [ref_at 0 "[cast(fp, felt*)]"] ]}
    {[ "7" := [hint_a] ]}.

Definition hinter_a : Hinter RecordingVM Z :=
  Generic (MkGenericZeroHinter "IsNN" (IsNN_Op (felt_operand 17))).

(** The same program with a second hint at counter 7, whose code is none
    of the ten. *)
Definition program_unknown : ZeroProgram :=
  MkZeroProgram
    {[ "a" := MkIdentifier [ref_at 0 "[cast(fp, felt*)]"] ]}
    {[ "7" := [hint_a; hint_unknown] ]}.

(** An identifier [x] whose references start at pc 5. *)
Definition program_5_10 : ZeroProgram :=
  MkZeroProgram
    {[ "x" := MkIdentifier
         [ref_at 5 "[cast(ap, felt*)]"; ref_at 10 "[cast(ap + 1, felt*)]"] ]}
    ∅.

(* ===================================================================== *)
(** * Reference resolution ([getParameters]) *)
(* ===================================================================== *)

Lemma ascending_by_split {A : Type} (f : A → Z) (before after : list A) x :
  ascending_by f (before ++ x :: after) = true →
  Forall (λ y, f y <= f x) before.
Proof.
  induction before as [|y l IH]; simpl; [constructor|].
  rewrite andb_true_iff, forallb_forall. intros [Hy Hl].
  constructor; [|by apply IH].
  specialize (Hy x). rewrite <- list_elem_of_In in Hy.
  apply Z.leb_le, Hy. set_solver.
Qed.

Section ReferenceChoice.
Implicit Types (references before after : list Reference) (hintPC : Z).

(** References past the scanned prefix do not matter. *)
Lemma references_scan_app references after hintPC n :
  (n ≤ length references)%nat →
  references_scan (references ++ after) hintPC n
  = references_scan references hintPC n.
Proof.
  induction n as [|i IH]; intros Hn; simpl; [done|].
  rewrite lookup_app_l by lia.
  destruct (references !! i) as [r|]; [|done].
  destruct (Pc r <=? hintPC); [done|]. apply IH. lia.
Qed.

(** One step of the loop, seen from the end of the list. *)
Lemma references_scan_snoc references reference hintPC :
  references_scan (references ++ [reference]) hintPC
    (length (references ++ [reference]))
  = if Pc reference <=? hintPC then Some reference
    else references_scan references hintPC (length references).
Proof.
  rewrite length_app, Nat.add_1_r. simpl.
  rewrite lookup_app_r by lia.
  rewrite Nat.sub_diag. simpl.
  destruct (Pc reference <=? hintPC); [done|].
  by apply references_scan_app.
Qed.

Lemma references_scan_found references hintPC reference :
  references_scan references hintPC (length references) = Some reference →
  ∃ before after,
    references = before ++ reference :: after
    ∧ Pc reference <= hintPC
    ∧ Forall (λ r, hintPC < Pc r) after.
Proof.
  induction references as [|x l IH] using rev_ind; [done|].
  rewrite references_scan_snoc.
  destruct (Pc x <=? hintPC) eqn:Hx.
  - intros [= <-]. exists l, []. split_and!; [done|lia|constructor].
  - intros Hscan. destruct (IH Hscan) as (before & after & -> & Hle & Hafter).
    exists before, (after ++ [x]). split_and!.
    + by rewrite <- app_assoc.
    + done.
    + apply Forall_app. split; [done|]. constructor; [lia|constructor].
Qed.

Lemma references_scan_none references hintPC :
  references_scan references hintPC (length references) = None →
  Forall (λ r, hintPC < Pc r) references.
Proof.
  induction references as [|x l IH] using rev_ind; [constructor|].
  rewrite references_scan_snoc.
  destruct (Pc x <=? hintPC) eqn:Hx; [done|].
  intros Hscan. apply Forall_app. split; [by apply IH|].
  constructor; [lia|constructor].
Qed.

End ReferenceChoice.

(** What [applicable_reference] returns for an identifier that has
    references: an error when every reference lies past the hint, and
    otherwise the last-listed reference that does not. *)
Lemma applicable_reference_cases
    (zeroProgram : ZeroProgram) (referenceName : string) (hintPC : Z)
    (rawIdentifier : Identifier) :
  Identifiers zeroProgram !! referenceName = Some rawIdentifier →
  References rawIdentifier ≠ [] →
  (Forall (λ r, hintPC < Pc r) (References rawIdentifier)
   ∧ applicable_reference zeroProgram referenceName hintPC
     = Err (NoApplicableReference referenceName hintPC))
  ∨ (∃ before reference after,
       References rawIdentifier = before ++ reference :: after
       ∧ Pc reference <= hintPC
       ∧ Forall (λ r, hintPC < Pc r) after
       ∧ applicable_reference zeroProgram referenceName hintPC
         = Ok reference).
Proof.
  intros Hid Hne. unfold applicable_reference. rewrite Hid.
  destruct (References rawIdentifier) as [|r0 l] eqn:Hrefs; [done|].
  rewrite <- Hrefs in *. clear Hne.
  replace (length (References rawIdentifier) =? 0)%nat with false
    by (rewrite Hrefs; done).
  destruct (references_scan _ _ _) as [reference|] eqn:Hscan.
  - right. destruct (references_scan_found _ _ _ Hscan)
      as (before & after & Heq & Hle & Hafter).
    by exists before, reference, after.
  - left. split; [|done]. by apply references_scan_none.
Qed.

(** X22. For an identifier that has references: when no reference has a
    program counter at most the hint's, the resolution fails with
    [NoApplicableReference]; otherwise the reference chosen is the
    last-listed one whose program counter is at most the hint's (every
    reference listed after it lies past the hint). When the references
    are listed by non-decreasing program counter, the chosen one has the
    greatest program counter among those at most the hint's. *)
Theorem applicable_reference_last_listed
    (zeroProgram : ZeroProgram) (referenceName : string) (hintPC : Z)
    (rawIdentifier : Identifier) :
  Identifiers zeroProgram !! referenceName = Some rawIdentifier →
  References rawIdentifier ≠ [] →
  (Forall (λ r, hintPC < Pc r) (References rawIdentifier) →
   applicable_reference zeroProgram referenceName hintPC
   = Err (NoApplicableReference referenceName hintPC))
  ∧ (Exists (λ r, Pc r <= hintPC) (References rawIdentifier) →
     ∃ before reference after,
       References rawIdentifier = before ++ reference :: after
       ∧ Pc reference <= hintPC
       ∧ Forall (λ r, hintPC < Pc r) after
       ∧ applicable_reference zeroProgram referenceName hintPC = Ok reference
       ∧ (pcs_ascending (References rawIdentifier) = true →
          ∀ r, r ∈ References rawIdentifier → Pc r <= hintPC →
               Pc r <= Pc reference)).
Proof.
  intros Hid Hne.
  destruct (applicable_reference_cases _ _ hintPC _ Hid Hne)
    as [[Hall Herr]|(before & reference & after & Heq & Hle & Hafter & Hok)].
  - split; [done|]. intros (r & Hr & Hpc)%Exists_exists.
    apply (proj1 (Forall_forall _ _) Hall) in Hr. lia.
  - split.
    + intros Hall. rewrite Heq in Hall.
      apply Forall_app in Hall as [_ Hall].
      apply Forall_cons in Hall as [Hpc _]. lia.
    + intros _. exists before, reference, after. split_and!; try done.
      intros Hasc r Hr Hpc. rewrite Heq in Hr, Hasc.
      apply elem_of_app in Hr as [Hr|Hr].
      * apply ascending_by_split in Hasc.
        by apply (proj1 (Forall_forall _ _) Hasc).
      * apply elem_of_cons in Hr as [->|Hr]; [lia|].
        apply (proj1 (Forall_forall _ _) Hafter) in Hr. lia.
Qed.

Lemma applicable_reference_last_listed_witness :
  Identifiers program_0_5_10 !! "x"
  = Some (MkIdentifier
            [ref_at 0 "[cast(fp, felt*)]"; ref_at 5 "[cast(ap, felt*)]";
             ref_at 10 "[cast(ap + 1, felt*)]"])
  ∧ applicable_reference program_0_5_10 "x" 7
    = Ok (ref_at 5 "[cast(ap, felt*)]")
  ∧ (∀ r, r ∈ References
              (MkIdentifier
                 [ref_at 0 "[cast(fp, felt*)]"; ref_at 5 "[cast(ap, felt*)]";
                  ref_at 10 "[cast(ap + 1, felt*)]"]) →
          Pc r <= 7 → Pc r <= 5)
  ∧ applicable_reference program_5_10 "x" 4
    = Err (NoApplicableReference "x" 4).
Proof.
  split; [reflexivity|].
  destruct (proj2 (applicable_reference_last_listed program_0_5_10 "x" 7 _
                     eq_refl ltac:(discriminate)))
    as (before & reference & after & _ & _ & _ & Hok & Hgreatest).
  { apply Exists_cons_hd. simpl. lia. }
  assert (Hreference : reference = ref_at 5 "[cast(ap, felt*)]")
    by (vm_compute in Hok; by injection Hok as <-).
  subst reference. split_and!.
  - exact Hok.
  - exact (Hgreatest eq_refl).
  - apply (proj1 (applicable_reference_last_listed program_5_10 "x" 4 _
                    eq_refl ltac:(discriminate))).
    repeat constructor.
Defined.

(** C2. The loop of [getParameters] is commented "to get the one with
    biggest pc smaller or equal to the hint pc", and it misses that one
    when the references are not listed by program counter: with
    references listed at pc 5 and then at pc 0 and a hint at pc 7, the
    reference at pc 0 is chosen although the one at pc 5 is the greatest
    that qualifies, and every run of [getParameters] binds the name to
    the reference at pc 0. *)
Lemma greatest_pc_not_chosen :
  applicable_reference program_5_0 "x" 7 = Ok (ref_at 0 "[cast(fp, felt*)]")
  ∧ Identifiers program_5_0 !! "x"
    = Some (MkIdentifier
              [ref_at 5 "[cast(ap, felt*)]"; ref_at 0 "[cast(fp, felt*)]"])
  ∧ Pc (ref_at 5 "[cast(ap, felt*)]") <= 7
  ∧ Pc (ref_at 0 "[cast(fp, felt*)]") < Pc (ref_at 5 "[cast(ap, felt*)]")
  ∧ ∀ result,
      getParameters (λ value, Ok value) (λ param _ _, param)
        program_5_0 hint_x 7 result
      ↔ result = Ok ({[ "x" := "[cast(fp, felt*)]" ]} : gmap string string).
Proof.
  split_and!; [reflexivity|reflexivity|by vm_compute|reflexivity|].
  intros result. unfold getParameters. simpl.
  rewrite map_to_list_singleton. simpl. split.
  - intros (names & Hnames & ->).
    symmetry in Hnames. apply Permutation_singleton_l in Hnames.
    by subst names.
  - intros ->. by exists ["x"].
Qed.


(* ===================================================================== *)
(** * The comparison hints *)
(* ===================================================================== *)

Section Hints.
Context {VirtualMachine : Type} `{VMInterface VirtualMachine}.
Context {hinter_Reference : Type}.
Variable AsResOperander :
  hinter_Reference → option (ResOperander VirtualMachine).
Implicit Types (resolver : gmap string hinter_Reference)
  (vm : VirtualMachine) (ctx : HintRunnerContext).

Lemma IsLeFelt_Op_resolved (argA argB : ResOperander VirtualMachine)
    vm ctx (a b : Felt) :
  Resolve argA vm = Ok (FeltValue a) →
  Resolve argB vm = Ok (FeltValue b) →
  IsLeFelt_Op argA argB vm ctx
  = WriteToAddress vm (AddressAp vm) (FeltValue (if a <=? b then 0 else 1)).
Proof.
  intros Ha Hb. unfold IsLeFelt_Op. rewrite Ha. simpl. rewrite Hb. simpl.
  unfold FeltLe, MemoryValueFromFieldElement, FeltZero, FeltOne.
  by destruct (a <=? b).
Qed.

Lemma IsNN_Op_resolved (argA : ResOperander VirtualMachine) vm ctx (a : Felt) :
  Resolve argA vm = Ok (FeltValue a) →
  IsNN_Op argA vm ctx
  = WriteToAddress vm (AddressAp vm)
      (FeltValue (if a <? 2 ^ 128 then 0 else 1)).
Proof.
  intros Ha. unfold IsNN_Op. rewrite Ha. simpl.
  unfold FeltLt, FeltMax128, MemoryValueFromFieldElement, FeltZero, FeltOne.
  by destruct (a <? 2 ^ 128).
Qed.

(** The two hint bodies are the same function: [lhs] is dead. *)
Lemma IsNNOutOfRange_Op_eq (argA : ResOperander VirtualMachine) vm ctx :
  IsNNOutOfRange_Op argA vm ctx = IsNN_Op argA vm ctx.
Proof. reflexivity. Qed.

(** C4. When its operands [a] and [b] are bound and resolve to field
    elements, the hinter built for [IsLeFelt] does one thing to the
    machine: it writes, at the address of the allocation pointer, 0 if
    [a <= b] on the canonical representatives and 1 otherwise; what the
    hint returns is what that write returns. *)
Theorem IsLeFelt_writes_comparison resolver
    (argA argB : ResOperander VirtualMachine) vm ctx (a b : Felt) :
  GetResOperander AsResOperander resolver "a" = Ok argA →
  GetResOperander AsResOperander resolver "b" = Ok argB →
  Resolve argA vm = Ok (FeltValue a) →
  Resolve argB vm = Ok (FeltValue b) →
  ∃ hint,
    createIsLeFeltHinter AsResOperander resolver = Ok hint
    ∧ Name hint = "IsLeFelt"
    ∧ Execute hint vm ctx
      = WriteToAddress vm (AddressAp vm)
          (FeltValue (if a <=? b then 0 else 1)).
Proof.
  intros HA HB Ha Hb. unfold createIsLeFeltHinter. rewrite HA. simpl.
  rewrite HB. simpl. eexists. split_and!; [done..|].
  unfold Execute. simpl. by apply IsLeFelt_Op_resolved.
Qed.

(** C3. When the operand [a] is bound, the hinters built for [IsNN] and
    for [IsNNOutOfRange] do the same thing on every machine; when [a]
    resolves to a field element, [IsNNOutOfRange] writes, at the address
    of the allocation pointer, 0 if the canonical representative of [a]
    is below 2^128 and 1 otherwise. The value written is a function of
    that test on [a] alone: [(-a - 1) mod PRIME] does not enter it. *)
Theorem IsNNOutOfRange_writes_as_IsNN resolver
    (argA : ResOperander VirtualMachine) :
  GetResOperander AsResOperander resolver "a" = Ok argA →
  ∃ hintNN hintOut,
    createIsNNHinter AsResOperander resolver = Ok hintNN
    ∧ createIsNNOutOfRangeHinter AsResOperander resolver = Ok hintOut
    ∧ (∀ vm ctx, Execute hintOut vm ctx = Execute hintNN vm ctx)
    ∧ (∀ vm ctx (a : Felt),
         Resolve argA vm = Ok (FeltValue a) →
         Execute hintOut vm ctx
         = WriteToAddress vm (AddressAp vm)
             (FeltValue (if a <? 2 ^ 128 then 0 else 1))).
Proof.
  intros HA. unfold createIsNNHinter, createIsNNOutOfRangeHinter.
  rewrite HA. simpl. do 2 eexists. split_and!; [done..| |].
  - intros vm ctx. unfold Execute. simpl. apply IsNNOutOfRange_Op_eq.
  - intros vm ctx a Ha. unfold Execute. simpl.
    rewrite IsNNOutOfRange_Op_eq. by apply IsNN_Op_resolved.
Qed.
End Hints.

Lemma IsLeFelt_writes_comparison_witness :
  (∃ hint,
     createIsLeFeltHinter Some (resolver_of [("a", 3); ("b", 5)]) = Ok hint
     ∧ Execute hint machine0 context0
       = Ok (MkRecordingVM (MkAddress 1 10) 2 0
               [(MkAddress 1 10, FeltValue 0)] []))
  ∧ (∃ hint,
       createIsLeFeltHinter Some (resolver_of [("a", 5); ("b", 3)]) = Ok hint
       ∧ Execute hint machine0 context0
         = Ok (MkRecordingVM (MkAddress 1 10) 2 0
                 [(MkAddress 1 10, FeltValue 1)] []))
  ∧ (∃ hint,
       createIsLeFeltHinter Some (resolver_of [("a", 4); ("b", 4)]) = Ok hint
       ∧ Execute hint machine0 context0
         = Ok (MkRecordingVM (MkAddress 1 10) 2 0
                 [(MkAddress 1 10, FeltValue 0)] [])).
Proof.
  split_and!.
  - destruct (IsLeFelt_writes_comparison Some
                (resolver_of [("a", 3); ("b", 5)])
                (felt_operand 3) (felt_operand 5) machine0 context0 3 5
                eq_refl eq_refl eq_refl eq_refl) as (hint & Hc & _ & He).
    exists hint. split; [exact Hc|exact He].
  - destruct (IsLeFelt_writes_comparison Some
                (resolver_of [("a", 5); ("b", 3)])
                (felt_operand 5) (felt_operand 3) machine0 context0 5 3
                eq_refl eq_refl eq_refl eq_refl) as (hint & Hc & _ & He).
    exists hint. split; [exact Hc|exact He].
  - destruct (IsLeFelt_writes_comparison Some
                (resolver_of [("a", 4); ("b", 4)])
                (felt_operand 4) (felt_operand 4) machine0 context0 4 4
                eq_refl eq_refl eq_refl eq_refl) as (hint & Hc & _ & He).
    exists hint. split; [exact Hc|exact He].
Defined.

Lemma IsNNOutOfRange_writes_as_IsNN_witness :
  GetResOperander Some (resolver_of [("a", 2 ^ 128)]) "a"
  = Ok (felt_operand (2 ^ 128))
  ∧ ∃ hintNN hintOut,
      createIsNNHinter Some (resolver_of [("a", 2 ^ 128)]) = Ok hintNN
      ∧ createIsNNOutOfRangeHinter Some (resolver_of [("a", 2 ^ 128)])
        = Ok hintOut
      ∧ Execute hintOut machine0 context0 = Execute hintNN machine0 context0
      ∧ Execute hintOut machine0 context0
        = Ok (MkRecordingVM (MkAddress 1 10) 2 0
                [(MkAddress 1 10, FeltValue 1)] []).
Proof.
  split; [reflexivity|].
  destruct (IsNNOutOfRange_writes_as_IsNN Some
              (resolver_of [("a", 2 ^ 128)]) (felt_operand (2 ^ 128))
              eq_refl) as (hintNN & hintOut & HNN & HOut & Hsame & Hwrite).
  exists hintNN, hintOut. split_and!; [exact HNN|exact HOut|apply Hsame|].
  exact (Hwrite machine0 context0 (2 ^ 128) eq_refl).
Defined.

(* ===================================================================== *)
(** * The dictionary manager: [Set] and [At] *)
(* ===================================================================== *)

Section DictionaryAccess.
Implicit Types (dm : DictionaryManager) (dict : Dictionary)
  (addr : MemoryAddress) (key : Z) (value : MemoryValue)
  (writes : list (MemoryAddress * Z * MemoryValue)).

(** What a successful [Set] found and what it leaves. *)
Lemma DictionaryManager_Set_tracked dm addr key value dicts dict datamap :
  dictionaries dm = Some dicts →
  dicts !! SegmentIndex addr = Some dict →
  data dict = Some datamap →
  DictionaryManager_Set dm addr key value
  = Ok (MkDictionaryManager
          (Some (<[SegmentIndex addr :=
                     MkDictionary (Some (<[key := value]> datamap))
                       (idx dict) addr]> dicts))
          (useTemporarySegments dm)).
Proof.
  intros Hd Hl Hdata. unfold DictionaryManager_Set, Dictionary_Set.
  rewrite Hd. simpl. rewrite Hl, Hdata. reflexivity.
Qed.

Lemma DictionaryManager_Set_inv dm addr key value dm' :
  DictionaryManager_Set dm addr key value = Ok dm' →
  ∃ dicts dict datamap,
    dictionaries dm = Some dicts
    ∧ dicts !! SegmentIndex addr = Some dict
    ∧ data dict = Some datamap
    ∧ dm' = MkDictionaryManager
              (Some (<[SegmentIndex addr :=
                         MkDictionary (Some (<[key := value]> datamap))
                           (idx dict) addr]> dicts))
              (useTemporarySegments dm).
Proof.
  unfold DictionaryManager_Set, Dictionary_Set.
  destruct (dictionaries dm) as [dicts|] eqn:Hd; simpl; [|done].
  destruct (dicts !! SegmentIndex addr) as [dict|] eqn:Hl; [|done].
  destruct (data dict) as [datamap|] eqn:Hdata; simpl; [|done].
  intros [= <-]. by exists dicts, dict, datamap.
Qed.

Lemma DictionaryManager_Set_untracked dm addr key value :
  go_lookup (dictionaries dm) (SegmentIndex addr) = None →
  DictionaryManager_Set dm addr key value = Err (NoDictionaryAtAddress addr).
Proof. intros Hl. unfold DictionaryManager_Set. by rewrite Hl. Qed.

(** A [Set] on another segment leaves a dictionary as it was. *)
Lemma DictionaryManager_Set_other dm addr key value dm' segment :
  DictionaryManager_Set dm addr key value = Ok dm' →
  SegmentIndex addr ≠ segment →
  go_lookup (dictionaries dm') segment = go_lookup (dictionaries dm) segment.
Proof.
  intros (dicts & dict & datamap & Hd & _ & _ & ->)%DictionaryManager_Set_inv
    Hne.
  rewrite Hd. simpl. by rewrite lookup_insert_ne.
Qed.

(** A [Set] changes what [At] returns for the key it sets only. *)
Lemma DictionaryManager_At_Set dm addr key value dm' addr' key' :
  DictionaryManager_Set dm addr key value = Ok dm' →
  DictionaryManager_At dm' addr' key'
  = if decide (SegmentIndex addr = SegmentIndex addr' ∧ key = key')
    then Ok value
    else DictionaryManager_At dm addr' key'.
Proof.
  intros (dicts & dict & datamap & Hd & Hl & Hdata & ->)
    %DictionaryManager_Set_inv.
  unfold DictionaryManager_At, Dictionary_At. rewrite Hd. simpl.
  destruct (decide (SegmentIndex addr = SegmentIndex addr')) as [Hs|Hs].
  - rewrite <- Hs, lookup_insert_eq, Hl, Hdata. simpl.
    destruct (decide (key = key')) as [->|Hk].
    + rewrite lookup_insert_eq. by rewrite decide_True.
    + rewrite lookup_insert_ne by done. rewrite decide_False by tauto. done.
  - rewrite lookup_insert_ne by done. rewrite decide_False by tauto. done.
Qed.

Lemma DictionaryManager_SetAll_app dm writes writes' :
  DictionaryManager_SetAll dm (writes ++ writes')
  = dm' ← DictionaryManager_SetAll dm writes;
    DictionaryManager_SetAll dm' writes'.
Proof.
  revert dm. induction writes as [|[[addr key] value] rest IH]; intros dm;
    simpl; [done|].
  destruct (DictionaryManager_Set dm addr key value); simpl; [apply IH|done..].
Qed.

(** A dictionary with a data map stays one through every [Set]. *)
Lemma DictionaryManager_SetAll_tracked dm writes dm' segment :
  DictionaryManager_SetAll dm writes = Ok dm' →
  (∃ dict datamap, go_lookup (dictionaries dm) segment = Some dict
                    ∧ data dict = Some datamap) →
  ∃ dict datamap, go_lookup (dictionaries dm') segment = Some dict
                   ∧ data dict = Some datamap.
Proof.
  revert dm. induction writes as [|[[addr key] value] rest IH]; intros dm;
    simpl.
  - by intros [= <-].
  - destruct (DictionaryManager_Set dm addr key value) as [dm1| |] eqn:Hset;
      simpl; [|done..].
    intros Hrest Htracked. apply (IH dm1 Hrest).
    destruct (decide (SegmentIndex addr = segment)) as [<-|Hne].
    + apply DictionaryManager_Set_inv in Hset
        as (dicts & dict & datamap & Hd & Hl & Hdata & ->).
      simpl. rewrite lookup_insert_eq. eauto.
    + by rewrite (DictionaryManager_Set_other _ _ _ _ _ _ Hset Hne).
Qed.

Lemma keys_at_cons segment addr key value writes :
  keys_at segment ((addr, key, value) :: writes)
  = if decide (SegmentIndex addr = segment)
    then key :: keys_at segment writes
    else keys_at segment writes.
Proof.
  unfold keys_at. rewrite filter_cons. simpl.
  by destruct (decide (SegmentIndex addr = segment)).
Qed.

(** A key no [Set] of the sequence sets in a dictionary reads as before. *)
Lemma DictionaryManager_At_SetAll dm writes dm' addr key :
  DictionaryManager_SetAll dm writes = Ok dm' →
  key ∉ keys_at (SegmentIndex addr) writes →
  DictionaryManager_At dm' addr key = DictionaryManager_At dm addr key.
Proof.
  revert dm. induction writes as [|[[addr0 key0] value0] rest IH]; intros dm;
    simpl.
  - by intros [= <-].
  - destruct (DictionaryManager_Set dm addr0 key0 value0) as [dm1| |] eqn:Hset;
      simpl; [|done..].
    intros Hrest Hkey. rewrite keys_at_cons in Hkey.
    rewrite (IH dm1 Hrest).
    + rewrite (DictionaryManager_At_Set _ _ _ _ _ addr key Hset).
      destruct (decide (SegmentIndex addr0 = SegmentIndex addr)) as [Hs|Hs].
      * rewrite decide_False; [done|]. intros [_ ->]. set_solver.
      * rewrite decide_False; [done|]. tauto.
    + destruct (decide (SegmentIndex addr0 = SegmentIndex addr));
        [intros Hin; apply Hkey; by right|done].
Qed.

Lemma addresses_at_snoc segment writes addr key value :
  addresses_at segment (writes ++ [(addr, key, value)])
  = addresses_at segment writes
    ++ (if decide (SegmentIndex addr = segment) then [addr] else []).
Proof.
  unfold addresses_at. rewrite !fmap_app, filter_app. by f_equal.
Qed.

(** After a sequence of [Set] calls, the [end] of a dictionary is the
    address of the last call made on it. *)
Lemma DictionaryManager_SetAll_end dm writes dm' segment a :
  DictionaryManager_SetAll dm writes = Ok dm' →
  last (addresses_at segment writes) = Some a →
  ∃ dict, go_lookup (dictionaries dm') segment = Some dict ∧ end_ dict = a.
Proof.
  revert dm' a. induction writes as [|[[addr key] value] rest IH] using rev_ind;
    intros dm' a; [done|].
  rewrite DictionaryManager_SetAll_app, addresses_at_snoc. simpl.
  destruct (DictionaryManager_SetAll dm rest) as [dm1| |] eqn:Hrest;
    simpl; [|done..].
  destruct (DictionaryManager_Set dm1 addr key value) as [dm2| |] eqn:Hset;
    simpl; [|done..].
  intros [= <-]. destruct (decide (SegmentIndex addr = segment)) as [<-|Hne].
  - rewrite last_snoc. intros [= <-].
    apply DictionaryManager_Set_inv in Hset
      as (dicts & dict & datamap & Hd & Hl & Hdata & ->).
    simpl. rewrite lookup_insert_eq. eauto.
  - rewrite app_nil_r. intros Hlast.
    rewrite (DictionaryManager_Set_other _ _ _ _ _ _ Hset Hne).
    by apply IH.
Qed.
End DictionaryAccess.

(** The example manager [two_dictionaries] is the one the operations
    build: two dictionaries created on [machine0], then one [Set] on
    each. *)
Example two_dictionaries_built :
  ('(first, dm, vm) ← NewDictionary manager0 machine0;
   '(second, dm, vm) ← NewDictionary dm vm;
   dm ← DictionaryManager_SetAll dm
         [(MkAddress (SegmentIndex first) 2, 7, FeltValue 70);
          (MkAddress (SegmentIndex second) 0, 9, FeltValue 90)];
   Ok (first, second, dm, vm))
  = Ok (MkAddress (-1) 0, MkAddress (-2) 0, two_dictionaries, machine2).
Proof. vm_compute. reflexivity. Qed.

(** C5, as the code has it. On a tracked dictionary, [Set] succeeds and
    leaves the dictionary's [end] equal to the address it was given; after
    any sequence of [Set] calls, the [end] of a dictionary is the address
    of the last call made on it, which is the highest write location when
    the calls on that dictionary come at non-decreasing offsets; on an
    untracked segment index [Set] fails with [NoDictionaryAtAddress]. *)
Theorem Set_end_is_last_address (dm : DictionaryManager) :
  (∀ addr key value dict datamap,
     go_lookup (dictionaries dm) (SegmentIndex addr) = Some dict →
     data dict = Some datamap →
     ∃ dm' dict',
       DictionaryManager_Set dm addr key value = Ok dm'
       ∧ go_lookup (dictionaries dm') (SegmentIndex addr) = Some dict'
       ∧ end_ dict' = addr)
  ∧ (∀ writes dm' segment a,
       DictionaryManager_SetAll dm writes = Ok dm' →
       last (addresses_at segment writes) = Some a →
       ∃ dict',
         go_lookup (dictionaries dm') segment = Some dict'
         ∧ end_ dict' = a
         ∧ (ascending_by Offset (addresses_at segment writes) = true →
            Forall (λ a', Offset a' <= Offset (end_ dict'))
              (addresses_at segment writes)))
  ∧ (∀ addr key value,
       go_lookup (dictionaries dm) (SegmentIndex addr) = None →
       DictionaryManager_Set dm addr key value
       = Err (NoDictionaryAtAddress addr)).
Proof.
  split_and!.
  - intros addr key value dict datamap Hl Hdata.
    destruct (dictionaries dm) as [dicts|] eqn:Hd; [|done]. simpl in Hl.
    eexists _, _. split; [by eapply DictionaryManager_Set_tracked|].
    simpl. by rewrite lookup_insert_eq.
  - intros writes dm' segment a Hall Hlast.
    destruct (DictionaryManager_SetAll_end _ _ _ _ _ Hall Hlast)
      as (dict' & Hl & Hend).
    exists dict'. split_and!; [done..|]. intros Hasc.
    apply last_Some in Hlast as [before Heq]. rewrite Heq in Hasc |- *.
    apply ascending_by_split in Hasc. rewrite Hend.
    apply Forall_app. split; [done|]. by constructor.
  - intros addr key value. apply DictionaryManager_Set_untracked.
Qed.

Lemma Set_end_is_last_address_witness :
  (∃ dm' dict',
     DictionaryManager_Set two_dictionaries (MkAddress (-1) 3) 8 (FeltValue 80)
     = Ok dm'
     ∧ go_lookup (dictionaries dm') (-1) = Some dict'
     ∧ end_ dict' = MkAddress (-1) 3)
  ∧ (∃ dict',
       go_lookup (dictionaries two_dictionaries) (-1) = Some dict'
       ∧ end_ dict' = MkAddress (-1) 2
       ∧ Forall (λ a', Offset a' <= Offset (end_ dict'))
           [MkAddress (-1) 0; MkAddress (-1) 2])
  ∧ DictionaryManager_Set two_dictionaries (MkAddress 5 0) 8 (FeltValue 80)
    = Err (NoDictionaryAtAddress (MkAddress 5 0)).
Proof.
  split_and!.
  - exact (proj1 (Set_end_is_last_address two_dictionaries)
             (MkAddress (-1) 3) 8 (FeltValue 80) dict_first _
             eq_refl eq_refl).
  - destruct (proj1 (proj2 (Set_end_is_last_address created_dictionaries))
                [(MkAddress (-1) 0, 7, FeltValue 70);
                 (MkAddress (-2) 0, 9, FeltValue 90);
                 (MkAddress (-1) 2, 7, FeltValue 70)]
                two_dictionaries (-1) (MkAddress (-1) 2)
                eq_refl eq_refl) as (dict' & Hl & Hend & Hhigh).
    exists dict'. split_and!; [exact Hl|exact Hend|exact (Hhigh eq_refl)].
  - exact (proj2 (proj2 (Set_end_is_last_address two_dictionaries))
             (MkAddress 5 0) 8 (FeltValue 80) eq_refl).
Defined.

(** C5, as stated, fails when a dictionary is written at a lower offset
    after a higher one: after [Set] at offset 5 and then at offset 3 of
    segment -1, the dictionary's [end] is at offset 3, below the write at
    offset 5. *)
Lemma end_below_highest_write :
  (dm ← DictionaryManager_Set two_dictionaries
         (MkAddress (-1) 5) 8 (FeltValue 80);
   dm ← DictionaryManager_Set dm (MkAddress (-1) 3) 9 (FeltValue 90);
   dict ← GetDictionary dm (MkAddress (-1) 0);
   Ok (end_ dict))
  = Ok (MkAddress (-1) 3)
  ∧ Offset (MkAddress (-1) 3) < Offset (MkAddress (-1) 5).
Proof. split; [vm_compute; reflexivity|reflexivity]. Qed.

(** C7. On a manager whose map has been made, [NewDictionary] returns an
    address [A] and tracks an empty dictionary there. From then on, through
    any sequence of [Set] calls: a [Set] of [k] to [v] at [A] succeeds and
    [At] then returns [v] for [k]; [At] fails with [NoValueForKey] for a
    key that no [Set] has set in the dictionary of [A]. On any manager,
    [At] at an address whose segment index is untracked fails with
    [NoDictionaryAtAddress]. *)
Theorem dictionary_round_trip {VirtualMachine : Type}
    `{VMInterface VirtualMachine}
    (dm : DictionaryManager) (vm : VirtualMachine) :
  is_Some (dictionaries dm) →
  ∃ A dm1 vm1,
    NewDictionary dm vm = Ok (A, dm1, vm1)
    ∧ (∀ writes dm2 k v,
         DictionaryManager_SetAll dm1 writes = Ok dm2 →
         ∃ dm3,
           DictionaryManager_Set dm2 A k v = Ok dm3
           ∧ DictionaryManager_At dm3 A k = Ok v)
    ∧ (∀ writes dm2 k2,
         DictionaryManager_SetAll dm1 writes = Ok dm2 →
         k2 ∉ keys_at (SegmentIndex A) writes →
         DictionaryManager_At dm2 A k2 = Err (NoValueForKey k2))
    ∧ (∀ dm' addr key,
         go_lookup (dictionaries dm') (SegmentIndex addr) = None →
         DictionaryManager_At dm' addr key
         = Err (NoDictionaryAtAddress addr)).
Proof.
  intros [dicts Hd]. unfold NewDictionary. rewrite Hd.
  destruct (if useTemporarySegments dm
            then AllocateEmptyTemporarySegment vm
            else AllocateEmptySegment vm) as [A vm1].
  simpl. eexists A, _, vm1. split; [reflexivity|].
  set (dm1 := MkDictionaryManager _ _).
  assert (Hnew : ∃ dict datamap,
             go_lookup (dictionaries dm1) (SegmentIndex A) = Some dict
             ∧ data dict = Some datamap).
  { subst dm1. simpl. rewrite lookup_insert_eq. eauto. }
  split_and!.
  - intros writes dm2 k v Hall.
    destruct (DictionaryManager_SetAll_tracked _ _ _ _ Hall Hnew)
      as (dict & datamap & Hl & Hdata).
    destruct (dictionaries dm2) as [dicts2|] eqn:Hd2; [|done]. simpl in Hl.
    eexists. split; [by eapply DictionaryManager_Set_tracked|].
    unfold DictionaryManager_At, Dictionary_At. simpl.
    rewrite lookup_insert_eq. simpl. by rewrite lookup_insert_eq.
  - intros writes dm2 k2 Hall Hk2.
    rewrite (DictionaryManager_At_SetAll _ _ _ _ _ Hall Hk2).
    subst dm1. unfold DictionaryManager_At, Dictionary_At. simpl.
    by rewrite lookup_insert_eq.
  - intros dm' addr key Hl. unfold DictionaryManager_At. by rewrite Hl.
Qed.

Lemma dictionary_round_trip_witness :
  is_Some (dictionaries manager0)
  ∧ ∃ A dm1 vm1,
      NewDictionary manager0 machine0 = Ok (A, dm1, vm1)
      ∧ (∃ dm3,
           DictionaryManager_Set dm1 A 7 (FeltValue 70) = Ok dm3
           ∧ DictionaryManager_At dm3 A 7 = Ok (FeltValue 70)
           ∧ DictionaryManager_At dm3 A 8 = Err (NoValueForKey 8))
      ∧ DictionaryManager_At dm1 (MkAddress 5 0) 7
        = Err (NoDictionaryAtAddress (MkAddress 5 0)).
Proof.
  split; [by eexists|].
  destruct (dictionary_round_trip manager0 machine0 (mk_is_Some _ _ eq_refl))
    as (A & dm1 & vm1 & Hnew & Hset & Hunset & Huntracked).
  exists A, dm1, vm1. split; [exact Hnew|].
  injection Hnew as <- <- <-. split.
  - destruct (Hset [] _ 7 (FeltValue 70) eq_refl) as (dm3 & Hs & Hat).
    exists dm3. split_and!; [exact Hs|exact Hat|].
    apply (Hunset [(MkAddress (-1) 0, 7, FeltValue 70)]); [exact Hs|].
    vm_compute. intros Hin. inversion Hin as [|? ? ? Hin']; inversion Hin'.
  - apply Huntracked. reflexivity.
Defined.


(* ===================================================================== *)
(** * The dictionary manager: relocation *)
(* ===================================================================== *)

Lemma wrap_uint64_small (x : Z) : 0 <= x < 2 ^ 64 → wrap_uint64 x = x.
Proof. intros Hx. unfold wrap_uint64. by apply Z.mod_small. Qed.

(** The two additions of [segmentAddr.Offset += dict.end.Offset + 1] wrap
    like one. *)
Lemma advance_offset_sum (offset : Z) (dict : Dictionary) :
  advance_offset offset dict
  = wrap_uint64 (offset + Offset (end_ dict) + 1).
Proof.
  unfold advance_offset, wrap_uint64.
  rewrite Zplus_mod_idemp_r. f_equal. lia.
Qed.


Lemma relocation_rules_cons (segmentAddr : MemoryAddress) (key : Z)
    (dict : Dictionary) (rest : list (Z * Dictionary)) :
  relocation_rules segmentAddr ((key, dict) :: rest)
  = (wrap_int64 (- key), segmentAddr)
    :: relocation_rules
         (MkAddress (SegmentIndex segmentAddr)
            (advance_offset (Offset segmentAddr) dict)) rest.
Proof.
  unfold relocation_rules. rewrite imap_cons. simpl. f_equal.
  by destruct segmentAddr.
Qed.

Lemma relocation_rules_keys (segmentAddr : MemoryAddress)
    (order : list (Z * Dictionary)) :
  (relocation_rules segmentAddr order).*1
  = (λ entry, wrap_int64 (- entry.1)) <$> order.
Proof.
  unfold relocation_rules. rewrite fmap_imap. simpl.
  by rewrite <- (imap_const (λ entry : Z * Dictionary, wrap_int64 (- entry.1))).
Qed.

Lemma relocation_rules_lookup (segmentAddr : MemoryAddress)
    (order : list (Z * Dictionary)) (i : nat) (key : Z) (dict : Dictionary) :
  order !! i = Some (key, dict) →
  relocation_rules segmentAddr order !! i
  = Some (wrap_int64 (- key),
          MkAddress (SegmentIndex segmentAddr)
            (offset_after (Offset segmentAddr) (take i order))).
Proof.
  intros Hi. unfold relocation_rules. by rewrite list_lookup_imap, Hi.
Qed.


Section RelocationFacts.
Context {VirtualMachine : Type} `{VMInterface VirtualMachine}.

(** The loop installs the rules of [relocation_rules], first to last. *)
Lemma relocate_loop_rules (order : list (Z * Dictionary))
    (segmentAddr : MemoryAddress) (vm : VirtualMachine) :
  relocate_loop order segmentAddr vm
  = install_rules vm (relocation_rules segmentAddr order).
Proof.
  revert segmentAddr vm.
  induction order as [|[key dict] rest IH]; intros segmentAddr vm; [done|].
  rewrite relocation_rules_cons. simpl. apply IH.
Qed.


(** C1, as the code has it. Two runs over the same manager install rules
    for the same keys, all of them in the fresh segment, and the rules of
    a run are a function of the order in which it visits the map: the
    offset of a rule is the space, [end.Offset + 1] each, of the
    dictionaries visited before it. With two dictionaries, the second
    visited gets the offset [end.Offset + 1] of the first visited,
    whichever of the two that is. *)
Theorem relocation_offsets_follow_visit (dm : DictionaryManager)
    (vm : VirtualMachine) (order1 order2 : list (Z * Dictionary)) :
  go_range (dictionaries dm) order1 →
  go_range (dictionaries dm) order2 →
  let segmentAddr := (AllocateEmptySegment vm).1 in
  let rules1 := relocation_rules segmentAddr order1 in
  let rules2 := relocation_rules segmentAddr order2 in
  RelocateAllDictionaries_in order1 vm
  = install_rules (AllocateEmptySegment vm).2 rules1
  ∧ RelocateAllDictionaries_in order2 vm
    = install_rules (AllocateEmptySegment vm).2 rules2
  ∧ rules1.*1 ≡ₚ rules2.*1
  ∧ Forall (λ rule, SegmentIndex rule.2 = SegmentIndex segmentAddr)
      (rules1 ++ rules2)
  ∧ (order1 = order2 →
     RelocateAllDictionaries_in order1 vm
     = RelocateAllDictionaries_in order2 vm)
  ∧ (∀ key1 dict1 key2 dict2,
       order1 = [(key1, dict1); (key2, dict2)] →
       0 <= Offset (end_ dict1) < 2 ^ 64 - 1 →
       rules1
       = [(wrap_int64 (- key1), MkAddress (SegmentIndex segmentAddr) 0);
          (wrap_int64 (- key2),
           MkAddress (SegmentIndex segmentAddr)
             (Offset (end_ dict1) + 1))]).
Proof.
  intros Hrange1 Hrange2 segmentAddr rules1 rules2.
  assert (Hin : ∀ order, RelocateAllDictionaries_in order vm
                = install_rules (AllocateEmptySegment vm).2
                    (relocation_rules segmentAddr order)).
  { intros order. unfold RelocateAllDictionaries_in. subst segmentAddr.
    destruct (AllocateEmptySegment vm) as [a vm1]. simpl.
    apply relocate_loop_rules. }
  split_and!.
  - apply Hin.
  - apply Hin.
  - subst rules1 rules2. rewrite !relocation_rules_keys.
    unfold go_range in *. by rewrite Hrange1, Hrange2.
  - apply Forall_app. subst rules1 rules2. unfold relocation_rules.
    split; apply Forall_forall; intros rule Hrule;
      apply elem_of_lookup_imap in Hrule as (i & entry & -> & _); done.
  - by intros ->.
  - intros key1 dict1 key2 dict2 Horder Hend. subst rules1.
    rewrite Horder. unfold relocation_rules. simpl.
    assert (Hbase : Offset segmentAddr = 0)
      by (subst segmentAddr; apply AllocateEmptySegment_base).
    rewrite Hbase. unfold offset_after. simpl.
    rewrite advance_offset_sum. rewrite wrap_uint64_small by lia.
    repeat f_equal; lia.
Qed.
End RelocationFacts.


Lemma two_dictionaries_first_then_second :
  go_range (dictionaries two_dictionaries) first_then_second.
Proof.
  unfold go_range. symmetry.
  apply (map_to_list_to_map first_then_second).
  apply NoDup_cons. split; [|apply NoDup_singleton].
  intros Hin%list_elem_of_In. destruct Hin as [Hin|[]]. discriminate Hin.
Qed.

Lemma two_dictionaries_second_then_first :
  go_range (dictionaries two_dictionaries) second_then_first.
Proof.
  unfold go_range, second_then_first.
  rewrite <- two_dictionaries_first_then_second. apply perm_swap.
Qed.


Lemma relocation_offsets_follow_visit_witness :
  (go_range (dictionaries two_dictionaries) first_then_second
   ∧ go_range (dictionaries two_dictionaries) second_then_first)
  ∧ relocation_rules (MkAddress 2 0) first_then_second
    = [(1, MkAddress 2 0); (2, MkAddress 2 (2 + 1))]
  ∧ relocation_rules (MkAddress 2 0) second_then_first
    = [(2, MkAddress 2 0); (1, MkAddress 2 (0 + 1))].
Proof.
  split;
    [exact (conj two_dictionaries_first_then_second
                 two_dictionaries_second_then_first)|].
  split.
  - exact (proj2 (proj2 (proj2 (proj2 (proj2
             (relocation_offsets_follow_visit two_dictionaries machine2
                first_then_second second_then_first
                two_dictionaries_first_then_second
                two_dictionaries_second_then_first)))))
             (-1) dict_first (-2) dict_second eq_refl
             ltac:(simpl; lia)).
  - exact (proj2 (proj2 (proj2 (proj2 (proj2
             (relocation_offsets_follow_visit two_dictionaries machine2
                second_then_first first_then_second
                two_dictionaries_second_then_first
                two_dictionaries_first_then_second)))))
             (-2) dict_second (-1) dict_first eq_refl
             ltac:(simpl; lia)).
Defined.


(** C1, as stated, fails: two runs of [RelocateAllDictionaries] on the
    same manager and machine, one visiting the dictionary of segment -1
    first and one visiting it second, relocate that dictionary (rule key
    1) to offset 0 and to offset 1, and the other one (rule key 2) to
    offset 3 and to offset 0. *)
Lemma relocation_offsets_depend_on_visit :
  RelocateAllDictionaries two_dictionaries machine2
    (MkRecordingVM (MkAddress 1 10) 3 2 []
       [(1, MkAddress 2 0); (2, MkAddress 2 3)])
  ∧ RelocateAllDictionaries two_dictionaries machine2
      (MkRecordingVM (MkAddress 1 10) 3 2 []
         [(2, MkAddress 2 0); (1, MkAddress 2 1)])
  ∧ (list_to_map [(1, MkAddress 2 0); (2, MkAddress 2 3)]
       : gmap Z MemoryAddress) !! 1
    ≠ (list_to_map [(2, MkAddress 2 0); (1, MkAddress 2 1)]
         : gmap Z MemoryAddress) !! 1.
Proof.
  split_and!.
  - exists first_then_second.
    split; [exact two_dictionaries_first_then_second|reflexivity].
  - exists second_then_first.
    split; [exact two_dictionaries_second_then_first|reflexivity].
  - vm_compute. discriminate.
Qed.

(* ===================================================================== *)
(** * The squashed dictionary manager *)
(* ===================================================================== *)

Section Squashed.
Implicit Types (sdm : SquashedDictionaryManager) (ctx : HintRunnerContext)
  (key index : Z) (keys indices : list Z).

(** On an initialized manager [Insert] appends, whether or not the key
    was there. *)
Lemma Insert_initialized sdm (m : gmap Z (list Z)) key index :
  KeyToIndices sdm = Some m →
  Insert sdm key index
  = Ok (MkSquashedDictionaryManager
          (Some (<[key := indices_of sdm key ++ [index]]> m)) (Keys sdm)).
Proof.
  intros Hm. unfold Insert, indices_of. rewrite Hm. simpl.
  by destruct (m !! key).
Qed.

Lemma Insert_inv sdm key index sdm' :
  Insert sdm key index = Ok sdm' →
  is_Some (KeyToIndices sdm)
  ∧ is_Some (KeyToIndices sdm')
  ∧ Keys sdm' = Keys sdm.
Proof.
  destruct (KeyToIndices sdm) as [m|] eqn:Hm.
  - rewrite (Insert_initialized _ _ _ _ Hm). intros [= <-]. simpl. eauto.
  - unfold Insert. rewrite Hm. simpl. done.
Qed.

Lemma LastKey_tail sdm keys key :
  Keys sdm = Some (keys ++ [key]) → LastKey sdm = Ok key.
Proof.
  intros Hk. unfold LastKey. rewrite Hk. simpl.
  rewrite length_app, Nat.add_1_r. simpl.
  rewrite Nat.sub_0_r, lookup_app_r by lia.
  by rewrite Nat.sub_diag.
Qed.

(** A key [LastKey] returns is in the key list. *)
Lemma LastKey_elem sdm key :
  LastKey sdm = Ok key → key ∈ slice_elems (Keys sdm).
Proof.
  unfold LastKey. destruct (length _ =? 0)%nat; [done|].
  destruct (_ !! _) as [k|] eqn:Hk; [|done].
  intros [= <-]. by eapply list_elem_of_lookup_2.
Qed.

Lemma PopKey_inv sdm key sdm' :
  PopKey sdm = Ok (key, sdm') →
  LastKey sdm = Ok key
  ∧ KeyToIndices sdm' = KeyToIndices sdm
  ∧ slice_elems (Keys sdm') ⊆ slice_elems (Keys sdm).
Proof.
  unfold PopKey. destruct (LastKey sdm) as [k| |]; simpl; [|done..].
  intros [= <- <-]. simpl. split_and!; [done..|].
  apply subseteq_take.
Qed.

Lemma PopIndex_inv sdm index sdm' :
  PopIndex sdm = Ok (index, sdm') →
  is_Some (KeyToIndices sdm') ∧ Keys sdm' = Keys sdm.
Proof.
  unfold PopIndex. destruct (LastKey sdm) as [k| |]; simpl; [|done..].
  destruct (length _ =? 0)%nat; [done|].
  destruct (_ !! _) as [i|]; [|done].
  destruct (KeyToIndices sdm) as [m|]; simpl; [|done].
  intros [= <- <-]. simpl. eauto.
Qed.

Lemma PopIndex_tail sdm (m : gmap Z (list Z)) keys key indices index :
  KeyToIndices sdm = Some m →
  Keys sdm = Some (keys ++ [key]) →
  indices_of sdm key = indices ++ [index] →
  PopIndex sdm
  = Ok (index, MkSquashedDictionaryManager (Some (<[key := indices]> m))
                 (Keys sdm)).
Proof.
  intros Hm Hk Hi. unfold PopIndex. rewrite (LastKey_tail _ _ _ Hk). simpl.
  rewrite Hi, length_app, Nat.add_1_r. simpl.
  rewrite Nat.sub_0_r, lookup_app_r by lia.
  rewrite Nat.sub_diag, Hm. simpl.
  by rewrite take_app_length.
Qed.

(** C8. On an initialized manager, [Insert] of [i1] and then of [i2] for
    the key [k] appends both, in that order, to the indices recorded for
    [k], so that they are exactly [i1; i2] when nothing was recorded for
    [k] before. When [k] is the tail of the key list, [LastIndices] then
    returns that list, and [PopIndex] removes and returns its last
    element, [i2], after which [LastIndices] returns the list ending with
    [i1]. *)
Theorem Insert_twice_then_pop sdm (m : gmap Z (list Z)) (k i1 i2 : Z) :
  KeyToIndices sdm = Some m →
  ∃ sdm1 sdm2,
    Insert sdm k i1 = Ok sdm1
    ∧ Insert sdm1 k i2 = Ok sdm2
    ∧ indices_of sdm2 k = indices_of sdm k ++ [i1; i2]
    ∧ (indices_of sdm k = [] → indices_of sdm2 k = [i1; i2])
    ∧ (∀ keys,
         Keys sdm = Some (keys ++ [k]) →
         LastIndices sdm2 = Ok (indices_of sdm k ++ [i1; i2])
         ∧ ∃ sdm3,
             PopIndex sdm2 = Ok (i2, sdm3)
             ∧ LastIndices sdm3 = Ok (indices_of sdm k ++ [i1])).
Proof.
  intros Hm.
  pose (m1 := <[k := indices_of sdm k ++ [i1]]> m).
  pose (sdm1 := MkSquashedDictionaryManager (Some m1) (Keys sdm)).
  assert (HI1 : Insert sdm k i1 = Ok sdm1) by by apply Insert_initialized.
  assert (H1 : indices_of sdm1 k = indices_of sdm k ++ [i1]).
  { unfold indices_of at 1. simpl. unfold m1. by rewrite lookup_insert_eq. }
  pose (sdm2 := MkSquashedDictionaryManager
                  (Some (<[k := indices_of sdm1 k ++ [i2]]> m1)) (Keys sdm)).
  assert (HI2 : Insert sdm1 k i2 = Ok sdm2)
    by by apply (Insert_initialized sdm1 m1).
  assert (H2 : indices_of sdm2 k = indices_of sdm k ++ [i1; i2]).
  { unfold indices_of at 1. simpl.
    rewrite lookup_insert_eq. simpl. by rewrite H1, <- app_assoc. }
  exists sdm1, sdm2. split_and!; [done..| |].
  - intros Hnone. by rewrite H2, Hnone.
  - intros keys Hk.
    assert (Hk2 : Keys sdm2 = Some (keys ++ [k])) by done.
    split.
    + unfold LastIndices. rewrite (LastKey_tail _ _ _ Hk2). simpl.
      by rewrite H2.
    + eexists. split.
      * eapply (PopIndex_tail sdm2 _ keys k (indices_of sdm k ++ [i1]) i2);
          [done..|]. by rewrite H2, <- app_assoc.
      * unfold LastIndices.
        erewrite LastKey_tail by (simpl; exact Hk2). simpl.
        unfold indices_of at 1. simpl. by rewrite lookup_insert_eq.
Qed.

Lemma Insert_twice_then_pop_witness :
  KeyToIndices squashed_7 = Some ∅
  ∧ ∃ sdm1 sdm2 sdm3,
      Insert squashed_7 7 3 = Ok sdm1
      ∧ Insert sdm1 7 9 = Ok sdm2
      ∧ LastIndices sdm2 = Ok [3; 9]
      ∧ PopIndex sdm2 = Ok (9, sdm3)
      ∧ LastIndices sdm3 = Ok [3].
Proof.
  split; [reflexivity|].
  destruct (Insert_twice_then_pop squashed_7 ∅ 7 3 9 eq_refl)
    as (sdm1 & sdm2 & Hi1 & Hi2 & _ & _ & Htail).
  destruct (Htail [9] eq_refl) as (Hlast & sdm3 & Hpop & Hlast3).
  exists sdm1, sdm2, sdm3.
  split_and!; [exact Hi1|exact Hi2|exact Hlast|exact Hpop|exact Hlast3].
Defined.

(** Once the map of the manager has been made, no call unmakes it. *)
Lemma squash_call_initialized ctx c ctx' :
  squash_call ctx c = Some ctx' →
  is_Some (KeyToIndices (ctx_SquashedDictionaryManager ctx)) →
  is_Some (KeyToIndices (ctx_SquashedDictionaryManager ctx')).
Proof.
  intros Hcall Hinit. destruct c as [|key index| | |keys]; simpl in Hcall.
  - unfold InitializeSquashedDictionaryManager in Hcall.
    destruct Hinit as [m Hm]. rewrite Hm in Hcall.
    injection Hcall as <-. by rewrite Hm.
  - destruct (Insert _ key index) as [sdm'| |] eqn:Hins; [| |done].
    + injection Hcall as <-. simpl. by apply Insert_inv in Hins as (_ & ? & _).
    + by injection Hcall as <-.
  - destruct (PopKey _) as [[k sdm']| |] eqn:Hpop; [| |done].
    + injection Hcall as <-. simpl.
      apply PopKey_inv in Hpop as (_ & -> & _). done.
    + by injection Hcall as <-.
  - destruct (PopIndex _) as [[i sdm']| |] eqn:Hpop; [| |done].
    + injection Hcall as <-. simpl. by apply PopIndex_inv in Hpop as [? _].
    + by injection Hcall as <-.
  - by injection Hcall as <-.
Qed.

Lemma squash_run_initialized ctx calls ctx' :
  squash_run ctx calls = Some ctx' →
  is_Some (KeyToIndices (ctx_SquashedDictionaryManager ctx)) →
  is_Some (KeyToIndices (ctx_SquashedDictionaryManager ctx')).
Proof.
  revert ctx. induction calls as [|c rest IH]; intros ctx; simpl.
  - by intros [= <-].
  - destruct (squash_call ctx c) as [ctx1|] eqn:Hcall; [|done].
    intros Hrun Hinit. apply (IH _ Hrun).
    by eapply squash_call_initialized.
Qed.

(** C9. On a fresh run context, where neither the map nor the key list of
    the squashed dictionary manager has been made,
    [InitializeSquashedDictionaryManager] succeeds; whatever calls the run
    makes on the manager afterwards, a later call of it fails with
    [AlreadyInitialized]. *)
Theorem Initialize_once ctx :
  KeyToIndices (ctx_SquashedDictionaryManager ctx) = None →
  Keys (ctx_SquashedDictionaryManager ctx) = None →
  ∃ ctx1,
    InitializeSquashedDictionaryManager ctx = Ok ctx1
    ∧ ∀ calls ctx2,
        squash_run ctx1 calls = Some ctx2 →
        InitializeSquashedDictionaryManager ctx2 = Err AlreadyInitialized.
Proof.
  intros Hm Hk. unfold InitializeSquashedDictionaryManager at 1.
  rewrite Hm, Hk. eexists. split; [done|].
  intros calls ctx2 Hrun.
  apply squash_run_initialized in Hrun as [m2 Hm2]; [|by eexists].
  unfold InitializeSquashedDictionaryManager. by rewrite Hm2.
Qed.

Lemma Initialize_once_witness :
  (KeyToIndices (ctx_SquashedDictionaryManager context0) = None
   ∧ Keys (ctx_SquashedDictionaryManager context0) = None)
  ∧ ∃ ctx1,
      InitializeSquashedDictionaryManager context0 = Ok ctx1
      ∧ InitializeSquashedDictionaryManager ctx1 = Err AlreadyInitialized
      ∧ ∀ ctx2,
          squash_run ctx1 [SetKeys (Some [7]); CallInsert 7 3; CallPopKey]
          = Some ctx2 →
          InitializeSquashedDictionaryManager ctx2 = Err AlreadyInitialized.
Proof.
  split; [split; reflexivity|].
  destruct (Initialize_once context0 eq_refl eq_refl) as (ctx1 & Hinit & Hlater).
  exists ctx1. split_and!; [exact Hinit| |].
  - exact (Hlater [] ctx1 eq_refl).
  - intros ctx2 Hrun. exact (Hlater _ ctx2 Hrun).
Defined.

(** A key that is not in the key list, and that no assignment to [Keys]
    brings, stays out of it. *)
Lemma squash_call_absent ctx c ctx' key :
  squash_call ctx c = Some ctx' →
  (∀ assigned : option (list Z), c = SetKeys assigned → key ∉ slice_elems assigned) →
  key ∉ slice_elems (Keys (ctx_SquashedDictionaryManager ctx)) →
  key ∉ slice_elems (Keys (ctx_SquashedDictionaryManager ctx')).
Proof.
  intros Hcall Hset Hout. destruct c as [|key0 index| | |assigned]; simpl in Hcall.
  - unfold InitializeSquashedDictionaryManager in Hcall.
    destruct (KeyToIndices _) eqn:HM, (Keys _) eqn:HK;
      injection Hcall as <-; try (by rewrite HK).
    simpl. apply not_elem_of_nil.
  - destruct (Insert _ key0 index) as [sdm'| |] eqn:Hins; [| |done].
    + injection Hcall as <-. simpl.
      apply Insert_inv in Hins as (_ & _ & ->). done.
    + by injection Hcall as <-.
  - destruct (PopKey _) as [[k sdm']| |] eqn:Hpop; [| |done].
    + injection Hcall as <-. simpl.
      apply PopKey_inv in Hpop as (_ & _ & Hsub). set_solver.
    + by injection Hcall as <-.
  - destruct (PopIndex _) as [[i sdm']| |] eqn:Hpop; [| |done].
    + injection Hcall as <-. simpl.
      apply PopIndex_inv in Hpop as [_ ->]. done.
    + by injection Hcall as <-.
  - injection Hcall as <-. simpl. by apply Hset.
Qed.

Lemma squash_run_absent ctx calls ctx' key :
  squash_run ctx calls = Some ctx' →
  (∀ assigned : option (list Z), SetKeys assigned ∈ calls → key ∉ slice_elems assigned) →
  key ∉ slice_elems (Keys (ctx_SquashedDictionaryManager ctx)) →
  key ∉ slice_elems (Keys (ctx_SquashedDictionaryManager ctx')).
Proof.
  revert ctx. induction calls as [|c rest IH]; intros ctx; simpl.
  - by intros [= <-].
  - destruct (squash_call ctx c) as [ctx1|] eqn:Hcall; [|done].
    intros Hrun Hset Hout. apply (IH _ Hrun).
    + intros assigned Hin. apply Hset. by right.
    + eapply squash_call_absent; [done| |done].
      intros assigned ->. apply Hset. by left.
Qed.

(** C10. [Insert] leaves the key list as it was, and with it what
    [LastKey] returns. Hence a key that is not in the key list and that
    the assignments to [Keys] made during the run do not contain is,
    whatever is inserted for it, returned neither by [LastKey] nor by
    [PopKey]. *)
Theorem Insert_leaves_Keys :
  (∀ sdm key index sdm',
     Insert sdm key index = Ok sdm' →
     Keys sdm' = Keys sdm ∧ LastKey sdm' = LastKey sdm)
  ∧ (∀ ctx calls ctx' key,
       key ∉ slice_elems (Keys (ctx_SquashedDictionaryManager ctx)) →
       (∀ assigned : option (list Z), SetKeys assigned ∈ calls → key ∉ slice_elems assigned) →
       squash_run ctx calls = Some ctx' →
       LastKey (ctx_SquashedDictionaryManager ctx') ≠ Ok key
       ∧ ∀ sdm', PopKey (ctx_SquashedDictionaryManager ctx') ≠ Ok (key, sdm')).
Proof.
  split.
  - intros sdm key index sdm' Hins.
    apply Insert_inv in Hins as (_ & _ & Hkeys). split; [done|].
    unfold LastKey. by rewrite Hkeys.
  - intros ctx calls ctx' key Hout Hset Hrun.
    pose proof (squash_run_absent _ _ _ _ Hrun Hset Hout) as Hout'.
    split.
    + intros Hlast. by apply LastKey_elem in Hlast.
    + intros sdm' Hpop. apply PopKey_inv in Hpop as (Hlast & _).
      by apply LastKey_elem in Hlast.
Qed.

Lemma Insert_leaves_Keys_witness :
  (∃ sdm',
     Insert squashed_7 5 1 = Ok sdm'
     ∧ Keys sdm' = Keys squashed_7
     ∧ LastKey sdm' = Ok 7)
  ∧ (∀ ctx',
       squash_run (with_sdm context0 squashed_7)
         [CallInsert 5 1; CallPopKey; CallInsert 5 2; CallPopKey]
       = Some ctx' →
       LastKey (ctx_SquashedDictionaryManager ctx') ≠ Ok 5).
Proof.
  split.
  - eexists. split; [reflexivity|].
    destruct (proj1 Insert_leaves_Keys squashed_7 5 1 _ eq_refl)
      as [Hkeys Hlast].
    split; [exact Hkeys|exact Hlast].
  - intros ctx' Hrun.
    refine (proj1 (proj2 Insert_leaves_Keys (with_sdm context0 squashed_7)
                     _ ctx' 5 _ _ Hrun)).
    + simpl. intros Hin%list_elem_of_In. simpl in Hin. lia.
    + intros assigned Hin%list_elem_of_In. simpl in Hin.
      destruct Hin as [Hin|[Hin|[Hin|[Hin|[]]]]]; discriminate Hin.
Defined.
End Squashed.

(* ===================================================================== *)
(** * Further properties of the dictionary manager *)
(* ===================================================================== *)

Section DictionaryCreation.
Context {VirtualMachine : Type} `{VMInterface VirtualMachine}.
Implicit Types (dm : DictionaryManager) (vm : VirtualMachine)
  (addr : MemoryAddress) (key : Z) (value : MemoryValue).

(** What [NewDictionary] returns on a manager whose map has been made. *)
Lemma NewDictionary_made dm vm (dicts : gmap Z Dictionary) :
  dictionaries dm = Some dicts →
  let alloc := if useTemporarySegments dm
               then AllocateEmptyTemporarySegment vm
               else AllocateEmptySegment vm in
  NewDictionary dm vm
  = Ok (alloc.1,
        MkDictionaryManager
          (Some (<[SegmentIndex alloc.1 :=
                     MkDictionary (Some ∅) (wrap_uint64 (Z.of_nat (size dicts)))
                       (MkAddress 0 0)]> dicts))
          (useTemporarySegments dm),
        alloc.2).
Proof.
  intros Hd. unfold NewDictionary. rewrite Hd. simpl.
  by destruct (if useTemporarySegments dm then _ else _).
Qed.

(** X1. On a manager whose map has been made, [NewDictionary] allocates
    one segment, temporary or real as the manager is configured, and
    returns its address; the dictionary it tracks there has no value for
    any key, the number of dictionaries tracked before as its creation
    number and the zero address as its [end]; the dictionaries of the
    other segments and the configuration stay as they were. *)
Theorem NewDictionary_tracks_empty_dictionary dm vm :
  is_Some (dictionaries dm) →
  let alloc := if useTemporarySegments dm
               then AllocateEmptyTemporarySegment vm
               else AllocateEmptySegment vm in
  ∃ dm1,
    NewDictionary dm vm = Ok (alloc.1, dm1, alloc.2)
    ∧ useTemporarySegments dm1 = useTemporarySegments dm
    ∧ GetDictionary dm1 alloc.1
      = Ok (MkDictionary (Some ∅) (wrap_uint64 (go_len (dictionaries dm)))
              (MkAddress 0 0))
    ∧ (∀ key, DictionaryManager_At dm1 alloc.1 key = Err (NoValueForKey key))
    ∧ (∀ addr,
         SegmentIndex addr ≠ SegmentIndex alloc.1 →
         GetDictionary dm1 addr = GetDictionary dm addr
         ∧ ∀ key, DictionaryManager_At dm1 addr key
                  = DictionaryManager_At dm addr key).
Proof.
  intros [dicts Hd] alloc. eexists. split; [by apply NewDictionary_made|].
  fold alloc. split_and!; [done| | |].
  - unfold GetDictionary. simpl. rewrite lookup_insert_eq. by rewrite Hd.
  - intros key. unfold DictionaryManager_At, Dictionary_At. simpl.
    by rewrite lookup_insert_eq.
  - intros addr Hne. unfold GetDictionary, DictionaryManager_At. simpl.
    rewrite lookup_insert_ne by done. by rewrite Hd.
Qed.

(** X2. [NewDictionary] panics exactly on a manager whose map is nil.
    [InitializeDictionaryManager] makes the map when it is nil and keeps
    it otherwise: after it [NewDictionary] succeeds, the dictionaries
    tracked before are still tracked, the configuration is the one asked
    for, and the rest of the run context is untouched. *)
Theorem InitializeDictionaryManager_enables_NewDictionary
    (ctx : HintRunnerContext) (flag : bool) vm :
  (∀ dm, NewDictionary dm vm = Panic ↔ dictionaries dm = None)
  ∧ (∃ created,
       NewDictionary (ctx_DictionaryManager
                        (InitializeDictionaryManager ctx flag)) vm
       = Ok created)
  ∧ useTemporarySegments
      (ctx_DictionaryManager (InitializeDictionaryManager ctx flag)) = flag
  ∧ (∀ addr,
       GetDictionary
         (ctx_DictionaryManager (InitializeDictionaryManager ctx flag)) addr
       = GetDictionary (ctx_DictionaryManager ctx) addr)
  ∧ ctx_SquashedDictionaryManager (InitializeDictionaryManager ctx flag)
    = ctx_SquashedDictionaryManager ctx
  ∧ ExcludedArc (InitializeDictionaryManager ctx flag) = ExcludedArc ctx.
Proof.
  split_and!; try done.
  - intros dm. destruct (dictionaries dm) as [dicts|] eqn:Hd.
    + rewrite (NewDictionary_made _ _ _ Hd). done.
    + unfold NewDictionary. rewrite Hd. simpl.
      by destruct (if useTemporarySegments dm then _ else _).
  - unfold InitializeDictionaryManager. simpl.
    destruct (dictionaries (ctx_DictionaryManager ctx)) as [dicts|];
      eexists; by apply NewDictionary_made.
  - intros addr. unfold GetDictionary, InitializeDictionaryManager. simpl.
    by destruct (dictionaries (ctx_DictionaryManager ctx)).
Qed.

(** X3. The creation numbers stay pairwise distinct and below the number
    of dictionaries: this holds on a manager that tracks nothing, a
    [NewDictionary] whose segment is not tracked yet keeps it and gives
    the new dictionary the number of dictionaries tracked before, and a
    [Set] keeps it. *)
Theorem creation_numbers_stay_unique dm :
  (go_entries (dictionaries dm) = [] → creation_numbers_unique dm)
  ∧ (creation_numbers_unique dm →
     (∀ vm A dm1 vm1,
        NewDictionary dm vm = Ok (A, dm1, vm1) →
        go_lookup (dictionaries dm) (SegmentIndex A) = None →
        go_len (dictionaries dm) < 2 ^ 64 →
        creation_numbers_unique dm1
        ∧ ∃ dict, GetDictionary dm1 A = Ok dict
                  ∧ Dictionary_InitNumber dict = go_len (dictionaries dm))
     ∧ (∀ addr key value dm1,
          DictionaryManager_Set dm addr key value = Ok dm1 →
          creation_numbers_unique dm1)).
Proof.
  split; [|intros [Hlt Hinj]; split].
  - intros Hnil.
    assert (Hnone : ∀ segment, go_lookup (dictionaries dm) segment = None).
    { intros segment. destruct (dictionaries dm) as [dicts|]; [|done].
      simpl in *. apply map_to_list_empty_iff in Hnil as ->.
      apply lookup_empty. }
    split; intros *; by rewrite Hnone.
  - intros vm A dm1 vm1 Hnew Hfresh Hlen.
    destruct (dictionaries dm) as [dicts|] eqn:Hd; simpl in *.
    2:{ unfold NewDictionary in Hnew. rewrite Hd in Hnew. simpl in Hnew.
        by destruct (if useTemporarySegments dm then _ else _). }
    rewrite (NewDictionary_made _ _ _ Hd) in Hnew.
    injection Hnew as <- <- <-.
    set (A := (if useTemporarySegments dm then _ else _).1) in *.
    assert (Hwrap : wrap_uint64 (Z.of_nat (size dicts)) = Z.of_nat (size dicts))
      by (apply wrap_uint64_small; lia).
    split; [split|].
    + intros segment dict. simpl.
      rewrite map_size_insert_None by done. rewrite lookup_insert.
      case_decide.
      * intros [= <-]. unfold Dictionary_InitNumber. simpl. lia.
      * intros Hl. apply Hlt in Hl. lia.
    + intros s1 s2 d1 d2. simpl. rewrite !lookup_insert.
      repeat case_decide; try congruence.
      * intros [= <-] Hl2%Hlt. unfold Dictionary_InitNumber in *. simpl. lia.
      * intros Hl1%Hlt [= <-]. unfold Dictionary_InitNumber in *. simpl. lia.
      * apply Hinj.
    + eexists. unfold GetDictionary. simpl. rewrite lookup_insert_eq.
      split; [done|]. unfold Dictionary_InitNumber. simpl. exact Hwrap.
  - intros addr key value dm1
      (dicts & dict & datamap & Hd & Hl & Hdata & ->)%DictionaryManager_Set_inv.
    rewrite Hd in Hlt, Hinj. simpl in *.
    assert (Hsize : size (<[SegmentIndex addr :=
                      MkDictionary (Some (<[key := value]> datamap))
                        (idx dict) addr]> dicts) = size dicts)
      by (by eapply map_size_insert_Some).
    split.
    + intros segment dict'. simpl. rewrite Hsize, lookup_insert.
      case_decide as Hs.
      * intros [= <-]. by apply (Hlt _ _ Hl).
      * apply Hlt.
    + intros s1 s2 d1 d2. simpl. rewrite !lookup_insert.
      repeat case_decide; try congruence.
      * intros [= <-] Hl2. subst s1. by apply (Hinj _ _ _ _ Hl Hl2).
      * intros Hl1 [= <-]. subst s2. by apply (Hinj _ _ _ _ Hl1 Hl).
      * apply Hinj.
Qed.

(** X5. A manager in which every tracked dictionary has a data map never
    panics: [InitializeDictionaryManager] on a manager with a nil map
    gives such a manager, [NewDictionary] succeeds on it and keeps it
    so, and [Set] either succeeds and keeps it so or fails with
    [NoDictionaryAtAddress]. *)
Theorem dictionaries_made_never_panic :
  (∀ ctx flag,
     dictionaries (ctx_DictionaryManager ctx) = None →
     dictionaries_made
       (ctx_DictionaryManager (InitializeDictionaryManager ctx flag)))
  ∧ (∀ dm,
       dictionaries_made dm →
       (∀ vm, ∃ A dm1 vm1,
          NewDictionary dm vm = Ok (A, dm1, vm1) ∧ dictionaries_made dm1)
       ∧ (∀ addr key value,
            (∃ dm1, DictionaryManager_Set dm addr key value = Ok dm1
                    ∧ dictionaries_made dm1)
            ∨ DictionaryManager_Set dm addr key value
              = Err (NoDictionaryAtAddress addr))).
Proof.
  split.
  - intros ctx flag Hnil. unfold InitializeDictionaryManager. simpl.
    rewrite Hnil. exists ∅. split; [done|]. intros segment dict.
    by rewrite lookup_empty.
  - intros dm (dicts & Hd & Hmade). split.
    + intros vm. eexists _, _, _.
      split; [by apply NewDictionary_made|].
      eexists. split; [done|]. intros segment dict. rewrite lookup_insert.
      case_decide; [intros [= <-]; by eexists|apply Hmade].
    + intros addr key value.
      destruct (dicts !! SegmentIndex addr) as [dict|] eqn:Hl.
      * left. destruct (Hmade _ _ Hl) as [datamap Hdata].
        eexists. split; [by eapply DictionaryManager_Set_tracked|].
        eexists. split; [done|]. intros segment dict'. rewrite lookup_insert.
        case_decide; [intros [= <-]; by eexists|apply Hmade].
      * right. apply DictionaryManager_Set_untracked. by rewrite Hd.
Qed.
End DictionaryCreation.

(** X4. A successful [Set] changes what [At] returns for the key it sets
    in the dictionary it addresses, and for nothing else; it leaves the
    other dictionaries, the set of tracked segments, the creation number
    of the dictionary and the configuration as they were. *)
Theorem Set_changes_one_key (dm : DictionaryManager) (addr : MemoryAddress)
    (key : Z) (value : MemoryValue) (dm' : DictionaryManager) :
  DictionaryManager_Set dm addr key value = Ok dm' →
  useTemporarySegments dm' = useTemporarySegments dm
  ∧ (∀ addr' key',
       DictionaryManager_At dm' addr' key'
       = if decide (SegmentIndex addr = SegmentIndex addr' ∧ key = key')
         then Ok value
         else DictionaryManager_At dm addr' key')
  ∧ (∀ addr',
       SegmentIndex addr' ≠ SegmentIndex addr →
       GetDictionary dm' addr' = GetDictionary dm addr')
  ∧ (∃ dict dict',
       GetDictionary dm addr = Ok dict
       ∧ GetDictionary dm' addr = Ok dict'
       ∧ Dictionary_InitNumber dict' = Dictionary_InitNumber dict)
  ∧ (∀ segment,
       is_Some (go_lookup (dictionaries dm') segment)
       ↔ is_Some (go_lookup (dictionaries dm) segment)).
Proof.
  intros Hset. split_and!.
  - by apply DictionaryManager_Set_inv in Hset as (? & ? & ? & _ & _ & _ & ->).
  - intros addr' key'. by apply DictionaryManager_At_Set.
  - intros addr' Hne. unfold GetDictionary.
    by erewrite DictionaryManager_Set_other.
  - apply DictionaryManager_Set_inv in Hset
      as (dicts & dict & datamap & Hd & Hl & Hdata & ->).
    eexists dict, _. unfold GetDictionary. rewrite Hd. simpl.
    rewrite Hl, lookup_insert_eq. done.
  - intros segment. apply DictionaryManager_Set_inv in Hset
      as (dicts & dict & datamap & Hd & Hl & Hdata & ->).
    rewrite Hd. simpl. rewrite lookup_insert. case_decide as Hs; [|done].
    subst segment. rewrite Hl. split; intros _; by eexists.
Qed.

Lemma NewDictionary_tracks_empty_dictionary_witness :
  is_Some (dictionaries manager0)
  ∧ ∃ dm1,
      NewDictionary manager0 machine0
      = Ok (MkAddress (-1) 0, dm1, MkRecordingVM (MkAddress 1 10) 2 1 [] [])
      ∧ GetDictionary dm1 (MkAddress (-1) 0)
        = Ok (MkDictionary (Some ∅) 0 (MkAddress 0 0))
      ∧ DictionaryManager_At dm1 (MkAddress (-1) 0) 7 = Err (NoValueForKey 7).
Proof.
  split; [by eexists|].
  destruct (NewDictionary_tracks_empty_dictionary manager0 machine0
              (mk_is_Some _ _ eq_refl)) as (dm1 & Hnew & _ & Hget & Hat & _).
  exists dm1. split_and!; [exact Hnew|exact Hget|exact (Hat 7)].
Defined.

Lemma creation_numbers_stay_unique_witness :
  go_entries (dictionaries manager0) = []
  ∧ ∃ A dm1 vm1,
      NewDictionary manager0 machine0 = Ok (A, dm1, vm1)
      ∧ creation_numbers_unique dm1
      ∧ ∃ dict, GetDictionary dm1 A = Ok dict
                ∧ Dictionary_InitNumber dict = 0.
Proof.
  split; [reflexivity|].
  destruct (NewDictionary manager0 machine0) as [[[A dm1] vm1]| |] eqn:Hnew;
    [|vm_compute in Hnew; discriminate Hnew..].
  exists A, dm1, vm1. split; [reflexivity|].
  assert (HA : A = MkAddress (-1) 0)
    by (vm_compute in Hnew; by injection Hnew as <- _ _).
  destruct (proj1 (proj2 (creation_numbers_stay_unique manager0)
                     (proj1 (creation_numbers_stay_unique manager0) eq_refl))
              machine0 A dm1 vm1 Hnew) as [Hunique Hdict].
  - rewrite HA. reflexivity.
  - vm_compute. reflexivity.
  - split; [exact Hunique|exact Hdict].
Defined.

Lemma dictionaries_made_never_panic_witness :
  dictionaries (ctx_DictionaryManager context0) = None
  ∧ dictionaries_made manager0
  ∧ (∃ A dm1 vm1,
       NewDictionary manager0 machine0 = Ok (A, dm1, vm1)
       ∧ dictionaries_made dm1)
  ∧ DictionaryManager_Set manager0 (MkAddress (-1) 0) 7 (FeltValue 70)
    = Err (NoDictionaryAtAddress (MkAddress (-1) 0)).
Proof.
  split; [reflexivity|].
  pose proof (proj1 (dictionaries_made_never_panic (VirtualMachine := RecordingVM))
                context0 true eq_refl) as Hmade.
  split; [exact Hmade|]. split.
  - exact (proj1 (proj2 (dictionaries_made_never_panic) manager0 Hmade)
             machine0).
  - reflexivity.
Defined.

Lemma Set_changes_one_key_witness :
  ∃ dm',
    DictionaryManager_Set two_dictionaries (MkAddress (-1) 3) 8 (FeltValue 80)
    = Ok dm'
    ∧ DictionaryManager_At dm' (MkAddress (-1) 0) 8 = Ok (FeltValue 80)
    ∧ DictionaryManager_At dm' (MkAddress (-1) 0) 7 = Ok (FeltValue 70)
    ∧ DictionaryManager_At dm' (MkAddress (-2) 0) 8 = Err (NoValueForKey 8).
Proof.
  destruct (DictionaryManager_Set two_dictionaries (MkAddress (-1) 3) 8
              (FeltValue 80)) as [dm'| |] eqn:Hset;
    [|vm_compute in Hset; discriminate Hset..].
  exists dm'. split; [reflexivity|].
  destruct (Set_changes_one_key _ _ _ _ _ Hset) as (_ & Hat & _).
  split_and!; rewrite Hat; reflexivity.
Defined.

(* ===================================================================== *)
(** * Further properties of the relocation *)
(* ===================================================================== *)

Lemma span_total_app (visited rest : list (Z * Dictionary)) :
  span_total (visited ++ rest) = span_total visited + span_total rest.
Proof.
  induction visited as [|entry visited IH]; simpl; [done|].
  unfold span_total in *. simpl. rewrite IH. lia.
Qed.

Lemma span_total_nonneg (visited : list (Z * Dictionary)) :
  Forall (λ entry, 0 <= Offset (end_ entry.2)) visited →
  0 <= span_total visited.
Proof.
  induction 1 as [|entry visited Hentry _ IH]; [done|].
  unfold span_total in *. simpl. lia.
Qed.

(** Without overflow the offset reached is the plain sum. *)
Lemma offset_after_exact (offset : Z) (visited : list (Z * Dictionary)) :
  0 <= offset →
  Forall (λ entry, 0 <= Offset (end_ entry.2)) visited →
  offset + span_total visited < 2 ^ 64 →
  offset_after offset visited = offset + span_total visited.
Proof.
  intros Hoffset Hall. revert offset Hoffset.
  induction Hall as [|entry visited Hentry Hall IH]; intros offset Hoffset.
  - unfold span_total. simpl. intros _. lia.
  - pose proof (span_total_nonneg _ Hall) as Hrest.
    unfold span_total in *. simpl. intros Hsum.
    unfold offset_after in *. simpl.
    rewrite advance_offset_sum, wrap_uint64_small by lia.
    rewrite IH by lia. lia.
Qed.

Lemma span_total_take (order : list (Z * Dictionary)) (i : nat) :
  Forall (λ entry, 0 <= Offset (end_ entry.2)) order →
  0 <= span_total (take i order) <= span_total order.
Proof.
  intros Hall. rewrite <- (take_drop i order) at 3.
  rewrite span_total_app.
  pose proof (span_total_nonneg (take i order)
                (Forall_take _ _ _ Hall)).
  pose proof (span_total_nonneg (drop i order)
                (Forall_drop _ _ _ Hall)).
  lia.
Qed.

Section RelocationLayout.
Context {VirtualMachine : Type} `{VMInterface VirtualMachine}.

(** X6. When the cells the dictionaries need, [end.Offset + 1] each, fit
    in a [uint64], a run lays the dictionaries out one after the other in
    the fresh segment: the rule of the dictionary visited at position [i]
    points at the sum of the spans of those visited before it, and the
    cells up to its [end] lie below the rule of every dictionary visited
    later and within the total. *)
Theorem relocated_dictionaries_do_not_overlap (dm : DictionaryManager)
    (vm : VirtualMachine) (order : list (Z * Dictionary)) :
  go_range (dictionaries dm) order →
  (∀ key dict,
     go_lookup (dictionaries dm) key = Some dict → 0 <= Offset (end_ dict)) →
  span_total (go_entries (dictionaries dm)) < 2 ^ 64 →
  let rules := relocation_rules (AllocateEmptySegment vm).1 order in
  RelocateAllDictionaries_in order vm
  = install_rules (AllocateEmptySegment vm).2 rules
  ∧ (∀ i key dict,
       order !! i = Some (key, dict) →
       ∃ target,
         rules !! i = Some (wrap_int64 (- key), target)
         ∧ Offset target = span_total (take i order)
         ∧ Offset target + Offset (end_ dict) < span_total order)
  ∧ (∀ i j key dict rule rule',
       (i < j)%nat →
       order !! i = Some (key, dict) →
       rules !! i = Some rule →
       rules !! j = Some rule' →
       Offset rule.2 + Offset (end_ dict) < Offset rule'.2).
Proof.
  intros Hrange Hends Htotal rules.
  assert (Hall : Forall (λ entry, 0 <= Offset (end_ entry.2)) order).
  { apply Forall_forall. intros [key dict] Hin. simpl.
    apply (Hends key). unfold go_range in Hrange. rewrite Hrange in Hin.
    destruct (dictionaries dm) as [dicts|]; simpl in *;
      [by apply elem_of_map_to_list|by apply elem_of_nil in Hin]. }
  assert (Hsame : span_total order = span_total (go_entries (dictionaries dm))).
  { unfold go_range in Hrange. unfold span_total.
    apply (foldr_permutation (=) _ 0); [|done].
    intros j1 a1 j2 a2 b _ _ _. lia. }
  assert (Hbase : Offset (AllocateEmptySegment vm).1 = 0)
    by apply AllocateEmptySegment_base.
  assert (Hoff : ∀ i, offset_after 0 (take i order) = span_total (take i order)).
  { intros i. pose proof (span_total_take order i Hall).
    rewrite offset_after_exact; [lia|lia|by apply Forall_take|lia]. }
  assert (Hrule : ∀ i key dict,
            order !! i = Some (key, dict) →
            rules !! i
            = Some (wrap_int64 (- key),
                    MkAddress (SegmentIndex (AllocateEmptySegment vm).1)
                      (span_total (take i order)))).
  { intros i key dict Hi. subst rules.
    rewrite (relocation_rules_lookup _ _ _ _ _ Hi). by rewrite Hbase, Hoff. }
  assert (Hnext : ∀ i key dict,
            order !! i = Some (key, dict) →
            span_total (take (S i) order)
            = span_total (take i order) + Offset (end_ dict) + 1).
  { intros i key dict Hi. rewrite (take_S_r _ _ _ Hi), span_total_app.
    unfold span_total at 2. simpl. lia. }
  split_and!.
  - unfold RelocateAllDictionaries_in. subst rules.
    destruct (AllocateEmptySegment vm) as [a vm1]. simpl.
    apply relocate_loop_rules.
  - intros i key dict Hi. eexists. split; [exact (Hrule i key dict Hi)|].
    simpl. split; [done|].
    pose proof (span_total_take order (S i) Hall) as Hle.
    rewrite (Hnext _ _ _ Hi) in Hle. lia.
  - intros i j key dict rule rule' Hij Hi Hri Hrj.
    rewrite (Hrule _ _ _ Hi) in Hri. injection Hri as <-. simpl.
    destruct (order !! j) as [[key' dict']|] eqn:Hj.
    2:{ subst rules. unfold relocation_rules in Hrj.
        rewrite list_lookup_imap, Hj in Hrj. done. }
    rewrite (Hrule _ _ _ Hj) in Hrj. injection Hrj as <-. simpl.
    assert (Hmono : span_total (take (S i) order) <= span_total (take j order)).
    { replace (take (S i) order) with (take (S i) (take j order))
        by (rewrite take_take; f_equal; lia).
      apply span_total_take. by apply Forall_take. }
    rewrite (Hnext _ _ _ Hi) in Hmono. lia.
Qed.

(** X7. The keys a run installs rules for are pairwise distinct (segment
    indices are [int]s), so no rule of the run replaces another; a
    manager that tracks nothing gets its fresh segment and no rule. *)
Theorem relocation_rule_keys_distinct (dm : DictionaryManager)
    (vm : VirtualMachine) (order : list (Z * Dictionary)) :
  go_range (dictionaries dm) order →
  (∀ key dict,
     go_lookup (dictionaries dm) key = Some dict →
     - 2 ^ 63 <= key < 2 ^ 63) →
  NoDup (relocation_rules (AllocateEmptySegment vm).1 order).*1
  ∧ (go_entries (dictionaries dm) = [] →
     RelocateAllDictionaries_in order vm = (AllocateEmptySegment vm).2).
Proof.
  intros Hrange Hint. split.
  - rewrite relocation_rules_keys.
    assert (Hkeys : NoDup order.*1).
    { unfold go_range in Hrange. rewrite Hrange.
      destruct (dictionaries dm) as [dicts|]; simpl;
        [apply NoDup_fst_map_to_list|constructor]. }
    assert (Hin : ∀ entry, entry ∈ order → - 2 ^ 63 <= entry.1 < 2 ^ 63).
    { intros [key dict] Hentry. simpl. apply (Hint key dict).
      unfold go_range in Hrange. rewrite Hrange in Hentry.
      destruct (dictionaries dm) as [dicts|]; simpl in *;
        [by apply elem_of_map_to_list|by apply elem_of_nil in Hentry]. }
    replace ((λ entry : Z * Dictionary, wrap_int64 (- entry.1)) <$> order)
      with ((λ key, wrap_int64 (- key)) <$> order.*1)
      by (by rewrite <- list_fmap_compose).
    apply NoDup_fmap_2_strong; [|done].
    intros k1 k2 Hk1 Hk2.
    apply list_elem_of_fmap in Hk1 as (e1 & -> & He1%Hin).
    apply list_elem_of_fmap in Hk2 as (e2 & -> & He2%Hin).
    unfold wrap_int64. intros Heq.
    assert (Hmod : (- e1.1 + 2 ^ 63) mod 2 ^ 64 = (- e2.1 + 2 ^ 63) mod 2 ^ 64)
      by lia.
    destruct (decide (e1.1 = - 2 ^ 63)) as [E1|E1];
      destruct (decide (e2.1 = - 2 ^ 63)) as [E2|E2]; [lia| | |].
    + rewrite E1 in Hmod. change (- - 2 ^ 63 + 2 ^ 63) with (2 ^ 64) in Hmod.
      rewrite Z_mod_same_full, Z.mod_small in Hmod by lia. lia.
    + rewrite E2 in Hmod. change (- - 2 ^ 63 + 2 ^ 63) with (2 ^ 64) in Hmod.
      rewrite Z_mod_same_full, Z.mod_small in Hmod by lia. lia.
    + rewrite !Z.mod_small in Hmod by lia. lia.
  - intros Hnil. unfold go_range in Hrange. rewrite Hnil in Hrange.
    apply Permutation_nil_r in Hrange as ->.
    unfold RelocateAllDictionaries_in.
    by destruct (AllocateEmptySegment vm).
Qed.
End RelocationLayout.

Lemma relocated_dictionaries_do_not_overlap_witness :
  go_range (dictionaries two_dictionaries) second_then_first
  ∧ span_total (go_entries (dictionaries two_dictionaries)) = 4
  ∧ relocation_rules (MkAddress 2 0) second_then_first !! 1%nat
    = Some (1, MkAddress 2 1)
  ∧ 0 + Offset (end_ dict_second) < 1.
Proof.
  split; [exact two_dictionaries_second_then_first|].
  split; [reflexivity|].
  destruct (relocated_dictionaries_do_not_overlap two_dictionaries machine2
              second_then_first two_dictionaries_second_then_first)
    as (_ & Hrule & Hbelow).
  - intros key dict Hl.
    destruct (decide (key = -1)) as [->|?];
      [vm_compute in Hl; injection Hl as <-; simpl; lia|].
    destruct (decide (key = -2)) as [->|?];
      [vm_compute in Hl; injection Hl as <-; simpl; lia|].
    simpl in Hl. rewrite !lookup_insert_ne in Hl by done. done.
  - vm_compute. reflexivity.
  - split; [reflexivity|].
    exact (Hbelow 0%nat 1%nat (-2) dict_second (2, MkAddress 2 0)
             (1, MkAddress 2 1) ltac:(lia) eq_refl eq_refl eq_refl).
Defined.

Lemma relocation_rule_keys_distinct_witness :
  go_range (dictionaries two_dictionaries) first_then_second
  ∧ NoDup (relocation_rules (MkAddress 2 0) first_then_second).*1.
Proof.
  split; [exact two_dictionaries_first_then_second|].
  refine (proj1 (relocation_rule_keys_distinct two_dictionaries machine2
                   first_then_second two_dictionaries_first_then_second _)).
  intros key dict Hl.
  destruct (decide (key = -1)) as [->|?]; [lia|].
  destruct (decide (key = -2)) as [->|?]; [lia|].
  simpl in Hl. rewrite !lookup_insert_ne in Hl by done. done.
Defined.

(* ===================================================================== *)
(** * Further properties of the squashed dictionary manager *)
(* ===================================================================== *)

Section SquashedStack.
Implicit Types (sdm : SquashedDictionaryManager) (ctx : HintRunnerContext)
  (key index : Z) (keys indices : list Z).

Lemma LastKey_empty sdm :
  slice_elems (Keys sdm) = [] → LastKey sdm = Err NoKeysLeft.
Proof. intros Hk. unfold LastKey. by rewrite Hk. Qed.

Lemma LastKey_last sdm keys key :
  slice_elems (Keys sdm) = keys ++ [key] → LastKey sdm = Ok key.
Proof.
  intros Hk. unfold LastKey. rewrite Hk.
  rewrite length_app, Nat.add_1_r. simpl.
  rewrite Nat.sub_0_r, lookup_app_r by lia.
  by rewrite Nat.sub_diag.
Qed.

(** [LastKey] reads the last element of the key list, if there is one. *)
Lemma LastKey_cases sdm :
  (slice_elems (Keys sdm) = [] ∧ LastKey sdm = Err NoKeysLeft)
  ∨ (∃ keys key, slice_elems (Keys sdm) = keys ++ [key]
                 ∧ LastKey sdm = Ok key).
Proof.
  destruct (slice_elems (Keys sdm)) as [|k0 l] eqn:Hk using rev_ind.
  - left. split; [done|]. by apply LastKey_empty.
  - right. exists l, k0. split; [done|]. by eapply LastKey_last.
Qed.

Lemma PopKey_last sdm keys key :
  slice_elems (Keys sdm) = keys ++ [key] →
  PopKey sdm
  = Ok (key, MkSquashedDictionaryManager (KeyToIndices sdm) (Some keys)).
Proof.
  intros Hk. unfold PopKey. rewrite (LastKey_last _ _ _ Hk). simpl.
  rewrite Hk, length_app, Nat.add_1_r. simpl.
  by rewrite Nat.sub_0_r, take_app_length.
Qed.

Lemma PopIndex_last sdm key indices index :
  LastKey sdm = Ok key →
  indices_of sdm key = indices ++ [index] →
  ∃ m, KeyToIndices sdm = Some m
       ∧ PopIndex sdm
         = Ok (index,
               MkSquashedDictionaryManager (Some (<[key := indices]> m))
                 (Keys sdm)).
Proof.
  intros Hlast Hi. unfold PopIndex. rewrite Hlast. simpl.
  rewrite Hi, length_app, Nat.add_1_r. simpl.
  rewrite Nat.sub_0_r, lookup_app_r by lia.
  rewrite Nat.sub_diag. simpl.
  destruct (KeyToIndices sdm) as [m|] eqn:Hm.
  - exists m. split; [done|]. simpl. by rewrite take_app_length.
  - unfold indices_of in Hi. rewrite Hm in Hi. simpl in Hi.
    by destruct indices.
Qed.

(** What a [PopIndex] leaves when the tail key has indices. *)
Lemma PopIndex_takes_last_index_aux sdm key indices index :
  LastKey sdm = Ok key →
  indices_of sdm key = indices ++ [index] →
  ∃ sdm',
    PopIndex sdm = Ok (index, sdm')
    ∧ Keys sdm' = Keys sdm
    ∧ indices_of sdm' key = indices
    ∧ ∀ key', key' ≠ key → indices_of sdm' key' = indices_of sdm key'.
Proof.
  intros Hlast Hi.
  destruct (PopIndex_last _ _ _ _ Hlast Hi) as (m & Hm & Hpop).
  eexists. split; [exact Hpop|]. split_and!; [done| |].
  - unfold indices_of. simpl. by rewrite lookup_insert_eq.
  - intros key' Hne. unfold indices_of. rewrite Hm. simpl.
    by rewrite lookup_insert_ne.
Qed.

(** X8. With no key left (a nil or an empty key list), the five reading
    and popping operations all fail with [NoKeysLeft]; [LastKey] fails
    only then, and never panics. *)
Theorem no_keys_left sdm :
  (slice_elems (Keys sdm) = [] →
   LastKey sdm = Err NoKeysLeft
   ∧ PopKey sdm = Err NoKeysLeft
   ∧ LastIndices sdm = Err NoKeysLeft
   ∧ LastIndex sdm = Err NoKeysLeft
   ∧ PopIndex sdm = Err NoKeysLeft)
  ∧ (∀ e, LastKey sdm = Err e → e = NoKeysLeft ∧ slice_elems (Keys sdm) = [])
  ∧ LastKey sdm ≠ Panic.
Proof.
  split_and!.
  - intros Hk. pose proof (LastKey_empty _ Hk) as Hlast.
    unfold PopKey, LastIndices, LastIndex, PopIndex. by rewrite Hlast.
  - intros e He. destruct (LastKey_cases sdm) as [[Hk Hl]|(ks & k & _ & Hl)];
      rewrite Hl in He; [by injection He as <-|done].
  - destruct (LastKey_cases sdm) as [[_ Hl]|(ks & k & _ & Hl)];
      by rewrite Hl.
Qed.

(** X9. [PopKey] takes the keys off the end of the key list: [n] calls,
    [n] at most the number of keys, return the last [n] keys from the
    last one backwards and leave the others, with the recorded indices
    untouched; one call more than there are keys fails with
    [NoKeysLeft]. *)
Theorem PopKey_times_returns_keys_backwards sdm keys (n : nat) :
  slice_elems (Keys sdm) = keys →
  ((n ≤ length keys)%nat →
   ∃ sdm',
     PopKey_times n sdm = Ok (reverse (drop (length keys - n) keys), sdm')
     ∧ slice_elems (Keys sdm') = take (length keys - n) keys
     ∧ KeyToIndices sdm' = KeyToIndices sdm)
  ∧ ((length keys < n)%nat → PopKey_times n sdm = Err NoKeysLeft).
Proof.
  revert sdm keys. induction n as [|n IH]; intros sdm keys Hk.
  - split; [|lia]. intros _. exists sdm. simpl.
    rewrite Nat.sub_0_r, drop_all, take_ge by lia. done.
  - destruct keys as [|k0 ks _] using rev_ind.
    + split; [simpl; lia|]. intros _. simpl.
      unfold PopKey. by rewrite (LastKey_empty _ Hk).
    + rewrite length_app, Nat.add_1_r. simpl.
      rewrite (PopKey_last _ _ _ Hk). simpl.
      set (sdm1 := MkSquashedDictionaryManager _ _).
      destruct (IH sdm1 ks eq_refl) as [Hle Hgt]. split.
      * intros Hn. destruct Hle as (sdm' & Hpop & Hkeys & Hmap); [lia|].
        exists sdm'. rewrite Hpop. simpl. split_and!.
        -- rewrite drop_app_le, reverse_snoc by lia. done.
        -- rewrite take_app_le by lia. done.
        -- done.
      * intros Hn. rewrite Hgt by lia. done.
Qed.

(** X10. [LastIndex] and [PopIndex] work on the end of the indices of the
    tail key: with none recorded both fail with [NoIndicesForKey]; with
    some, [LastIndex] returns the last one and [PopIndex] returns it and
    removes it, leaving the key list and the indices of the other keys
    as they were. *)
Theorem PopIndex_takes_last_index sdm key :
  LastKey sdm = Ok key →
  LastIndices sdm = Ok (indices_of sdm key)
  ∧ (indices_of sdm key = [] →
     LastIndex sdm = Err (NoIndicesForKey key)
     ∧ PopIndex sdm = Err (NoIndicesForKey key))
  ∧ (∀ indices index,
       indices_of sdm key = indices ++ [index] →
       LastIndex sdm = Ok index
       ∧ ∃ sdm',
           PopIndex sdm = Ok (index, sdm')
           ∧ Keys sdm' = Keys sdm
           ∧ indices_of sdm' key = indices
           ∧ ∀ key', key' ≠ key → indices_of sdm' key' = indices_of sdm key').
Proof.
  intros Hlast. split_and!.
  - unfold LastIndices. by rewrite Hlast.
  - intros Hnone. unfold LastIndex, PopIndex. rewrite Hlast. simpl.
    by rewrite Hnone.
  - intros indices index Hi. split.
    + unfold LastIndex. rewrite Hlast. simpl.
      rewrite Hi, length_app, Nat.add_1_r. simpl.
      rewrite Nat.sub_0_r, lookup_app_r by lia.
      by rewrite Nat.sub_diag.
    + by apply PopIndex_takes_last_index_aux.
Qed.

(** X11. On an initialized manager [Insert] adds the index at the end of
    the indices of its key and leaves those of every other key as they
    were; when the key is the tail key, a [PopIndex] right after it
    returns the index inserted and brings the indices of every key back
    to what they were. *)
Theorem Insert_then_PopIndex_restores sdm key index :
  is_Some (KeyToIndices sdm) →
  ∃ sdm1,
    Insert sdm key index = Ok sdm1
    ∧ indices_of sdm1 key = indices_of sdm key ++ [index]
    ∧ (∀ key', key' ≠ key → indices_of sdm1 key' = indices_of sdm key')
    ∧ (LastKey sdm = Ok key →
       ∃ sdm2,
         PopIndex sdm1 = Ok (index, sdm2)
         ∧ Keys sdm2 = Keys sdm
         ∧ ∀ key', indices_of sdm2 key' = indices_of sdm key').
Proof.
  intros [m Hm]. eexists. split; [by apply Insert_initialized|].
  set (sdm1 := MkSquashedDictionaryManager _ _).
  assert (H1 : indices_of sdm1 key = indices_of sdm key ++ [index]).
  { unfold indices_of at 1. simpl. by rewrite lookup_insert_eq. }
  assert (Hframe : ∀ key', key' ≠ key →
                           indices_of sdm1 key' = indices_of sdm key').
  { intros key' Hne. unfold indices_of. rewrite Hm. simpl.
    by rewrite lookup_insert_ne. }
  split_and!; [done..|].
  intros Hlast.
  assert (Hlast1 : LastKey sdm1 = Ok key) by done.
  destruct (PopIndex_takes_last_index_aux sdm1 key (indices_of sdm key) index
              Hlast1 H1) as (sdm2 & Hpop & Hkeys & Hkey & Hother).
  exists sdm2. split_and!; [done..|].
  intros key'. destruct (decide (key' = key)) as [->|Hne]; [done|].
  by rewrite Hother, Hframe.
Qed.
End SquashedStack.

Section SquashedRuns.
Implicit Types (sdm : SquashedDictionaryManager) (ctx : HintRunnerContext)
  (key index : Z) (keys indices : list Z).

Lemma LastKey_Keys sdm sdm' :
  Keys sdm' = Keys sdm → LastKey sdm' = LastKey sdm.
Proof. intros Hk. unfold LastKey. by rewrite Hk. Qed.

Lemma PopKey_no_panic sdm : PopKey sdm ≠ Panic.
Proof.
  unfold PopKey.
  destruct (LastKey_cases sdm) as [[_ Hl]|(ks & k & _ & Hl)]; by rewrite Hl.
Qed.

Lemma PopIndex_no_panic sdm : PopIndex sdm ≠ Panic.
Proof.
  destruct (LastKey_cases sdm) as [[_ Hl]|(ks & k & _ & Hl)].
  - unfold PopIndex. by rewrite Hl.
  - destruct (indices_of sdm k) as [|i l _] eqn:Hi using rev_ind.
    + unfold PopIndex. rewrite Hl. simpl. by rewrite Hi.
    + destruct (PopIndex_last _ _ _ _ Hl Hi) as (m & _ & Hpop).
      by rewrite Hpop.
Qed.

Lemma LastIndex_no_panic sdm : LastIndex sdm ≠ Panic.
Proof.
  unfold LastIndex.
  destruct (LastKey_cases sdm) as [[_ Hl]|(ks & k & _ & Hl)];
    rewrite Hl; simpl; [done|].
  destruct (indices_of sdm k) as [|i l _] using rev_ind; [done|].
  rewrite length_app, Nat.add_1_r. simpl.
  rewrite Nat.sub_0_r, lookup_app_r by lia.
  by rewrite Nat.sub_diag.
Qed.

(** X12. The only panic of the squashed dictionary manager is [Insert] on
    a nil map, and [Insert] returns no error: [PopKey], [LastIndices],
    [LastIndex] and [PopIndex] never panic, and once the map has been
    made no sequence of calls on the manager panics. *)
Theorem squashed_manager_panics_only_uninitialized :
  (∀ sdm key index,
     (Insert sdm key index = Panic ↔ KeyToIndices sdm = None)
     ∧ ∀ e, Insert sdm key index ≠ Err e)
  ∧ (∀ sdm,
       PopKey sdm ≠ Panic ∧ LastIndices sdm ≠ Panic
       ∧ LastIndex sdm ≠ Panic ∧ PopIndex sdm ≠ Panic)
  ∧ (∀ ctx calls,
       is_Some (KeyToIndices (ctx_SquashedDictionaryManager ctx)) →
       is_Some (squash_run ctx calls)).
Proof.
  split_and!.
  - intros sdm key index. destruct (KeyToIndices sdm) as [m|] eqn:Hm.
    + rewrite (Insert_initialized _ _ _ _ Hm). done.
    + unfold Insert. rewrite Hm. simpl. done.
  - intros sdm. split_and!.
    + apply PopKey_no_panic.
    + unfold LastIndices.
      destruct (LastKey_cases sdm) as [[_ Hl]|(ks & k & _ & Hl)];
        by rewrite Hl.
    + apply LastIndex_no_panic.
    + apply PopIndex_no_panic.
  - intros ctx calls. revert ctx.
    induction calls as [|c rest IH]; intros ctx Hinit; simpl; [done|].
    assert (Hcall : is_Some (squash_call ctx c)).
    { destruct c as [|key index| | |assigned]; simpl.
      - unfold InitializeSquashedDictionaryManager.
        by destruct (KeyToIndices (ctx_SquashedDictionaryManager ctx)),
             (Keys (ctx_SquashedDictionaryManager ctx)).
      - destruct Hinit as [m Hm]. by rewrite (Insert_initialized _ _ _ _ Hm).
      - pose proof (PopKey_no_panic (ctx_SquashedDictionaryManager ctx)).
        by destruct (PopKey _) as [[? ?]| |].
      - pose proof (PopIndex_no_panic (ctx_SquashedDictionaryManager ctx)).
        by destruct (PopIndex _) as [[? ?]| |].
      - done. }
    destruct Hcall as [ctx1 Hcall]. rewrite Hcall. apply IH.
    by eapply squash_call_initialized.
Qed.

(** X13. [PopIndex] takes the indices of the tail key off the end of
    their list: [n] calls, [n] at most their number, return the last [n]
    of them from the last one backwards and leave the others; one call
    more than there are indices fails with [NoIndicesForKey]. *)
Theorem PopIndex_times_returns_indices_backwards sdm key indices (n : nat) :
  LastKey sdm = Ok key →
  indices_of sdm key = indices →
  ((n ≤ length indices)%nat →
   ∃ sdm',
     PopIndex_times n sdm
     = Ok (reverse (drop (length indices - n) indices), sdm')
     ∧ indices_of sdm' key = take (length indices - n) indices
     ∧ Keys sdm' = Keys sdm)
  ∧ ((length indices < n)%nat →
     PopIndex_times n sdm = Err (NoIndicesForKey key)).
Proof.
  revert sdm indices. induction n as [|n IH]; intros sdm indices Hlast Hi.
  - split; [|lia]. intros _. exists sdm. simpl.
    rewrite Nat.sub_0_r, drop_all, take_ge by lia. done.
  - destruct indices as [|i0 l _] using rev_ind.
    + split; [simpl; lia|]. intros _. simpl.
      unfold PopIndex. rewrite Hlast. simpl. by rewrite Hi.
    + rewrite length_app, Nat.add_1_r. simpl.
      destruct (PopIndex_takes_last_index_aux _ _ _ _ Hlast Hi)
        as (sdm1 & Hpop & Hkeys & Hkey & _).
      rewrite Hpop. simpl.
      assert (Hlast1 : LastKey sdm1 = Ok key)
        by (by rewrite (LastKey_Keys _ _ Hkeys)).
      destruct (IH sdm1 l Hlast1 Hkey) as [Hle Hgt]. split.
      * intros Hn. destruct Hle as (sdm' & Htimes & Hrest & Hkeys'); [lia|].
        exists sdm'. rewrite Htimes. simpl. split_and!.
        -- rewrite drop_app_le, reverse_snoc by lia. done.
        -- rewrite take_app_le by lia. done.
        -- congruence.
      * intros Hn. rewrite Hgt by lia. done.
Qed.
End SquashedRuns.

Lemma no_keys_left_witness :
  slice_elems (Keys (MkSquashedDictionaryManager (Some ∅) (Some []))) = []
  ∧ PopKey (MkSquashedDictionaryManager (Some ∅) (Some [])) = Err NoKeysLeft
  ∧ PopIndex (MkSquashedDictionaryManager (Some ∅) None) = Err NoKeysLeft.
Proof.
  split; [reflexivity|]. split.
  - exact (proj1 (proj2 (proj1
             (no_keys_left (MkSquashedDictionaryManager (Some ∅) (Some [])))
             eq_refl))).
  - exact (proj2 (proj2 (proj2 (proj2 (proj1
             (no_keys_left (MkSquashedDictionaryManager (Some ∅) None))
             eq_refl))))).
Defined.

Lemma PopKey_times_returns_keys_backwards_witness :
  slice_elems (Keys squashed_7) = [9; 7]
  ∧ (∃ sdm', PopKey_times 2 squashed_7 = Ok ([7; 9], sdm')
             ∧ slice_elems (Keys sdm') = [])
  ∧ PopKey_times 3 squashed_7 = Err NoKeysLeft.
Proof.
  split; [reflexivity|]. split.
  - destruct (proj1 (PopKey_times_returns_keys_backwards squashed_7 [9; 7] 2
                       eq_refl) ltac:(simpl; lia))
      as (sdm' & Hpop & Hkeys & _).
    exists sdm'. split; [exact Hpop|exact Hkeys].
  - exact (proj2 (PopKey_times_returns_keys_backwards squashed_7 [9; 7] 3
                    eq_refl) ltac:(simpl; lia)).
Defined.

Lemma PopIndex_takes_last_index_witness :
  LastKey squashed_7 = Ok 7
  ∧ LastIndices squashed_7 = Ok []
  ∧ PopIndex squashed_7 = Err (NoIndicesForKey 7).
Proof.
  split; [reflexivity|].
  destruct (PopIndex_takes_last_index squashed_7 7 eq_refl)
    as (Hall & Hnone & _).
  split; [exact Hall|exact (proj2 (Hnone eq_refl))].
Defined.

Lemma Insert_then_PopIndex_restores_witness :
  is_Some (KeyToIndices squashed_7)
  ∧ ∃ sdm1 sdm2,
      Insert squashed_7 7 3 = Ok sdm1
      ∧ indices_of sdm1 7 = [3]
      ∧ PopIndex sdm1 = Ok (3, sdm2)
      ∧ indices_of sdm2 7 = [].
Proof.
  split; [by eexists|].
  destruct (Insert_then_PopIndex_restores squashed_7 7 3
              (mk_is_Some _ _ eq_refl))
    as (sdm1 & Hins & Hkey & _ & Hpop).
  destruct (Hpop eq_refl) as (sdm2 & Hpop2 & _ & Hsame).
  exists sdm1, sdm2.
  split_and!; [exact Hins|exact Hkey|exact Hpop2|exact (Hsame 7)].
Defined.

Lemma squashed_manager_panics_only_uninitialized_witness :
  Insert (MkSquashedDictionaryManager None None) 7 3 = Panic
  ∧ is_Some (KeyToIndices
               (ctx_SquashedDictionaryManager (with_sdm context0 squashed_7)))
  ∧ is_Some (squash_run (with_sdm context0 squashed_7)
               [CallPopIndex; CallInsert 7 3; CallPopKey; CallPopKey;
                CallPopKey; CallInitialize]).
Proof.
  split.
  - exact (proj2 (proj1 (proj1 squashed_manager_panics_only_uninitialized
                           (MkSquashedDictionaryManager None None) 7 3))
             eq_refl).
  - split; [by eexists|].
    apply (proj2 (proj2 squashed_manager_panics_only_uninitialized)).
    by eexists.
Defined.

Lemma PopIndex_times_returns_indices_backwards_witness :
  LastKey squashed_7_indexed = Ok 7
  ∧ (∃ sdm',
       PopIndex_times 2 squashed_7_indexed
       = Ok ([11; 9], sdm')
       ∧ indices_of sdm' 7 = [3])
  ∧ PopIndex_times 4 squashed_7_indexed
    = Err (NoIndicesForKey 7).
Proof.
  split; [reflexivity|]. split.
  - destruct (proj1 (PopIndex_times_returns_indices_backwards
                       squashed_7_indexed
                       7 [3; 9; 11] 2 eq_refl eq_refl) ltac:(simpl; lia))
      as (sdm' & Hpop & Hrest & _).
    exists sdm'. split; [exact Hpop|exact Hrest].
  - exact (proj2 (PopIndex_times_returns_indices_backwards
                    squashed_7_indexed
                    7 [3; 9; 11] 4 eq_refl eq_refl) ltac:(simpl; lia)).
Defined.

(* ===================================================================== *)
(** * Further properties of the binding of references *)
(* ===================================================================== *)

Lemma elem_of_map_keys {V : Type} (m : gmap string V) (name : string) :
  name ∈ (map_to_list m).*1 ↔ is_Some (m !! name).
Proof.
  rewrite list_elem_of_fmap. split.
  - intros ([n v] & -> & Hin%elem_of_map_to_list). by eexists.
  - intros [v Hv]. exists (name, v). split; [done|].
    by apply elem_of_map_to_list.
Qed.

Section BindingFacts.
Context {hinter_Reference : Type}.
Variable ParseIdentifier : string → Outcome hinter_Reference.
Variable ApplyApTracking :
  hinter_Reference → ApTracking → ApTracking → hinter_Reference.
Variables (zeroProgram : ZeroProgram) (hint : Hint) (hintPC : Z).
Implicit Types (names : list string)
  (resolver : gmap string hinter_Reference).

Local Abbreviation bind :=
  (bind_reference ParseIdentifier ApplyApTracking zeroProgram hint hintPC).
Local Abbreviation loop :=
  (getParameters_loop ParseIdentifier ApplyApTracking zeroProgram hint hintPC).
Local Abbreviation run :=
  (getParameters ParseIdentifier ApplyApTracking zeroProgram hint hintPC).

(** One iteration: bind the name, then add it to the resolver. *)
Lemma getParameters_loop_cons name names resolver :
  loop (name :: names) resolver
  = param ← bind name;
    resolver' ← AddReference resolver name param;
    loop names resolver'.
Proof.
  unfold bind_reference. simpl.
  destruct (applicable_reference zeroProgram name hintPC); simpl; [|done..].
  by destruct (ParseIdentifier _).
Qed.

Lemma getParameters_loop_Ok names resolver result :
  loop names resolver = Ok result →
  (∀ name, name ∈ names → resolver !! name = None)
  ∧ (∀ name, name ∈ names →
             ∃ param, bind name = Ok param ∧ result !! name = Some param)
  ∧ (∀ name, name ∉ names → result !! name = resolver !! name).
Proof.
  revert resolver. induction names as [|name0 rest IH]; intros resolver.
  - simpl. intros [= <-]. split_and!; [|by intros ? ?%elem_of_nil|done].
    by intros ? ?%elem_of_nil.
  - rewrite getParameters_loop_cons.
    destruct (bind name0) as [param| |] eqn:Hbind; simpl; [|done..].
    unfold AddReference.
    destruct (resolver !! name0) eqn:Hfree; simpl; [done|].
    intros Hrest. destruct (IH _ Hrest) as (Hnone & Hsome & Hother).
    assert (Hout : name0 ∉ rest).
    { intros Hin. apply Hnone in Hin. by rewrite lookup_insert_eq in Hin. }
    split_and!.
    + intros name [->|Hin]%elem_of_cons; [done|].
      apply Hnone in Hin. rewrite lookup_insert in Hin.
      by case_decide.
    + intros name [->|Hin]%elem_of_cons; [|by apply Hsome].
      exists param. split; [done|].
      by rewrite (Hother _ Hout), lookup_insert_eq.
    + intros name Hname. apply not_elem_of_cons in Hname as [Hne Hname].
      by rewrite (Hother _ Hname), lookup_insert_ne.
Qed.

Lemma getParameters_loop_total names resolver :
  NoDup names →
  (∀ name, name ∈ names → resolver !! name = None) →
  (∀ name, name ∈ names → ∃ param, bind name = Ok param) →
  ∃ result, loop names resolver = Ok result.
Proof.
  intros Hnodup. revert resolver.
  induction Hnodup as [|name0 rest Hout Hnodup IH]; intros resolver Hfree Hbind.
  - by eexists.
  - rewrite getParameters_loop_cons.
    destruct (Hbind name0) as [param ->]; [by left|]. simpl.
    unfold AddReference. rewrite (Hfree name0) by by left. simpl.
    apply IH.
    + intros name Hin. rewrite lookup_insert_ne by (by intros ->).
      apply Hfree. by right.
    + intros name Hin. apply Hbind. by right.
Qed.

(** A run that fails stops at a name that does not bind, with that name's
    error or panic: adding a name never fails. *)
Lemma getParameters_loop_fails names resolver :
  NoDup names →
  (∀ name, name ∈ names → resolver !! name = None) →
  (∀ e, loop names resolver = Err e →
        ∃ name, name ∈ names ∧ bind name = Err e)
  ∧ (loop names resolver = Panic →
     ∃ name, name ∈ names ∧ bind name = Panic).
Proof.
  intros Hnodup. revert resolver.
  induction Hnodup as [|name0 rest Hout Hnodup IH]; intros resolver Hfree.
  - split; [intros e|]; done.
  - rewrite getParameters_loop_cons.
    destruct (bind name0) as [param| |] eqn:Hbind; simpl.
    + unfold AddReference. rewrite (Hfree name0) by by left. simpl.
      destruct (IH (<[name0 := param]> resolver)) as [Herr Hpanic].
      { intros name Hin. rewrite lookup_insert_ne by (by intros ->).
        apply Hfree. by right. }
      split.
      * intros e' (name & Hin & Hb)%Herr. exists name. split; [by right|done].
      * intros (name & Hin & Hb)%Hpanic. exists name. split; [by right|done].
    + split; [|done]. intros e' [= <-]. exists name0. split; [by left|done].
    + split; [done|]. intros _. exists name0. split; [by left|done].
Qed.

Lemma run_names names :
  names ≡ₚ (map_to_list (ReferenceIds (FlowTrackingData_ hint))).*1 →
  NoDup names
  ∧ ∀ name, name ∈ names
            ↔ is_Some (ReferenceIds (FlowTrackingData_ hint) !! name).
Proof.
  intros Hperm. split.
  - rewrite Hperm. apply NoDup_fst_map_to_list.
  - intros name. rewrite Hperm. apply elem_of_map_keys.
Qed.

(** What a resolver returned by [getParameters] holds for the names the
    hint refers to and for the others. *)
Lemma getParameters_Ok_facts (result : gmap string hinter_Reference) :
  run (Ok result) →
  (∀ name,
     is_Some (ReferenceIds (FlowTrackingData_ hint) !! name) →
     ∃ param, bind name = Ok param ∧ result !! name = Some param)
  ∧ (∀ name,
       ¬ is_Some (ReferenceIds (FlowTrackingData_ hint) !! name) →
       result !! name = None).
Proof.
  intros (names & Hperm & Hloop). symmetry in Hloop.
  destruct (run_names _ Hperm) as [_ Hnames].
  destruct (getParameters_loop_Ok _ _ _ Hloop) as (_ & Hsome & Hother).
  split.
  - intros name Hin%Hnames. by apply Hsome.
  - intros name Hout. rewrite Hother by (by rewrite Hnames).
    apply lookup_empty.
Qed.

(** Every name the hint refers to binds when a resolver is returned. *)
Lemma getParameters_loop_Ok_names (result : gmap string hinter_Reference) :
  run (Ok result) →
  ∀ name, is_Some (ReferenceIds (FlowTrackingData_ hint) !! name) →
          ∃ param, bind name = Ok param.
Proof.
  intros Hrun name Hin.
  destruct (proj1 (getParameters_Ok_facts _ Hrun) _ Hin) as (param & Hb & _).
  by exists param.
Qed.

(** No run returns anything else than a resolver once returned. *)
Lemma getParameters_every_run (result : gmap string hinter_Reference) :
  run (Ok result) → ∀ other, run other → other = Ok result.
Proof.
  intros Hrun other (names' & Hperm' & ->).
  destruct (getParameters_Ok_facts _ Hrun) as [Hsome Hnone].
  destruct (run_names _ Hperm') as [Hnodup' Hnames'].
  destruct (getParameters_loop_total names' NewReferenceResolver Hnodup')
    as [result' Hloop'].
  { intros name _. apply lookup_empty. }
  { intros name Hin%Hnames'. destruct (Hsome _ Hin) as (param & Hb & _).
    by exists param. }
  rewrite Hloop'. f_equal.
  assert (Hrun' : run (Ok result')) by (by exists names').
  destruct (getParameters_Ok_facts _ Hrun') as [Hsome' Hnone'].
  apply map_eq. intros name.
  destruct (decide (is_Some (ReferenceIds (FlowTrackingData_ hint) !! name)))
    as [Hin|Hout].
  - destruct (Hsome _ Hin) as (param & Hb & ->).
    destruct (Hsome' _ Hin) as (param' & Hb' & ->). congruence.
  - by rewrite (Hnone _ Hout), (Hnone' _ Hout).
Qed.

(** X14. When [getParameters] returns a resolver, the resolver binds
    exactly the names of the hint's [ReferenceIds], each to its applicable
    reference parsed and adjusted to the hint's ap tracking, and every
    run returns that same resolver, whatever the order in which it visits
    the names. *)
Theorem getParameters_binds_every_name
    (result : gmap string hinter_Reference) :
  getParameters ParseIdentifier ApplyApTracking zeroProgram hint hintPC
    (Ok result) →
  (∀ name param,
     result !! name = Some param
     ↔ is_Some (ReferenceIds (FlowTrackingData_ hint) !! name)
       ∧ bind name = Ok param)
  ∧ (∀ other,
       getParameters ParseIdentifier ApplyApTracking zeroProgram hint hintPC
         other →
       other = Ok result).
Proof.
  intros Hrun. destruct (getParameters_Ok_facts _ Hrun) as [Hsome Hnone].
  split; [|by apply getParameters_every_run].
  intros name param. split.
  - intros Hres.
    destruct (decide (is_Some
                (ReferenceIds (FlowTrackingData_ hint) !! name)))
      as [Hin|Hout].
    + destruct (Hsome _ Hin) as (param' & Hb & Hr).
      split; [done|congruence].
    + by rewrite (Hnone _ Hout) in Hres.
  - intros [Hin Hb]. destruct (Hsome _ Hin) as (param' & Hb' & Hr).
    congruence.
Qed.

(** A run fails with what one of the names binds to. *)
Lemma getParameters_failure :
  (∀ e, run (Err e) →
        ∃ name, is_Some (ReferenceIds (FlowTrackingData_ hint) !! name)
                ∧ bind name = Err e)
  ∧ (run Panic →
     ∃ name, is_Some (ReferenceIds (FlowTrackingData_ hint) !! name)
             ∧ bind name = Panic).
Proof.
  split.
  - intros e (names & Hperm & Hloop). symmetry in Hloop.
    destruct (run_names _ Hperm) as [Hnodup Hnames].
    destruct (getParameters_loop_fails names NewReferenceResolver Hnodup)
      as [Herr _]; [intros name _; apply lookup_empty|].
    destruct (Herr _ Hloop) as (name & Hin%Hnames & Hb). by exists name.
  - intros (names & Hperm & Hloop). symmetry in Hloop.
    destruct (run_names _ Hperm) as [Hnodup Hnames].
    destruct (getParameters_loop_fails names NewReferenceResolver Hnodup)
      as [_ Hpanic]; [intros name _; apply lookup_empty|].
    destruct (Hpanic Hloop) as (name & Hin%Hnames & Hb). by exists name.
Qed.

(** X15. [getParameters] succeeds exactly when every name of the hint's
    [ReferenceIds] binds: then a run returns a resolver, and otherwise a
    run returns the error (or panic) that one of the names binds to, never
    an error of its own. In particular a hint that refers to a name the
    identifier table lacks never gets a resolver. *)
Theorem getParameters_fails_on_unbound_name :
  ((∀ name, is_Some (ReferenceIds (FlowTrackingData_ hint) !! name) →
            ∃ param, bind name = Ok param) →
   ∃ result,
     getParameters ParseIdentifier ApplyApTracking zeroProgram hint hintPC
       (Ok result))
  ∧ (∀ e,
       getParameters ParseIdentifier ApplyApTracking zeroProgram hint hintPC
         (Err e) →
       ∃ name, is_Some (ReferenceIds (FlowTrackingData_ hint) !! name)
               ∧ bind name = Err e)
  ∧ (getParameters ParseIdentifier ApplyApTracking zeroProgram hint hintPC
       Panic →
     ∃ name, is_Some (ReferenceIds (FlowTrackingData_ hint) !! name)
             ∧ bind name = Panic)
  ∧ (∀ name,
       is_Some (ReferenceIds (FlowTrackingData_ hint) !! name) →
       Identifiers zeroProgram !! name = None →
       bind name = Err (MissingIdentifier name)
       ∧ ∀ result,
           ¬ getParameters ParseIdentifier ApplyApTracking zeroProgram hint
               hintPC (Ok result)).
Proof.
  split_and!.
  - intros Hbind.
    destruct (run_names (map_to_list
                (ReferenceIds (FlowTrackingData_ hint))).*1 (reflexivity _))
      as [Hnodup Hnames].
    destruct (getParameters_loop_total _ NewReferenceResolver Hnodup)
      as [result Hloop].
    { intros name _. apply lookup_empty. }
    { intros name Hin%Hnames. by apply Hbind. }
    exists result, (map_to_list (ReferenceIds (FlowTrackingData_ hint))).*1.
    by split.
  - apply getParameters_failure.
  - apply getParameters_failure.
  - intros name Hin Hmissing.
    assert (Hb : bind name = Err (MissingIdentifier name)).
    { unfold bind_reference, applicable_reference. by rewrite Hmissing. }
    split; [done|].
    intros result (names & Hperm & Hloop). symmetry in Hloop.
    destruct (run_names _ Hperm) as [_ Hnames].
    destruct (getParameters_loop_Ok _ _ _ Hloop) as (_ & Hsome & _).
    apply Hnames in Hin. destruct (Hsome _ Hin) as (param & Hb' & _).
    congruence.
Qed.
End BindingFacts.

Lemma getParameters_binds_every_name_witness :
  getParameters parse_length keep_tracking program_0_5_10 hint_x 7
    (Ok {[ "x" := felt_operand
                    (Z.of_nat (String.length "[cast(ap, felt*)]")) ]})
  ∧ bind_reference parse_length keep_tracking program_0_5_10 hint_x 7 "x"
    = Ok (felt_operand 17)
  ∧ ∀ other,
      getParameters parse_length keep_tracking program_0_5_10 hint_x 7 other →
      other = Ok {[ "x" := felt_operand 17 ]}.
Proof.
  assert (Hrun : getParameters parse_length keep_tracking program_0_5_10
                   hint_x 7
                   (Ok {[ "x" := felt_operand
                            (Z.of_nat (String.length "[cast(ap, felt*)]")) ]})).
  { exists ["x"]. split; [|reflexivity].
    simpl. by rewrite map_to_list_singleton. }
  split; [exact Hrun|].
  destruct (getParameters_binds_every_name parse_length keep_tracking
              program_0_5_10 hint_x 7 _ Hrun) as [Hlookup Hsame].
  split; [|exact Hsame].
  exact (proj2 (proj1 (Hlookup "x" (felt_operand 17)) eq_refl)).
Defined.

Lemma getParameters_fails_on_unbound_name_witness :
  is_Some (ReferenceIds (FlowTrackingData_ hint_x_y) !! "y")
  ∧ Identifiers program_0_5_10 !! "y" = None
  ∧ bind_reference parse_length keep_tracking program_0_5_10 hint_x_y 7 "y"
    = Err (MissingIdentifier "y")
  ∧ ¬ getParameters parse_length keep_tracking program_0_5_10 hint_x_y 7
        (Ok ∅).
Proof.
  split; [by eexists|]. split; [reflexivity|].
  destruct (proj2 (proj2 (proj2
              (getParameters_fails_on_unbound_name parse_length keep_tracking
                 program_0_5_10 hint_x_y 7)))
              "y" (mk_is_Some _ _ eq_refl) eq_refl) as [Hbind Hnever].
  split; [exact Hbind|exact (Hnever ∅)].
Defined.

(* ===================================================================== *)
(** * Further properties of the hinters *)
(* ===================================================================== *)

Section MoreHints.
Context {VirtualMachine : Type} `{VMInterface VirtualMachine}.
Context {hinter_Reference : Type}.
Variable AsResOperander :
  hinter_Reference → option (ResOperander VirtualMachine).
Variable Errorf : string → list Z → Error.
Implicit Types (resolver : gmap string hinter_Reference)
  (vm : VirtualMachine) (ctx : HintRunnerContext).

(** X16. When [a] is bound to an operand, the hinter built for
    [TestAssign] writes, at the address of the allocation pointer, the
    value the operand resolves to, whether a field element or an address,
    and it returns the operand's error, without writing, when the operand
    does not resolve; when [a] is bound to a reference that is not an
    operand the hinter is not built. *)
Theorem TestAssign_copies_value resolver (arg : hinter_Reference) :
  GetReference resolver "a" = Ok arg →
  (AsResOperander arg = None →
   createTestAssignHinter AsResOperander Errorf resolver
   = Err (Errorf "expected a ResOperander reference" []))
  ∧ (∀ a, AsResOperander arg = Some a →
       ∃ hint,
         createTestAssignHinter AsResOperander Errorf resolver = Ok hint
         ∧ Name hint = "TestAssign"
         ∧ ∀ vm ctx,
             (∀ v, Resolve a vm = Ok v →
                   Execute hint vm ctx = WriteToAddress vm (AddressAp vm) v)
             ∧ (∀ e, Resolve a vm = Err e → Execute hint vm ctx = Err e)).
Proof.
  intros Harg. unfold createTestAssignHinter. rewrite Harg. simpl. split.
  - by intros ->.
  - intros a ->. eexists. split_and!; [done..|].
    intros vm ctx. unfold Execute, TestAssign_Op. simpl.
    split; [intros v Hv|intros e He]; by rewrite ?Hv, ?He.
Qed.

(** X17. When [a] and [b] are bound and resolve to field elements, the
    hinter built for [AssertLtFelt] returns the machine as it was given
    when [a < b], and otherwise fails with the error that prints both;
    it succeeds exactly when [IsLeFelt] on [b] and [a] writes 1. *)
Theorem AssertLtFelt_checks_order resolver
    (argA argB : ResOperander VirtualMachine) :
  GetResOperander AsResOperander resolver "a" = Ok argA →
  GetResOperander AsResOperander resolver "b" = Ok argB →
  ∃ hint,
    createAssertLtFeltHinter AsResOperander Errorf resolver = Ok hint
    ∧ Name hint = "AssertLtFelt"
    ∧ ∀ vm ctx (a b : Z),
        Resolve argA vm = Ok (FeltValue a) →
        Resolve argB vm = Ok (FeltValue b) →
        (a < b →
         Execute hint vm ctx = Ok vm
         ∧ IsLeFelt_Op argB argA vm ctx
           = WriteToAddress vm (AddressAp vm) (FeltValue 1))
        ∧ (b <= a →
           Execute hint vm ctx
           = Err (Errorf "a = %v is not less than b = %v" [a; b])
           ∧ IsLeFelt_Op argB argA vm ctx
             = WriteToAddress vm (AddressAp vm) (FeltValue 0)).
Proof.
  intros HA HB. unfold createAssertLtFeltHinter. rewrite HA. simpl.
  rewrite HB. simpl. eexists. split_and!; [done..|].
  intros vm ctx a b Ha Hb. unfold Execute, AssertLtFelt_Op. simpl.
  rewrite Ha. simpl. rewrite Hb. simpl.
  rewrite (IsLeFelt_Op_resolved argB argA vm ctx b a Hb Ha).
  unfold FeltLt. split; intros Hab.
  - rewrite (proj2 (Z.ltb_lt a b) Hab). simpl.
    by rewrite (proj2 (Z.leb_gt b a) Hab).
  - rewrite (proj2 (Z.ltb_ge a b) Hab). simpl.
    by rewrite (proj2 (Z.leb_le b a) Hab).
Qed.
End MoreHints.

Lemma TestAssign_copies_value_witness :
  GetReference resolver_of_ap "a"
  = Ok (MkResOperander (λ vm : RecordingVM, Ok (AddressValue (rvm_ap vm))))
  ∧ ∃ hint,
      createTestAssignHinter Some errorf_message resolver_of_ap = Ok hint
      ∧ Execute hint machine0 context0
        = Ok (MkRecordingVM (MkAddress 1 10) 2 0
                [(MkAddress 1 10, AddressValue (MkAddress 1 10))] []).
Proof.
  split; [reflexivity|].
  destruct (proj2 (TestAssign_copies_value Some errorf_message resolver_of_ap
                     _ eq_refl) _ eq_refl) as (hint & Hc & _ & Hop).
  exists hint. split; [exact Hc|].
  exact (proj1 (Hop machine0 context0) _ eq_refl).
Defined.

Lemma AssertLtFelt_checks_order_witness :
  GetResOperander Some (resolver_of [("a", 3); ("b", 5)]) "a"
  = Ok (felt_operand 3)
  ∧ (∃ hint,
       createAssertLtFeltHinter Some errorf_message
         (resolver_of [("a", 3); ("b", 5)]) = Ok hint
       ∧ Execute hint machine0 context0 = Ok machine0)
  ∧ (∃ hint,
       createAssertLtFeltHinter Some errorf_message
         (resolver_of [("a", 5); ("b", 5)]) = Ok hint
       ∧ Execute hint machine0 context0
         = Err (errorf_message "a = %v is not less than b = %v" [5; 5])).
Proof.
  split; [reflexivity|]. split.
  - destruct (AssertLtFelt_checks_order Some errorf_message
                (resolver_of [("a", 3); ("b", 5)])
                (felt_operand 3) (felt_operand 5) eq_refl eq_refl)
      as (hint & Hc & _ & Hop).
    exists hint. split; [exact Hc|].
    exact (proj1 (proj1 (Hop machine0 context0 3 5 eq_refl eq_refl)
                    ltac:(lia))).
  - destruct (AssertLtFelt_checks_order Some errorf_message
                (resolver_of [("a", 5); ("b", 5)])
                (felt_operand 5) (felt_operand 5) eq_refl eq_refl)
      as (hint & Hc & _ & Hop).
    exists hint. split; [exact Hc|].
    exact (proj1 (proj2 (Hop machine0 context0 5 5 eq_refl eq_refl)
                    ltac:(lia))).
Defined.

(* ===================================================================== *)
(** * Properties of the dispatch and of the hint table *)
(* ===================================================================== *)

Section DispatchFacts.
Context {VirtualMachine : Type} `{VMInterface VirtualMachine}.
Context {hinter_Reference CellRefer : Type}.
Variable ParseIdentifier : string → Outcome hinter_Reference.
Variable ApplyApTracking :
  hinter_Reference → ApTracking → ApTracking → hinter_Reference.
Variable AsResOperander :
  hinter_Reference → option (ResOperander VirtualMachine).
Variable Errorf : string → list Z → Error.
Variable ApCellRef : Z → CellRefer.
Variables allocSegmentCode isLeFeltCode assertLtFeltCode testAssignCode
  assertLeFeltCode assertLeFeltExcluded0Code assertLeFeltExcluded1Code
  assertLeFeltExcluded2Code isNNCode isNNOutOfRangeCode : string.
Variable ParseUint : string → Outcome Z.
Variable program : ZeroProgram.

Local Abbreviation known_codes :=
  [allocSegmentCode; isLeFeltCode; assertLtFeltCode; testAssignCode;
   assertLeFeltCode; assertLeFeltExcluded0Code; assertLeFeltExcluded1Code;
   assertLeFeltExcluded2Code; isNNCode; isNNOutOfRangeCode].
Local Abbreviation hinter_for :=
  (hint_of_code AsResOperander Errorf ApCellRef
     allocSegmentCode isLeFeltCode assertLtFeltCode testAssignCode
     assertLeFeltCode assertLeFeltExcluded0Code assertLeFeltExcluded1Code
     assertLeFeltExcluded2Code isNNCode isNNOutOfRangeCode).
Local Abbreviation built :=
  (GetHintFromCode ParseIdentifier ApplyApTracking AsResOperander Errorf
     ApCellRef
     allocSegmentCode isLeFeltCode assertLtFeltCode testAssignCode
     assertLeFeltCode assertLeFeltExcluded0Code assertLeFeltExcluded1Code
     assertLeFeltExcluded2Code isNNCode isNNOutOfRangeCode program).
Local Abbreviation bound :=
  (getParameters ParseIdentifier ApplyApTracking program).
Local Abbreviation bind :=
  (bind_reference ParseIdentifier ApplyApTracking program).
Local Abbreviation counter_hints :=
  (hints_of_counter ParseIdentifier ApplyApTracking AsResOperander Errorf
     ApCellRef
     allocSegmentCode isLeFeltCode assertLtFeltCode testAssignCode
     assertLeFeltCode assertLeFeltExcluded0Code assertLeFeltExcluded1Code
     assertLeFeltExcluded2Code isNNCode isNNOutOfRangeCode program).
Local Abbreviation entries_hints :=
  (hints_of_entries ParseIdentifier ApplyApTracking AsResOperander Errorf
     ApCellRef
     allocSegmentCode isLeFeltCode assertLtFeltCode testAssignCode
     assertLeFeltCode assertLeFeltExcluded0Code assertLeFeltExcluded1Code
     assertLeFeltExcluded2Code isNNCode isNNOutOfRangeCode ParseUint program).
Local Abbreviation zero_hints :=
  (GetZeroHints ParseIdentifier ApplyApTracking AsResOperander Errorf
     ApCellRef
     allocSegmentCode isLeFeltCode assertLtFeltCode testAssignCode
     assertLeFeltCode assertLeFeltExcluded0Code assertLeFeltExcluded1Code
     assertLeFeltExcluded2Code isNNCode isNNOutOfRangeCode ParseUint program).

(** A run of [GetHintFromCode] is a run of [getParameters] followed by
    the dispatch. *)
Lemma GetHintFromCode_runs rawHint hintPC result :
  built rawHint hintPC result
  ↔ ∃ resolved,
      bound rawHint hintPC resolved
      ∧ result = resolver ← resolved; hinter_for (Code rawHint) resolver.
Proof.
  split.
  - intros (names & Hperm & ->). eexists. split; [by exists names|done].
  - intros (resolved & (names & Hperm & ->) & ->). by exists names.
Qed.

(** X18. [GetHintFromCode] binds the references before it looks at the
    code. When a name the hint refers to does not bind, no hinter is
    built, whatever the code, also for a hint that uses no operand; when
    [getParameters] returns a resolver, every run returns what the
    dispatch gives on that resolver, which is the error [Not identified
    hint] for a code that is none of the ten. *)
Theorem GetHintFromCode_binds_first (rawHint : Hint) (hintPC : Z) :
  (∀ name,
     is_Some (ReferenceIds (FlowTrackingData_ rawHint) !! name) →
     (∀ param, bind rawHint hintPC name ≠ Ok param) →
     ∀ hinter, ¬ built rawHint hintPC (Ok hinter))
  ∧ (∀ resolver,
       bound rawHint hintPC (Ok resolver) →
       (∀ result,
          built rawHint hintPC result
          ↔ result = hinter_for (Code rawHint) resolver)
       ∧ (Code rawHint ∉ known_codes →
          built rawHint hintPC (Err (Errorf "Not identified hint" [])))).
Proof.
  split.
  - intros name Hin Hunbound hinter
      (resolved & Hrun & Hres)%GetHintFromCode_runs.
    destruct resolved as [resolver| |]; simpl in Hres; [|done..].
    destruct (getParameters_loop_Ok_names ParseIdentifier ApplyApTracking
                program rawHint hintPC resolver Hrun name Hin)
      as [param Hb].
    by apply (Hunbound param).
  - intros resolver Hrun. split.
    + intros result. rewrite GetHintFromCode_runs. split.
      * intros (resolved & Hrun' & ->).
        by rewrite (getParameters_every_run _ _ _ _ _ _ Hrun _ Hrun').
      * intros ->. by exists (Ok resolver).
    + intros Hunknown. apply GetHintFromCode_runs.
      exists (Ok resolver). split; [done|]. simpl.
      unfold hint_of_code.
      repeat match goal with
             | |- context [String.eqb ?a ?b] =>
                 destruct (String.eqb_spec a b) as [Heq|_];
                 [exfalso; apply Hunknown; rewrite Heq;
                  repeat first [by left|right]|]
             end.
      done.
Qed.

(** X21. With pairwise distinct codes, each code of a hint that takes no
    operand builds its hinter from any resolver, also one that binds
    nothing: the segment allocation and the two first arc exclusions on
    the cell at [ap], and [AssertLeFeltExcluded2], which returns the
    machine as it was given when the excluded arc of the run context is
    2 and fails otherwise; the code of [AssertLeFelt] builds its hinter
    from the operands [a], [b] and [range_check_ptr]. *)
Theorem hint_of_code_without_operands
    (resolver : gmap string hinter_Reference) :
  NoDup known_codes →
  hinter_for allocSegmentCode resolver = Ok (AllocSegment (ApCellRef 0))
  ∧ hinter_for assertLeFeltExcluded0Code resolver
    = Ok (AssertLeIsFirstArcExcluded (ApCellRef 0))
  ∧ hinter_for assertLeFeltExcluded1Code resolver
    = Ok (AssertLeIsSecondArcExcluded (ApCellRef 0))
  ∧ (∃ hint,
       hinter_for assertLeFeltExcluded2Code resolver = Ok (Generic hint)
       ∧ Name hint = "AssertLeFeltExcluded2"
       ∧ ∀ vm ctx,
           (ExcludedArc ctx = 2 → Execute hint vm ctx = Ok vm)
           ∧ (ExcludedArc ctx ≠ 2 →
              Execute hint vm ctx
              = Err (Errorf "assertion `excluded == 2` failed" [])))
  ∧ (∀ a b rangeCheckPtr,
       GetResOperander AsResOperander resolver "a" = Ok a →
       GetResOperander AsResOperander resolver "b" = Ok b →
       GetResOperander AsResOperander resolver "range_check_ptr"
       = Ok rangeCheckPtr →
       hinter_for assertLeFeltCode resolver
       = Ok (AssertLeFindSmallArc a b rangeCheckPtr)).
Proof.
  intros Hcodes.
  assert (Hne : ∀ (i j : nat) c1 c2,
            known_codes !! i = Some c1 → known_codes !! j = Some c2 →
            i ≠ j → String.eqb c1 c2 = false).
  { intros i j c1 c2 Hi Hj Hij. apply String.eqb_neq. intros <-.
    by apply Hij, (NoDup_lookup _ _ _ _ Hcodes Hi Hj). }
  unfold hint_of_code. split_and!.
  - by rewrite String.eqb_refl.
  - rewrite (Hne 5%nat 0%nat), (Hne 5%nat 1%nat), (Hne 5%nat 2%nat),
      (Hne 5%nat 3%nat), (Hne 5%nat 4%nat), String.eqb_refl by done. done.
  - rewrite (Hne 6%nat 0%nat), (Hne 6%nat 1%nat), (Hne 6%nat 2%nat),
      (Hne 6%nat 3%nat), (Hne 6%nat 4%nat), (Hne 6%nat 5%nat),
      String.eqb_refl by done. done.
  - rewrite (Hne 7%nat 0%nat), (Hne 7%nat 1%nat), (Hne 7%nat 2%nat),
      (Hne 7%nat 3%nat), (Hne 7%nat 4%nat), (Hne 7%nat 5%nat),
      (Hne 7%nat 6%nat), String.eqb_refl by done.
    eexists. split_and!; [done..|].
    intros vm ctx. unfold Execute, AssertLeFeltExcluded2_Op. simpl. split.
    + by intros ->.
    + intros Harc. by rewrite (proj2 (Z.eqb_neq _ _) Harc).
  - intros a b rangeCheckPtr Ha Hb Hr.
    rewrite (Hne 4%nat 0%nat), (Hne 4%nat 1%nat), (Hne 4%nat 2%nat),
      (Hne 4%nat 3%nat), String.eqb_refl by done.
    unfold createAssertLeFeltHinter. rewrite Ha. simpl. rewrite Hb. simpl.
    by rewrite Hr.
Qed.

(** What the inner loop of [GetZeroHints] adds to the table. *)
Lemma hints_of_counter_Ok pc rawHints hints hints' :
  counter_hints pc rawHints hints (Ok hints') →
  ∃ hinters,
    Forall2 (λ rawHint hinter, built rawHint pc (Ok hinter)) rawHints hinters
    ∧ (∀ pc', pc' ≠ pc → hints' !! pc' = hints !! pc')
    ∧ default [] (hints' !! pc) = default [] (hints !! pc) ++ hinters
    ∧ (rawHints = [] → hints' = hints)
    ∧ (rawHints ≠ [] → is_Some (hints' !! pc)).
Proof.
  intros Hrel. remember (Ok hints') as result eqn:Hres.
  revert hints' Hres.
  induction Hrel as [hints|rawHint rest hints hinter result Hbuilt _ IH| |];
    intros hints' Hres; try discriminate.
  - injection Hres as <-. exists [].
    split_and!; [constructor|done|by rewrite app_nil_r|done|done].
  - destruct (IH hints' Hres) as (hinters & Hall & Hframe & Hlist & _ & _).
    exists (hinter :: hinters).
    rewrite lookup_insert_eq in Hlist. simpl in Hlist.
    rewrite <- app_assoc in Hlist. simpl in Hlist.
    split_and!; try done.
    + by constructor.
    + intros pc' Hne. rewrite (Hframe _ Hne). by rewrite lookup_insert_ne.
    + intros _. destruct (hints' !! pc) eqn:Hl; [done|]. simpl in Hlist.
      by destruct (default [] (hints !! pc)).
Qed.

Lemma hints_of_counter_fails pc rawHints hints :
  (∀ e, counter_hints pc rawHints hints (Err e) →
        ∃ rawHint, rawHint ∈ rawHints ∧ built rawHint pc (Err e))
  ∧ (counter_hints pc rawHints hints Panic →
     ∃ rawHint, rawHint ∈ rawHints ∧ built rawHint pc Panic).
Proof.
  split.
  - intros e Hrel. remember (Err e) as result eqn:Hres.
    induction Hrel as [|rawHint rest hints hinter result _ _ IH
                       |rawHint rest hints e' Hbuilt|];
      try discriminate.
    + destruct (IH Hres) as (rawHint' & Hin & Hb).
      exists rawHint'. split; [by right|done].
    + injection Hres as ->. exists rawHint. split; [by left|done].
  - intros Hrel. remember Panic as result eqn:Hres.
    induction Hrel as [|rawHint rest hints hinter result _ _ IH
                       | |rawHint rest hints Hbuilt];
      try discriminate.
    + destruct (IH Hres) as (rawHint' & Hin & Hb).
      exists rawHint'. split; [by right|done].
    + exists rawHint. split; [by left|done].
Qed.

(** What the outer loop leaves in the table. *)
Lemma hints_of_entries_Ok entries hints table :
  entries_hints entries hints (Ok table) →
  (∀ counter rawHints,
     (counter, rawHints) ∈ entries →
     ∃ pc, ParseUint counter = Ok pc
           ∧ Forall (λ rawHint, ∃ hinter, built rawHint pc (Ok hinter))
               rawHints)
  ∧ (∀ pc,
       (∀ counter rawHints,
          (counter, rawHints) ∈ entries → ParseUint counter = Ok pc →
          rawHints = []) →
       table !! pc = hints !! pc)
  ∧ (∀ pc,
       is_Some (table !! pc) →
       is_Some (hints !! pc)
       ∨ ∃ counter rawHints,
           (counter, rawHints) ∈ entries
           ∧ ParseUint counter = Ok pc ∧ rawHints ≠ [])
  ∧ (NoDup entries.*1 →
     (∀ counter1 counter2 pc,
        counter1 ∈ entries.*1 → counter2 ∈ entries.*1 →
        ParseUint counter1 = Ok pc → ParseUint counter2 = Ok pc →
        counter1 = counter2) →
     ∀ counter rawHints pc,
       (counter, rawHints) ∈ entries →
       ParseUint counter = Ok pc →
       ∃ hinters,
         Forall2 (λ rawHint hinter, built rawHint pc (Ok hinter))
           rawHints hinters
         ∧ default [] (table !! pc) = default [] (hints !! pc) ++ hinters
         ∧ (rawHints ≠ [] → is_Some (table !! pc))).
Proof.
  intros Hrel. remember (Ok table) as result eqn:Hres.
  revert table Hres.
  induction Hrel
    as [hints
       |counter0 rawHints0 rest hints pc0 hints1 result Hparse Hinner _ IH
       | | | |];
    intros table Hres; try discriminate.
  - injection Hres as <-. split_and!.
    + by intros ? ? ?%elem_of_nil.
    + done.
    + intros pc Hsome. by left.
    + by intros _ _ ? ? ? ?%elem_of_nil.
  - destruct (IH table Hres) as (Hall & Hsame & Hkeys & Hlists).
    destruct (hints_of_counter_Ok _ _ _ _ Hinner)
      as (hinters0 & Hbuilt0 & Hframe0 & Hlist0 & Hnil0 & Hsome0).
    split_and!.
    + intros counter rawHints [[= -> ->]|Hin]%elem_of_cons; [|by eapply Hall].
      exists pc0. split; [done|]. clear -Hbuilt0.
      induction Hbuilt0; constructor; eauto.
    + intros pc Hempty. rewrite Hsame.
      * destruct (decide (pc = pc0)) as [->|Hne]; [|by apply Hframe0].
        rewrite Hnil0; [done|]. eapply Hempty; [by left|done].
      * intros counter rawHints Hin. apply Hempty. by right.
    + intros pc Hsome. destruct (Hkeys pc Hsome)
        as [Hsome1|(counter & rawHints & Hin & Hp & Hne)].
      * destruct (decide (pc = pc0)) as [->|Hne].
        -- destruct rawHints0 as [|rawHint rest0].
           ++ left. by rewrite <- (Hnil0 eq_refl).
           ++ right. exists counter0, (rawHint :: rest0).
              split_and!; [by left|done..].
        -- left. by rewrite <- (Hframe0 _ Hne).
      * right. exists counter, rawHints. split_and!; [by right|done..].
    + intros Hnodup Hinj counter rawHints pc Hin Hp.
      rewrite fmap_cons in Hnodup. simpl in Hnodup.
      apply NoDup_cons in Hnodup as [Hfresh Hnodup].
      assert (Hrest : ∀ counter' rawHints',
                (counter', rawHints') ∈ rest → ParseUint counter' ≠ Ok pc0).
      { intros counter' rawHints' Hin' Hp'.
        assert (counter' = counter0).
        { apply (Hinj _ _ pc0); [|by left|done..].
          right. apply list_elem_of_fmap. by exists (counter', rawHints'). }
        subst counter'. apply Hfresh, list_elem_of_fmap.
        by exists (counter0, rawHints'). }
      apply elem_of_cons in Hin as [[= -> ->]|Hin].
      * assert (pc = pc0) by congruence. subst pc.
        exists hinters0. split; [done|].
        assert (Htable : table !! pc0 = hints1 !! pc0).
        { apply Hsame. intros counter' rawHints' Hin' Hp'.
          by destruct (Hrest _ _ Hin'). }
        rewrite Htable. split; [done|]. apply Hsome0.
      * assert (Hne : pc ≠ pc0).
        { intros ->. by destruct (Hrest _ _ Hin). }
        destruct (Hlists Hnodup) with (counter := counter)
          (rawHints := rawHints) (pc := pc) as (hinters & Hb & Hl & Hs);
          try done.
        { intros c1 c2 pc' Hc1 Hc2. apply Hinj; by right. }
        exists hinters. split; [done|]. split; [|done].
        by rewrite Hl, (Hframe0 _ Hne).
Qed.

Lemma hints_of_entries_fails entries hints :
  (∀ e, entries_hints entries hints (Err e) →
        (∃ counter, counter ∈ entries.*1 ∧ ParseUint counter = Err e)
        ∨ ∃ counter rawHints rawHint pc,
            (counter, rawHints) ∈ entries ∧ rawHint ∈ rawHints
            ∧ ParseUint counter = Ok pc ∧ built rawHint pc (Err e)).
Proof.
  intros e Hrel. remember (Err e) as result eqn:Hres.
  induction Hrel
    as [|counter0 rawHints0 rest hints pc0 hints1 result Hparse Hinner _ IH
        |counter0 rawHints0 rest hints e' Hparse|
        |counter0 rawHints0 rest hints pc0 e' Hparse Hinner|];
    try discriminate.
  - destruct (IH Hres)
      as [(counter & Hin & Hp)|(counter & rawHints & rawHint & pc & Hin & ?)].
    + left. exists counter. split; [by right|done].
    + right. exists counter, rawHints, rawHint, pc. split; [by right|done].
  - injection Hres as ->. left. exists counter0. split; [by left|done].
  - injection Hres as ->. right.
    destruct (proj1 (hints_of_counter_fails _ _ _) _ Hinner)
      as (rawHint & Hin & Hb).
    exists counter0, rawHints0, rawHint, pc0. split_and!; [by left|done..].
Qed.

(** X19. When [GetZeroHints] returns a table, every counter of the
    program's hint map has parsed and every raw hint has been built; the
    program counters of the table are those of the counters that have at
    least one raw hint; and, when no two counters parse to the same
    program counter, the table holds for each counter the hinters built
    from its raw hints, one per raw hint and in their order. *)
Theorem GetZeroHints_table
    (table : gmap Z (list (Hinter VirtualMachine CellRefer))) :
  GetZeroHints ParseIdentifier ApplyApTracking AsResOperander Errorf
    ApCellRef
    allocSegmentCode isLeFeltCode assertLtFeltCode testAssignCode
    assertLeFeltCode assertLeFeltExcluded0Code assertLeFeltExcluded1Code
    assertLeFeltExcluded2Code isNNCode isNNOutOfRangeCode ParseUint program
    (Ok table) →
  (∀ counter rawHints,
     Hints program !! counter = Some rawHints →
     ∃ pc, ParseUint counter = Ok pc
           ∧ Forall (λ rawHint, ∃ hinter, built rawHint pc (Ok hinter))
               rawHints)
  ∧ (∀ pc,
       is_Some (table !! pc) →
       ∃ counter rawHints,
         Hints program !! counter = Some rawHints
         ∧ ParseUint counter = Ok pc ∧ rawHints ≠ [])
  ∧ ((∀ counter1 counter2 pc,
        is_Some (Hints program !! counter1) →
        is_Some (Hints program !! counter2) →
        ParseUint counter1 = Ok pc → ParseUint counter2 = Ok pc →
        counter1 = counter2) →
     ∀ counter rawHints pc,
       Hints program !! counter = Some rawHints →
       ParseUint counter = Ok pc →
       ∃ hinters,
         Forall2 (λ rawHint hinter, built rawHint pc (Ok hinter))
           rawHints hinters
         ∧ default [] (table !! pc) = hinters
         ∧ (rawHints ≠ [] → table !! pc = Some hinters)).
Proof.
  intros (entries & Hperm & Hrel).
  destruct (hints_of_entries_Ok _ _ _ Hrel) as (Hall & _ & Hkeys & Hlists).
  assert (Hin : ∀ counter rawHints,
            (counter, rawHints) ∈ entries
            ↔ Hints program !! counter = Some rawHints).
  { intros counter rawHints. rewrite Hperm. apply elem_of_map_to_list. }
  assert (Hdom : ∀ counter,
            counter ∈ entries.*1 ↔ is_Some (Hints program !! counter)).
  { intros counter. rewrite Hperm. apply elem_of_map_keys. }
  split_and!.
  - intros counter rawHints Hl%Hin. by apply Hall.
  - intros pc Hsome.
    destruct (Hkeys pc Hsome)
      as [[? Hempty]|(counter & rawHints & Hl%Hin & Hp & Hne)].
    + by rewrite lookup_empty in Hempty.
    + by exists counter, rawHints.
  - intros Hinj counter rawHints pc Hl%Hin Hp.
    destruct Hlists with (counter := counter) (rawHints := rawHints) (pc := pc)
      as (hinters & Hb & Hlist & Hsome); try done.
    { rewrite Hperm. apply NoDup_fst_map_to_list. }
    { intros c1 c2 pc' Hc1%Hdom Hc2%Hdom. by apply Hinj. }
    rewrite lookup_empty in Hlist. simpl in Hlist.
    exists hinters. split_and!; [done..|].
    intros Hne. destruct (Hsome Hne) as [l Hl']. rewrite Hl' in Hlist |- *.
    simpl in Hlist. by subst.
Qed.

(** Once a hinter is built for a raw hint, no run gives anything else. *)
Lemma GetHintFromCode_Ok_every_run rawHint hintPC hinter result :
  built rawHint hintPC (Ok hinter) →
  built rawHint hintPC result →
  result = Ok hinter.
Proof.
  intros (resolved & Hrun & Hres)%GetHintFromCode_runs
         (resolved' & Hrun' & ->)%GetHintFromCode_runs.
  destruct resolved as [resolver| |]; simpl in Hres; [|done..].
  by rewrite (getParameters_every_run _ _ _ _ _ _ Hrun _ Hrun').
Qed.

(** X20. A run of [GetZeroHints] that returns an error returns the error
    of a counter that does not parse or of a raw hint that is not built,
    and then no run returns a table: the order in which the maps are
    visited decides which error is returned, not whether there is one.
    On a program without hints every run returns the empty table. *)
Theorem GetZeroHints_failure :
  (∀ e,
     GetZeroHints ParseIdentifier ApplyApTracking AsResOperander Errorf
       ApCellRef
       allocSegmentCode isLeFeltCode assertLtFeltCode testAssignCode
       assertLeFeltCode assertLeFeltExcluded0Code assertLeFeltExcluded1Code
       assertLeFeltExcluded2Code isNNCode isNNOutOfRangeCode ParseUint program
       (Err e) →
     ((∃ counter, is_Some (Hints program !! counter)
                  ∧ ParseUint counter = Err e)
      ∨ ∃ counter rawHints rawHint pc,
          Hints program !! counter = Some rawHints ∧ rawHint ∈ rawHints
          ∧ ParseUint counter = Ok pc ∧ built rawHint pc (Err e))
     ∧ ∀ table, ¬ zero_hints (Ok table))
  ∧ (Hints program = ∅ → ∀ result, zero_hints result ↔ result = Ok ∅).
Proof.
  split.
  - intros e (entries & Hperm & Hrel).
    assert (Hfrom :
      (∃ counter, is_Some (Hints program !! counter)
                  ∧ ParseUint counter = Err e)
      ∨ ∃ counter rawHints rawHint pc,
          Hints program !! counter = Some rawHints ∧ rawHint ∈ rawHints
          ∧ ParseUint counter = Ok pc ∧ built rawHint pc (Err e)).
    { destruct (hints_of_entries_fails _ _ _ Hrel)
        as [(counter & Hin & Hp)
           |(counter & rawHints & rawHint & pc & Hin & Hr & Hp & Hb)].
      - left. exists counter. split; [|done].
        rewrite Hperm in Hin. by apply elem_of_map_keys.
      - right. exists counter, rawHints, rawHint, pc. split_and!; try done.
        rewrite Hperm in Hin. by apply elem_of_map_to_list. }
    split; [exact Hfrom|].
    intros table (entries' & Hperm' & Hrel').
    destruct (hints_of_entries_Ok _ _ _ Hrel') as (Hall & _).
    assert (Hbuilt : ∀ counter rawHints,
              Hints program !! counter = Some rawHints →
              ∃ pc, ParseUint counter = Ok pc
                    ∧ Forall (λ rawHint, ∃ hinter, built rawHint pc (Ok hinter))
                        rawHints).
    { intros counter rawHints Hl. apply Hall. rewrite Hperm'.
      by apply elem_of_map_to_list. }
    destruct Hfrom
      as [(counter & [rawHints Hl] & Hp)
         |(counter & rawHints & rawHint & pc & Hl & Hr & Hp & Hb)].
    + destruct (Hbuilt _ _ Hl) as (pc & Hp' & _). congruence.
    + destruct (Hbuilt _ _ Hl) as (pc' & Hp' & Hhinters).
      assert (pc' = pc) by congruence. subst pc'.
      destruct (proj1 (Forall_forall _ _) Hhinters _ Hr) as [hinter Hok].
      by pose proof (GetHintFromCode_Ok_every_run _ _ _ _ Hok Hb).
  - intros Hempty result. split.
    + intros (entries & Hperm & Hrel).
      rewrite Hempty, map_to_list_empty in Hperm.
      apply Permutation_nil_r in Hperm. subst entries.
      by inversion Hrel.
    + intros ->. exists []. split.
      * by rewrite Hempty, map_to_list_empty.
      * constructor.
Qed.
End DispatchFacts.


Lemma program_a_resolver :
  getParameters parse_length keep_tracking program_a hint_a 7
    (Ok {[ "a" := felt_operand 17 ]}).
Proof.
  exists ["a"]. split; [|reflexivity].
  simpl. by rewrite map_to_list_singleton.
Qed.

Lemma program_a_resolver_unknown :
  getParameters parse_length keep_tracking program_a hint_unknown 7
    (Ok {[ "a" := felt_operand 17 ]}).
Proof.
  exists ["a"]. split; [|reflexivity].
  simpl. by rewrite map_to_list_singleton.
Qed.

Lemma program_a_table :
  example_GetZeroHints program_a (Ok {[ 7 := [hinter_a] ]}).
Proof.
  exists [("7", [hint_a])]. split.
  - simpl. by rewrite map_to_list_singleton.
  - eapply hints_of_entries_next; [reflexivity| |constructor].
    eapply hints_of_counter_next with (hint := hinter_a); [|constructor].
    exists ["a"]. split; [|reflexivity].
    simpl. by rewrite map_to_list_singleton.
Qed.

Lemma GetHintFromCode_binds_first_witness :
  getParameters parse_length keep_tracking program_a hint_a 7
    (Ok {[ "a" := felt_operand 17 ]})
  ∧ example_GetHintFromCode program_a hint_a 7 (Ok hinter_a)
  ∧ example_GetHintFromCode program_a hint_unknown 7
      (Err (errorf_message "Not identified hint" [])).
Proof.
  split; [exact program_a_resolver|]. split.
  - apply (proj1 (proj2 (GetHintFromCode_binds_first parse_length
                           keep_tracking Some errorf_message id
                           "alloc" "is_le_felt" "assert_lt_felt" "test_assign"
                           "assert_le_felt" "excluded_0" "excluded_1"
                           "excluded_2" code_isNN "is_nn_out_of_range"
                           program_a hint_a 7) _ program_a_resolver)).
    reflexivity.
  - apply (proj2 (proj2 (GetHintFromCode_binds_first parse_length
                           keep_tracking Some errorf_message id
                           "alloc" "is_le_felt" "assert_lt_felt" "test_assign"
                           "assert_le_felt" "excluded_0" "excluded_1"
                           "excluded_2" code_isNN "is_nn_out_of_range"
                           program_a hint_unknown 7) _
                    program_a_resolver_unknown)).
    intros Hin.
    repeat (apply elem_of_cons in Hin as [Hin|Hin]; [discriminate Hin|]).
    by apply elem_of_nil in Hin.
Defined.

Lemma GetZeroHints_table_witness :
  example_GetZeroHints program_a (Ok {[ 7 := [hinter_a] ]})
  ∧ (∃ pc, parse_decimal "7" = Ok pc)
  ∧ ∃ counter rawHints,
      Hints program_a !! counter = Some rawHints
      ∧ parse_decimal counter = Ok 7 ∧ rawHints ≠ [].
Proof.
  split; [exact program_a_table|].
  destruct (GetZeroHints_table parse_length keep_tracking Some errorf_message
              id "alloc" "is_le_felt" "assert_lt_felt" "test_assign"
              "assert_le_felt" "excluded_0" "excluded_1" "excluded_2"
              code_isNN "is_nn_out_of_range" parse_decimal program_a
              _ program_a_table) as (Hparse & Hkeys & _).
  split.
  - destruct (Hparse "7" [hint_a] eq_refl) as (pc & Hpc & _). by exists pc.
  - apply Hkeys. by eexists.
Defined.

Lemma program_unknown_fails :
  example_GetZeroHints program_unknown
    (Err (errorf_message "Not identified hint" [])).
Proof.
  exists [("7", [hint_a; hint_unknown])]. split.
  - simpl. by rewrite map_to_list_singleton.
  - eapply hints_of_entries_error; [reflexivity|].
    eapply hints_of_counter_next with (hint := hinter_a).
    + exists ["a"]. split; [|reflexivity].
      simpl. by rewrite map_to_list_singleton.
    + apply hints_of_counter_error.
      exists ["a"]. split; [|reflexivity].
      simpl. by rewrite map_to_list_singleton.
Qed.

Lemma GetZeroHints_failure_witness :
  example_GetZeroHints program_unknown
    (Err (errorf_message "Not identified hint" []))
  ∧ (∃ counter rawHints rawHint pc,
       Hints program_unknown !! counter = Some rawHints
       ∧ rawHint ∈ rawHints
       ∧ parse_decimal counter = Ok pc
       ∧ example_GetHintFromCode program_unknown rawHint pc
           (Err (errorf_message "Not identified hint" [])))
  ∧ (∀ table, ¬ example_GetZeroHints program_unknown (Ok table))
  ∧ Hints program_0_5_10 = ∅
  ∧ example_GetZeroHints program_0_5_10 (Ok ∅).
Proof.
  split; [exact program_unknown_fails|].
  destruct (proj1 (GetZeroHints_failure parse_length keep_tracking Some
                     errorf_message id "alloc" "is_le_felt" "assert_lt_felt"
                     "test_assign" "assert_le_felt" "excluded_0" "excluded_1"
                     "excluded_2" code_isNN "is_nn_out_of_range" parse_decimal
                     program_unknown) _ program_unknown_fails)
    as [[(counter & [rawHints Hl] & Hparse)|Hhint] Hnever].
  { exfalso. destruct (decide (counter = "7")) as [->|Hne].
    - discriminate Hparse.
    - simpl in Hl. by rewrite lookup_singleton_ne in Hl. }
  split; [exact Hhint|]. split; [exact Hnever|].
  split; [reflexivity|].
  apply (proj2 (GetZeroHints_failure parse_length keep_tracking Some
                  errorf_message id "alloc" "is_le_felt" "assert_lt_felt"
                  "test_assign" "assert_le_felt" "excluded_0" "excluded_1"
                  "excluded_2" code_isNN "is_nn_out_of_range" parse_decimal
                  program_0_5_10) eq_refl).
  reflexivity.
Defined.

Lemma hint_of_code_without_operands_witness :
  NoDup ["alloc"; "is_le_felt"; "assert_lt_felt"; "test_assign";
         "assert_le_felt"; "excluded_0"; "excluded_1"; "excluded_2";
         code_isNN; "is_nn_out_of_range"]
  ∧ example_hint_of_code "alloc" ∅ = Ok (AllocSegment 0)
  ∧ ∃ hint,
      example_hint_of_code "excluded_2" ∅ = Ok (Generic hint)
      ∧ Execute hint machine0 context0
        = Err (errorf_message "assertion `excluded == 2` failed" []).
Proof.
  assert (Hcodes : NoDup ["alloc"; "is_le_felt"; "assert_lt_felt";
                          "test_assign"; "assert_le_felt"; "excluded_0";
                          "excluded_1"; "excluded_2"; code_isNN;
                          "is_nn_out_of_range"]).
  { apply (bool_decide_unpack _). vm_compute. exact I. }
  split; [exact Hcodes|].
  destruct (hint_of_code_without_operands Some errorf_message id
              "alloc" "is_le_felt" "assert_lt_felt" "test_assign"
              "assert_le_felt" "excluded_0" "excluded_1" "excluded_2"
              code_isNN "is_nn_out_of_range"
              (VirtualMachine := RecordingVM) ∅ Hcodes)
    as (Halloc & _ & _ & (hint & Hbuilt & _ & Hop) & _).
  split; [exact Halloc|].
  exists hint. split; [exact Hbuilt|].
  apply (proj2 (Hop machine0 context0)). simpl. lia.
Defined.

Lemma InitializeDictionaryManager_enables_NewDictionary_witness :
  NewDictionary (ctx_DictionaryManager context0) machine0 = Panic
  ∧ (∃ created, NewDictionary manager0 machine0 = Ok created)
  ∧ useTemporarySegments manager0 = true.
Proof.
  destruct (InitializeDictionaryManager_enables_NewDictionary context0 true
              machine0) as (Hpanic & Hcreated & Hflag & _).
  split; [exact (proj2 (Hpanic (ctx_DictionaryManager context0)) eq_refl)|].
  split; [exact Hcreated|exact Hflag].
Defined.
